(** * linkedin_job_bot: scoring, filtering and logging of job postings

    A shallow embedding of [linkedin_job_bot.py].  Python [str] values are
    represented by their UTF-8 encoding as [string]: every byte of a
    multi-byte sequence is at least 128, hence outside the character class
    of [WORD_RE], exactly as the code point it encodes.  Python [float] is
    IEEE 754 binary64, represented by the Standard Library's [spec_float]
    with correctly rounded operations written out over [Z]. *)

From Stdlib Require Import ZArith QArith String Ascii Lia Lqa Bool.
From Stdlib Require Import Numbers.DecimalString Numbers.DecimalZ.
From Stdlib Require Import Floats.SpecFloat Floats.PrimFloat Floats.FloatOps.
From Stdlib Require Import Uint63.
From stdpp Require Import gmap strings list sorting.

Local Open Scope string_scope.
Local Open Scope nat_scope.
Local Open Scope list_scope.

(** ** The pattern [WORD_RE] and the scan of [finditer] *)

Module Regex.

(** [WORD_RE = re.compile(r"[a-zA-Z][a-zA-Z0-9+.#-]+")]: the two character
    classes of the pattern. *)
Definition is_upper (c : ascii) : bool :=
  let n := nat_of_ascii c in (65 <=? n) && (n <=? 90).

Definition is_lower (c : ascii) : bool :=
  let n := nat_of_ascii c in (97 <=? n) && (n <=? 122).

Definition is_digit (c : ascii) : bool :=
  let n := nat_of_ascii c in (48 <=? n) && (n <=? 57).

(** [[a-zA-Z]] *)
Definition is_letter (c : ascii) : bool := is_lower c || is_upper c.

(** [[a-zA-Z0-9+.#-]] *)
Definition is_class (c : ascii) : bool :=
  is_letter c || is_digit c
  || Ascii.eqb c "+" || Ascii.eqb c "." || Ascii.eqb c "#" || Ascii.eqb c "-".

(** A match object is kept as its span [(start, stop)], as [match.span()]
    gives it: the half-open range of positions it covers. *)
Definition span : Type := nat * nat.

(** A candidate that started at [start] and stopped before [stop] is a match
    when the greedy [+] consumed at least one character after the letter. *)
Definition emit (start stop : nat) : list span :=
  if 2 <=? stop - start then [(start, stop)] else [].

(** The scan of the regex engine over the characters.  [scan pos s] looks
    for the next match start in the rest [s] of the text at position [pos];
    [run start pos s] is inside the greedy repetition of a candidate that
    began at [start].  When the repetition stops at a character outside the
    class, that character cannot start a match either (a letter is in the
    class), so the search resumes after it. *)
Fixpoint scan (pos : nat) (s : list ascii) : list span :=
  match s with
  | [] => []
  | c :: r => if is_letter c then run pos (S pos) r else scan (S pos) r
  end
with run (start pos : nat) (s : list ascii) : list span :=
  match s with
  | [] => emit start pos
  | c :: r =>
      if is_class c then run start (S pos) r
      else emit start pos ++ scan (S pos) r
  end.

(** [match.group(0)]: the characters a span covers. *)
Definition slice (l : list ascii) (sp : span) : list ascii :=
  take (sp.2 - sp.1) (drop sp.1 l).

(** *** What the pattern means, independently of the scan *)

Definition letter_at (l : list ascii) (k : nat) : bool :=
  match l !! k with Some c => is_letter c | None => false end.

Definition class_at (l : list ascii) (k : nat) : bool :=
  match l !! k with Some c => is_class c | None => false end.

(** The characters at positions [i .. j-1] match the pattern: a letter, then
    one or more characters of the class. *)
Definition matches (l : list ascii) (i j : nat) : Prop :=
  i + 2 ≤ j ∧ j ≤ length l ∧ letter_at l i = true
  ∧ ∀ k, i < k < j → class_at l k = true.

(** A maximal run: a match that no other match contains. *)
Definition maximal (l : list ascii) (i j : nat) : Prop :=
  matches l i j
  ∧ ∀ i' j', i' ≤ i → j ≤ j' → matches l i' j' → i' = i ∧ j' = j.

(** The same, read off the neighbouring characters: the run cannot grow to
    the right, and no letter to the left reaches it through class
    characters. *)
Definition left_blocked (l : list ascii) (p : nat) : Prop :=
  ∀ i', i' < p → letter_at l i' = true →
        ¬ (∀ k, i' < k < p → class_at l k = true).

Definition delimited (l : list ascii) (i j : nat) : Prop :=
  matches l i j ∧ class_at l j = false ∧ left_blocked l i.

(** Two spans in text order, with at least one character between them. *)
Definition apart (a b : span) : Prop := a.2 < b.1.

(** A span moved [d] positions to the right. *)
Definition shift (d : nat) (sp : span) : span := (d + sp.1, d + sp.2).

End Regex.

(** ** Text normalizer *)

(** [WORD_RE.finditer(text)] *)
Definition finditer (text : string) : list Regex.span :=
  Regex.scan 0 (list_ascii_of_string text).

Definition group0 (text : string) (m : Regex.span) : list ascii :=
  Regex.slice (list_ascii_of_string text) m.

(** [str.lower()] on a match: a match holds ASCII characters only, on which
    lowering adds 32 to the upper-case letters and keeps the rest. *)
Definition lower_ascii (c : ascii) : ascii :=
  if Regex.is_upper c then ascii_of_nat (nat_of_ascii c + 32) else c.

Definition upper_ascii (c : ascii) : ascii :=
  if Regex.is_lower c then ascii_of_nat (nat_of_ascii c - 32) else c.

Definition lower (w : list ascii) : string :=
  string_of_list_ascii (map lower_ascii w).

(** [normalize_words(text)] *)
Definition normalize_words (text : string) : list string :=
  map (fun m => lower (group0 text m)) (finditer text).

(** Case variants: texts of equal length that agree up to the case of their
    ASCII letters. *)
Definition case_variant (s t : string) : Prop :=
  Forall2 (fun a b => lower_ascii a = lower_ascii b)
          (list_ascii_of_string s) (list_ascii_of_string t).

(** ASCII lower- and upper-casing of a whole text. *)
Definition to_lower (s : string) : string :=
  string_of_list_ascii (map lower_ascii (list_ascii_of_string s)).

Definition to_upper (s : string) : string :=
  string_of_list_ascii (map upper_ascii (list_ascii_of_string s)).

(** ** Python floats *)

Module Float.

Local Open Scope Z_scope.

(** [2 ^ e] for [0 <= e], and [1] below: the two factors [pow2 e] and
    [pow2 (- e)] carry a power of two of either sign as a fraction. *)
Definition pow2 (e : Z) : Z := 2 ^ Z.max 0 e.

(** The integer nearest to [a / b], ties to the even one ([0 <= a], [0 < b]). *)
Definition round_half_even (a b : Z) : Z :=
  let q := a / b in
  match 2 * (a mod b) ?= b with
  | Lt => q
  | Gt => q + 1
  | Eq => if Z.even q then q else q + 1
  end.

(** The same with ties away from zero. *)
Definition round_half_up (a b : Z) : Z :=
  let q := a / b in if 2 * (a mod b) <? b then q else q + 1.

(** [floor (log2 (a / b))] for [0 < a], [0 < b]. *)
Definition floor_log2 (a b : Z) : Z :=
  let d := Z.log2 a - Z.log2 b in
  if b * pow2 d <=? a * pow2 (- d) then d else d - 1.

(** Rounding to nearest, ties to even, in binary64: the double nearest to
    the rational [a / b] ([0 <= a], [0 < b]) with the sign [sign].  The
    exponent is that of the binade of [a / b], not below the subnormal one;
    the significand is the quotient rounded to an integer; a significand that
    rounds up to [2 ^ 53] moves to the next binade. *)
Definition RN (sign : bool) (a b : Z) : spec_float :=
  if a =? 0 then S754_zero sign else
  let e := Z.max (floor_log2 a b - 52) (-1074) in
  let k := round_half_even (a * pow2 (- e)) (b * pow2 e) in
  let '(k, e) := if k =? 2 ^ 53 then (2 ^ 52, e + 1) else (k, e) in
  if k =? 0 then S754_zero sign
  else if 971 <? e then S754_infinity sign
  else S754_finite sign (Z.to_pos k) e.

(** [float(n)] for a Python [int]. *)
Definition of_int (n : Z) : spec_float := RN (n <? 0) (Z.abs n) 1.

(** [a / b] on Python [int]s holding lengths ([0 <= a], [0 < b]): true
    division gives the correctly rounded quotient.  [b = 0] raises
    [ZeroDivisionError] in Python; [ats_score] tests for it before dividing. *)
Definition int_truediv (a b : nat) : spec_float :=
  RN false (Z.of_nat a) (Z.of_nat b).

(** [x * y] on floats. *)
Definition mul (x y : spec_float) : spec_float :=
  match x, y with
  | S754_nan, _ | _, S754_nan => S754_nan
  | S754_infinity _, S754_zero _ | S754_zero _, S754_infinity _ => S754_nan
  | S754_infinity sx, S754_infinity sy
  | S754_infinity sx, S754_finite sy _ _
  | S754_finite sx _ _, S754_infinity sy => S754_infinity (xorb sx sy)
  | S754_zero sx, S754_zero sy
  | S754_zero sx, S754_finite sy _ _
  | S754_finite sx _ _, S754_zero sy => S754_zero (xorb sx sy)
  | S754_finite sx mx ex, S754_finite sy my ey =>
      RN (xorb sx sy) (Zpos mx * Zpos my * pow2 (ex + ey)) (pow2 (- (ex + ey)))
  end.

(** The number of hundredths nearest to the magnitude of a finite double,
    ties to even: the digits CPython obtains from the exact value of the
    double, both for [round(x, 2)] and for the format [.2f]. *)
Definition hundredths (m : positive) (e : Z) : Z :=
  round_half_even (100 * Zpos m * pow2 e) (pow2 (- e)).

(** [round(x, 2)]: the exact value of [x] rounded to hundredths, then the
    double nearest to that decimal; infinities and NaN are returned as they
    are. *)
Definition round2 (x : spec_float) : spec_float :=
  match x with
  | S754_finite s m e => RN s (hundredths m e) 100
  | _ => x
  end.

(** The value of a finite double as a rational. *)
Definition to_Q (x : spec_float) : Q :=
  match x with
  | S754_finite s m e =>
      let v := Qmake (Zpos m * pow2 e) (Z.to_pos (pow2 (- e))) in
      if s then Qopp v else v
  | _ => 0%Q
  end.

(** [x <= y] on floats: false when either is NaN; the two zeros are equal. *)
Definition le (x y : spec_float) : bool :=
  match x, y with
  | S754_nan, _ | _, S754_nan => false
  | S754_infinity true, _ | _, S754_infinity false => true
  | S754_infinity false, _ | _, S754_infinity true => false
  | _, _ => Qle_bool (to_Q x) (to_Q y)
  end.

(** [x >= y] *)
Definition ge (x y : spec_float) : bool := le y x.

(** [x < y] *)
Definition lt (x y : spec_float) : bool :=
  match x, y with
  | S754_nan, _ | _, S754_nan => false
  | _, _ => negb (le y x)
  end.

Definition dec (n : Z) : string := NilZero.string_of_int (Z.to_int n).

(** [f"{x:.2f}"] *)
Definition format_2f (x : spec_float) : string :=
  match x with
  | S754_nan => "nan"
  | S754_infinity s => if s then "-inf" else "inf"
  | S754_zero s => if s then "-0.00" else "0.00"
  | S754_finite s m e =>
      let k := hundredths m e in
      (if s then "-" else "")
        +:+ dec (k / 100) +:+ "." +:+ dec (k mod 100 / 10) +:+ dec (k mod 10)
  end.

(** The literals [0.0] and [100.0]. *)
Definition zero : spec_float := S754_zero false.
Definition hundred : spec_float := Eval vm_compute in of_int 100.

(** A non-negative double that is at most the integer [N]: zero, or a
    significand [m] at an exponent [e <= 0] with [m <= N * 2 ^ (- e)]. *)
Definition within (N : Z) (x : spec_float) : Prop :=
  x = S754_zero false
  ∨ ∃ m e, x = S754_finite false m e ∧ e ≤ 0 ∧ Zpos m ≤ N * 2 ^ (- e).

End Float.

(** ** The float model against the machine *)

Module Binary64.

Local Open Scope Z_scope.

(** Two doubles with the same sign, significand and exponent. *)
Definition same (x y : spec_float) : bool :=
  match x, y with
  | S754_zero a, S754_zero b | S754_infinity a, S754_infinity b => Bool.eqb a b
  | S754_nan, S754_nan => true
  | S754_finite a m e, S754_finite b m' e' =>
      Bool.eqb a b && Pos.eqb m m' && Z.eqb e e'
  | _, _ => false
  end.

(** [(m / n) * 100] on the primitive floats of the kernel, which are the
    doubles of the machine. *)
Definition hardware_product (m n : Z) : spec_float :=
  Prim2SF
    (PrimFloat.mul
       (PrimFloat.div (PrimFloat.of_uint63 (Uint63.of_Z m))
                      (PrimFloat.of_uint63 (Uint63.of_Z n)))
       (PrimFloat.of_uint63 (Uint63.of_Z 100))).

(** The same through the Standard Library's specification of IEEE 754. *)
Definition ieee_of_int (n : Z) : spec_float := binary_normalize 53 1024 n 0 false.

Definition ieee_product (m n : Z) : spec_float :=
  SFmul 53 1024 (SFdiv 53 1024 (ieee_of_int m) (ieee_of_int n)) (ieee_of_int 100).

(** The same in the model of this file. *)
Definition model_product (m n : Z) : spec_float :=
  Float.mul (Float.int_truediv (Z.to_nat m) (Z.to_nat n)) Float.hundred.

Definition agree (p : Z * Z) : bool :=
  same (model_product p.1 p.2) (hardware_product p.1 p.2)
  && same (model_product p.1 p.2) (ieee_product p.1 p.2).

(** The pairs [(m, n)] with [0 <= m <= n] and [1 <= n <= k]. *)
Fixpoint pairs_upto (k : nat) : list (Z * Z) :=
  match k with
  | O => []
  | S k' =>
      pairs_upto k' ++ map (fun m => (Z.of_nat m, Z.of_nat k)) (seq 0 (S k))
  end.

(** What CPython 3 returns for [round((m / n) * 100, 2)]. *)
Definition cpython_round : list (nat * nat * PrimFloat.float) :=
  [ (0, 5, 0x0.0p+0%float);                (* 0.0 *)
    (1, 3, 0x1.0aa3d70a3d70ap+5%float);    (* 33.33 *)
    (2, 3, 0x1.0aae147ae147bp+6%float);    (* 66.67 *)
    (3, 7, 0x1.56e147ae147aep+5%float);    (* 42.86 *)
    (4, 7, 0x1.c91eb851eb852p+5%float);    (* 57.14 *)
    (1, 32, 0x1.8f5c28f5c28f6p+1%float);   (* 3.12 *)
    (3, 32, 0x1.2c28f5c28f5c3p+3%float);   (* 9.38 *)
    (5, 32, 0x1.f3d70a3d70a3dp+3%float);   (* 15.62 *)
    (1, 160, 0x1.3d70a3d70a3d7p-1%float);  (* 0.62 *)
    (23, 160, 0x1.cbd70a3d70a3dp+3%float); (* 14.37 *)
    (49, 160, 0x1.ea147ae147ae1p+4%float); (* 30.63 *)
    (51, 160, 0x1.fdeb851eb851fp+4%float); (* 31.87 *)
    (87, 160, 0x1.b2f5c28f5c28fp+5%float); (* 54.37 *)
    (93, 160, 0x1.d10a3d70a3d71p+5%float); (* 58.13 *)
    (160, 160, 0x1.9p+6%float) ]%nat.      (* 100.0 *)

(** What CPython 3 returns for [f"{x:.2f}"]. *)
Definition cpython_format : list (PrimFloat.float * string) :=
  [ (0x1.6ep+6%float, "91.50");                (* 91.5 *)
    (0x1p-3%float, "0.12");                    (* 0.125 *)
    (0x1.8p-2%float, "0.38");                  (* 0.375 *)
    (0x1.5666666666666p+1%float, "2.67");      (* 2.675 *)
    (0x1.0f0cf064dd592p+73%float, "10000000000000000000000.00"); (* 1e22 *)
    ((-0x1.0624dd2f1a9fcp-10)%float, "-0.00"); (* -0.001 *)
    (0x1.47ae147ae147bp-8%float, "0.01");      (* 0.005 *)
    (0x1.eb851eb851eb8p-7%float, "0.01");      (* 0.015 *)
    (0x1.8ffae147ae148p+6%float, "100.00");    (* 99.995 *)
    (0x0p+0%float, "0.00") ].

End Binary64.

(** ** Python values and exceptions *)

(** The values a record read from JSON holds under its keys: JSON strings,
    integers, booleans and [null].  Numbers with a fraction, arrays and
    objects are left out. *)
Inductive pyval : Type :=
  | PyStr (s : string)
  | PyInt (n : Z)
  | PyBool (b : bool)
  | PyNone.

(** [str(v)], which is also how an f-string renders [v]. *)
Definition py_str (v : pyval) : string :=
  match v with
  | PyStr s => s
  | PyInt n => Float.dec n
  | PyBool b => if b then "True" else "False"
  | PyNone => "None"
  end.

Inductive exn : Type :=
  | FileNotFoundError
  | JSONDecodeError
  | AttributeError
  | TypeError.

Inductive result (A : Type) : Type :=
  | Ok (a : A)
  | Raise (e : exn).
Arguments Ok {A} a.
Arguments Raise {A} e.

Definition bind {A B : Type} (r : result A) (k : A → result B) : result B :=
  match r with
  | Ok a => k a
  | Raise e => Raise e
  end.

Notation "x ←! r ; k" := (bind r (fun x => k))
  (at level 100, r at next level, right associativity).

(** ** Job loader *)

(** [@dataclass(frozen=True) class Job].  [job_id] is built by [str(...)];
    the other fields hold what the record had under the key, as it is. *)
Record Job : Type := mkJob {
  job_id : string;
  title : pyval;
  company : pyval;
  location : pyval;
  description : pyval;
  url : pyval
}.

(** A record of the jobs file: a JSON object. *)
Definition item : Type := gmap string pyval.

(** [item.get(key, "")] *)
Definition get (it : item) (key : string) : pyval :=
  default (PyStr "") (it !! key).

(** The body of [load_jobs] after [json.loads]: the loop over [data]. *)
Fixpoint load_loop (data : list item) (jobs : list Job) : list Job :=
  match data with
  | [] => jobs
  | it :: rest =>
      load_loop rest
        (jobs ++ [ {| job_id := py_str (get it "id");
                      title := get it "title";
                      company := get it "company";
                      location := get it "location";
                      description := get it "description";
                      url := get it "url" |} ])
  end.

Definition jobs_of_data (data : list item) : list Job := load_loop data [].

(** ** Scorer *)

(** [ats_score(resume_text, job_description)] *)
Definition ats_score (resume_text job_description : string) : spec_float :=
  let resume_words : gset string := list_to_set (normalize_words resume_text) in
  let job_words : gset string := list_to_set (normalize_words job_description) in
  if size job_words =? 0 then Float.zero
  else
    let matches := resume_words ∩ job_words in
    Float.round2
      (Float.mul (Float.int_truediv (size matches) (size job_words))
                 (Float.of_int 100)).

(** The call [ats_score(resume_text, job.description)]: [finditer] raises
    [TypeError] on a description that is not a [str]. *)
Definition score_job (resume_text : string) (job : Job) : result spec_float :=
  match description job with
  | PyStr d => Ok (ats_score resume_text d)
  | _ => Raise TypeError
  end.

(** ** Filter *)

(** The loop of [filter_jobs_by_score], [results] being the list built so
    far. *)
Fixpoint filter_loop (jobs : list Job) (resume_text : string)
    (threshold : spec_float) (results : list (Job * spec_float))
    : result (list (Job * spec_float)) :=
  match jobs with
  | [] => Ok results
  | job :: rest =>
      score ←! score_job resume_text job;
      if Float.ge score threshold
      then filter_loop rest resume_text threshold (results ++ [(job, score)])
      else filter_loop rest resume_text threshold results
  end.

Definition filter_jobs_by_score (jobs : list Job) (resume_text : string)
    (threshold : spec_float) : result (list (Job * spec_float)) :=
  filter_loop jobs resume_text threshold [].

(** ** Applicator, logger and the pipeline *)

(** The state the program acts on: the text files by path, and the number of
    times the clock has been read. *)
Record world : Type := mkWorld {
  files : gmap string string;
  clock : nat
}.

(** The command line, as [parse_args] returns it. *)
Record args : Type := mkArgs {
  jobs_file : string;
  resume : string;
  threshold : spec_float;
  interval_minutes : Z;
  once : bool;
  log : string
}.

(** [path.read_text(encoding="utf-8")] *)
Definition read_text (path : string) (w : world) : result string :=
  match files w !! path with
  | Some content => Ok content
  | None => Raise FileNotFoundError
  end.

(** The content of a file, an absent one counting as empty: what a file
    opened for appending starts from. *)
Definition content (path : string) (w : world) : string :=
  default "" (files w !! path).

(** The fields of an entry after the timestamp. *)
Definition entry_body (job : Job) (score : spec_float) : string :=
  "APPLIED | " +:+ job_id job +:+ " | " +:+ py_str (title job)
    +:+ " | " +:+ py_str (company job) +:+ " | "
    +:+ py_str (location job) +:+ " | " +:+ Float.format_2f score
    +:+ " | " +:+ py_str (url job).

Definition newline : string := String (ascii_of_nat 10) "".

(** The f-string of [log_application]. *)
Definition entry (timestamp : string) (job : Job) (score : spec_float)
    : string :=
  timestamp +:+ " | " +:+ entry_body job score +:+ newline.

Section Pipeline.

(** [datetime.utcnow().isoformat()] at the [k]-th reading of the clock. *)
Variable utcnow_isoformat : nat → string.

(** [json.loads] on the text of the jobs file: the list of records the text
    holds, or the exception that ends [load_jobs] ([JSONDecodeError] on a text
    that is not JSON, [AttributeError] or [TypeError] from the loop on a
    document that is not a list of objects). *)
Variable json_loads : string → result (list item).

(** [load_jobs(path)] *)
Definition load_jobs (path : string) (w : world) : result (list Job) :=
  text ←! read_text path w;
  data ←! json_loads text;
  Ok (jobs_of_data data).

(** [log_application(log_path, job, score)]: the file is opened in mode
    ["a"], which creates it when absent and writes at its end.  The open and
    the write are taken to succeed: a log that cannot be opened or written
    is outside this model. *)
Definition log_application (log_path : string) (job : Job)
    (score : spec_float) (w : world) : world :=
  let timestamp := utcnow_isoformat (clock w) in
  {| files := <[log_path := content log_path w +:+ entry timestamp job score]>
                (files w);
     clock := S (clock w) |}.

(** [apply_to_jobs(jobs_with_scores, log_path)] *)
Fixpoint apply_to_jobs (jobs_with_scores : list (Job * spec_float))
    (log_path : string) (w : world) : world :=
  match jobs_with_scores with
  | [] => w
  | (job, score) :: rest =>
      apply_to_jobs rest log_path (log_application log_path job score w)
  end.

(** [run_once(args)].  The exceptions followed here are those of the two
    reads, of [json.loads] and of the filter, which all come before the
    first write. *)
Definition run_once (a : args) (w : world) : result world :=
  resume_text ←! read_text (resume a) w;
  jobs ←! load_jobs (jobs_file a) w;
  eligible_jobs ←! filter_jobs_by_score jobs resume_text (threshold a);
  match eligible_jobs with
  | [] => Ok w
  | _ => Ok (apply_to_jobs eligible_jobs (log a) w)
  end.

(** The first [n] passes of [main]: one pass with [--once], and the loop of
    the scheduler otherwise, whose [time.sleep] changes nothing here. *)
Fixpoint passes (n : nat) (a : args) (w : world) : result world :=
  match n with
  | O => Ok w
  | S n' => w' ←! run_once a w; passes n' a w'
  end.

(** The entries a pass appends for the eligible postings, the first one
    stamped by the [t]-th reading of the clock. *)
Definition batch (t : nat) (eligible : list (Job * spec_float))
    : list string :=
  imap (fun i p => entry (utcnow_isoformat (t + i)) p.1 p.2) eligible.

End Pipeline.

(** ** The claims of the specification, as it words them *)

(** "the sets of normalized tokens" *)
Definition token_set (text : string) : gset string :=
  list_to_set (normalize_words text).

(** "round(100 * |R ∩ J| / |J|, 2)", the quotient being the exact one: the
    hundredths nearest to [100 * m / n], ties to even as Python's [round]
    breaks them, as a double. *)
Definition exact_score (m n : nat) : spec_float :=
  Float.RN false (Float.round_half_even (100 * 100 * Z.of_nat m) (Z.of_nat n)) 100.

(** The same with ties rounded up. *)
Definition exact_score_half_up (m n : nat) : spec_float :=
  Float.RN false (Float.round_half_up (100 * 100 * Z.of_nat m) (Z.of_nat n)) 100.

(** The Python expression [round(100 * m / n, 2)] on [int]s: the product is
    exact and only the quotient is rounded to a double. *)
Definition product_first_score (m n : nat) : spec_float :=
  Float.round2 (Float.int_truediv (100 * m) n).

(** "divides by the job-description token-set size, multiplies by 100,
    rounds to 2 decimal places", each step on doubles. *)
Definition quotient_first_score (m n : nat) : spec_float :=
  Float.round2 (Float.mul (Float.int_truediv m n) Float.hundred).

(** [100 * m / n] lies exactly midway between two hundredths. *)
Definition tie (m n : nat) : Prop :=
  (2 * ((100 * 100 * Z.of_nat m) mod Z.of_nat n) = Z.of_nat n)%Z.

(** "uppercasing": Python's [str.upper()] on the characters of a text made
    of ASCII characters and of the letter ß (the bytes 195 159 in UTF-8),
    whose upper case is "SS"; [None] on a text with another character. *)
Fixpoint upper_chars (l : list ascii) : option (list ascii) :=
  match l with
  | [] => Some []
  | c :: r =>
      if nat_of_ascii c <? 128
      then option_map (cons (upper_ascii c)) (upper_chars r)
      else
        match r with
        | d :: r' =>
            if (nat_of_ascii c =? 195) && (nat_of_ascii d =? 159)
            then option_map (fun u => "S"%char :: "S"%char :: u) (upper_chars r')
            else None
        | [] => None
        end
  end.

Definition str_upper (text : string) : option string :=
  option_map string_of_list_ascii (upper_chars (list_ascii_of_string text)).

(** A value that is a [str]. *)
Definition is_text (v : pyval) : bool :=
  match v with PyStr _ => true | _ => false end.

(** Postings whose descriptions are text, as the data model has them. *)
Definition all_text (jobs : list Job) : bool :=
  forallb (fun job => is_text (description job)) jobs.

(** "the (posting, score) pairs whose score is ≥ the threshold, where each
    score equals ats_score of the resume against that posting's description,
    in the same relative order as the input sequence" *)
Definition eligible (jobs : list Job) (resume_text : string)
    (threshold : spec_float) : list (Job * spec_float) :=
  filter (fun p => Float.ge p.2 threshold = true)
         (map (fun job => (job, ats_score resume_text (py_str (description job))))
              jobs).

(** The entries of a log, one after the other: the content of a file that
    received them by successive appends. *)
Definition join (entries : list string) : string := foldr append "" entries.

(** An entry without its timestamp, and an entry put together again. *)
Definition bodies (pairs : list (Job * spec_float)) : list string :=
  map (fun p => entry_body p.1 p.2) pairs.

Definition stamp (timestamp body : string) : string :=
  timestamp +:+ " | " +:+ body +:+ newline.

(** A rendering with exactly two decimal places: an integer part of digits,
    a point, two digits. *)
Definition two_decimals (s : string) : Prop :=
  ∃ (sign int_part : string) (d1 d2 : ascii),
    s = sign +:+ int_part +:+ "." +:+ String d1 (String d2 "")
    ∧ (sign = "" ∨ sign = "-")
    ∧ Forall (fun c => Regex.is_digit c = true) (list_ascii_of_string int_part)
    ∧ int_part ≠ ""
    ∧ Regex.is_digit d1 = true ∧ Regex.is_digit d2 = true.

(** A text without a line break. *)
Definition no_newline (s : string) : Prop :=
  Forall (fun c => c ≠ ascii_of_nat 10) (list_ascii_of_string s).

(** A double that is neither an infinity nor NaN. *)
Definition is_finite (x : spec_float) : bool :=
  match x with
  | S754_zero _ | S754_finite _ _ _ => true
  | _ => false
  end.

(** The posting of the example of the specification. *)
Definition job42 : Job :=
  {| job_id := "42"; title := PyStr "Backend Engineer"; company := PyStr "Acme";
     location := PyStr "Remote"; description := PyStr "";
     url := PyStr "http://x/42" |}.

(** [" ".join(f"w{i}" for i in range(n))]: a text of [n] distinct tokens. *)
Definition words (n : nat) : string :=
  String.concat " " (map (fun i => "w" +:+ Float.dec (Z.of_nat i)) (seq 0 n)).

(** ** Further notions the properties of the code are stated with *)

(** The characters of a token: the class of [WORD_RE] without the upper-case
    letters. *)
Definition is_token_char (c : ascii) : bool :=
  Regex.is_lower c || Regex.is_digit c
  || Ascii.eqb c "+" || Ascii.eqb c "." || Ascii.eqb c "#" || Ascii.eqb c "-".

(** The shape of a token: a lower-case letter, then one or more characters of
    a token. *)
Definition is_token (w : string) : bool :=
  match list_ascii_of_string w with
  | c :: (_ :: _) as r => Regex.is_lower c && forallb is_token_char r
  | _ => false
  end.

(** The number of hundredths [round(x, 2)] and [.2f] read from a double. *)
Definition hundredths_of (x : spec_float) : Z :=
  match x with
  | S754_finite _ m e => Float.hundredths m e
  | _ => 0%Z
  end.

(** A number of hundredths written with two decimals. *)
Definition render_hundredths (k : Z) : string :=
  Float.dec (k / 100) +:+ "." +:+ Float.dec (k mod 100 / 10)
    +:+ Float.dec (k mod 10).

(** Every posting with its score, whatever the threshold. *)
Definition scored (jobs : list Job) (resume_text : string)
    : list (Job * spec_float) :=
  map (fun job => (job, ats_score resume_text (py_str (description job)))) jobs.

(** The keys [load_jobs] reads from a record. *)
Definition job_keys : list string :=
  ["id"; "title"; "company"; "location"; "description"; "url"].

(** An item the loop of [load_jobs] meets: a JSON object, that is a [dict],
    or any other value (a string, a number, a boolean, [null], an array),
    which has no method [get]. *)
Inductive element : Type :=
  | Record (it : item)
  | Other.

(** What [json.loads] returns, as the loop tells its values apart: an array;
    an object, whose iteration gives its keys; a string, whose iteration
    gives its characters; a number, a boolean or [null], which cannot be
    iterated. *)
Inductive document : Type :=
  | Array (elements : list element)
  | Object (keys : list string)
  | Text (s : string)
  | Scalar.

(** The items [for item in data] goes through.  The keys of an object and
    the characters of a string are strings, none of them a record; a string
    gives one item per byte here, of which the loop never sees more than the
    first. *)
Definition iterate (data : document) : result (list element) :=
  match data with
  | Array elements => Ok elements
  | Object keys => Ok ((λ _, Other) <$> keys)
  | Text s => Ok ((λ _, Other) <$> list_ascii_of_string s)
  | Scalar => Raise TypeError
  end.

(** The loop of [load_jobs] over such items: [item.get] raises
    [AttributeError] on an item that is not a record. *)
Fixpoint load_items (items : list element) (jobs : list Job)
    : result (list Job) :=
  match items with
  | [] => Ok jobs
  | Record it :: rest =>
      load_items rest
        (jobs ++ [ {| job_id := py_str (get it "id");
                      title := get it "title";
                      company := get it "company";
                      location := get it "location";
                      description := get it "description";
                      url := get it "url" |} ])
  | Other :: _ => Raise AttributeError
  end.

(** [load_jobs] after [json.loads] has returned [data], whatever document
    [data] is. *)
Definition load_data (data : document) : result (list Job) :=
  items ←! iterate data;
  load_items items [].

(** The number of line breaks of a text: the number of lines of a log whose
    lines are all terminated. *)
Fixpoint newlines (s : string) : nat :=
  match s with
  | "" => 0
  | String c r => (if Ascii.eqb c (ascii_of_nat 10) then 1 else 0) + newlines r
  end.

(** A posting whose logged fields hold no line break. *)
Definition one_line_fields (job : Job) : Prop :=
  no_newline (job_id job) ∧ no_newline (py_str (title job))
  ∧ no_newline (py_str (company job)) ∧ no_newline (py_str (location job))
  ∧ no_newline (py_str (url job)).

(** A text without the bar that separates the fields of an entry. *)
Definition no_bar (s : string) : Prop :=
  Forall (fun c => c ≠ "|"%char) (list_ascii_of_string s).

(** A posting whose logged fields hold no bar. *)
Definition bar_free_fields (job : Job) : Prop :=
  no_bar (job_id job) ∧ no_bar (py_str (title job))
  ∧ no_bar (py_str (company job)) ∧ no_bar (py_str (location job))
  ∧ no_bar (py_str (url job)).

(** The entries [n] passes append when each pass finds the same eligible
    pairs, the first pass starting at the [t]-th reading of the clock. *)
Fixpoint batches (utcnow_isoformat : nat → string) (n t : nat)
    (eligible : list (Job * spec_float)) : list string :=
  match n with
  | O => []
  | S n' =>
      batch utcnow_isoformat t eligible
      ++ batches utcnow_isoformat n' (t + length eligible) eligible
  end.

(** ** The scheduler *)

(** Where [main] stands: it has returned; a pass has raised an exception,
    which [main] does not catch; [time.sleep] has raised on a length it
    refuses; or the loop goes on.  The world is recorded where every pass
    run so far has returned. *)
Inductive main_state : Type :=
  | Returned (w : world)
  | PassRaised (e : exn)
  | SleepRaised (w : world)
  | Looping (w : world).

Section Scheduler.

Variable utcnow_isoformat : nat → string.
Variable json_loads : string → result (list item).

(** Whether [time.sleep(seconds)] raises, as it does on a negative
    length. *)
Variable sleep_raises : Z → bool.

(** The loop [while True] of [main], followed for [n] turns at most. *)
Fixpoint main_loop (n : nat) (a : args) (w : world) : main_state :=
  match n with
  | O => Looping w
  | S n' =>
      match run_once utcnow_isoformat json_loads a w with
      | Raise e => PassRaised e
      | Ok w' =>
          if sleep_raises (interval_minutes a * 60) then SleepRaised w'
          else main_loop n' a w'
      end
  end.

(** [main()] after [parse_args] has returned [a], its loop followed for [n]
    turns at most. *)
Definition main (n : nat) (a : args) (w : world) : main_state :=
  if once a then
    match run_once utcnow_isoformat json_loads a w with
    | Ok w' => Returned w'
    | Raise e => PassRaised e
    end
  else main_loop n a w.

End Scheduler.

(** ** Worked inputs *)

(** A jobs file of two records, the second one with a title only. *)
Definition demo_items : list item :=
  [ {[ "id" := PyInt 42; "title" := PyStr "Backend Engineer";
       "company" := PyStr "Acme"; "location" := PyStr "Remote";
       "description" := PyStr "Python, SQL or Go";
       "url" := PyStr "http://x/42" ]};
    {[ "title" := PyStr "Clerk" ]} ].

Definition demo_json_loads (text : string) : result (list item) :=
  if String.eqb text "[two records]" then Ok demo_items
  else Raise JSONDecodeError.

Definition demo_clock (k : nat) : string := "T" +:+ Float.dec (Z.of_nat k).

Definition demo_world : world :=
  {| files := {[ "resume.txt" := "Python and SQL";
                 "jobs.json" := "[two records]" ]};
     clock := 0 |}.

Definition demo_args : args :=
  {| jobs_file := "jobs.json"; resume := "resume.txt";
     threshold := Float.of_int 50; interval_minutes := 60; once := true;
     log := "applications.log" |}.

Definition demo_jobs : list Job := jobs_of_data demo_items.

(** The posting of the second record: every field but the title is empty. *)
Definition clerk : Job :=
  {| job_id := ""; title := PyStr "Clerk"; company := PyStr "";
     location := PyStr ""; description := PyStr ""; url := PyStr "" |}.

(** The world after one pass over the worked inputs. *)
Definition demo_world1 : world :=
  match run_once demo_clock demo_json_loads demo_args demo_world with
  | Ok w => w
  | Raise _ => demo_world
  end.

(** A clock that reads the same instant every time. *)
Definition fixed_clock (k : nat) : string := "2024-01-01T00:00:00".

(** [time.sleep] refusing the negative lengths only. *)
Definition raises_on_negative (seconds : Z) : bool := (seconds <? 0)%Z.

(** The command line of the worked inputs without [--once], and with a
    negative interval. *)
Definition demo_loop_args : args :=
  {| jobs_file := "jobs.json"; resume := "resume.txt";
     threshold := Float.of_int 50; interval_minutes := 60; once := false;
     log := "applications.log" |}.

Definition demo_negative_args : args :=
  {| jobs_file := "jobs.json"; resume := "resume.txt";
     threshold := Float.of_int 50; interval_minutes := -5; once := false;
     log := "applications.log" |}.

(** A posting whose title holds a line break, as the JSON text
    ["Lead\nEngineer"] gives it. *)
Definition two_line_job : Job :=
  {| job_id := "7";
     title := PyStr ("Lead" +:+ String (ascii_of_nat 10) "Engineer");
     company := PyStr "Acme"; location := PyStr "Remote";
     description := PyStr "Python"; url := PyStr "http://x/7" |}.

(** A record whose description is a number, and a [json.loads] that
    returns it after a record that is in order. *)
Definition numbered_item : item :=
  {[ "id" := PyInt 8; "title" := PyStr "Analyst";
     "description" := PyInt 5 ]}.

Definition numbered_json_loads (text : string) : result (list item) :=
  Ok (demo_items ++ [numbered_item]).

(** ** Proof tooling *)

(** An order between fractions as the order between their cross products. *)
Ltac Q_to_Z_goal :=
  unfold Qle, Qlt, Qeq, Qminus, Qplus, Qopp, Qmult, inject_Z;
  cbn [Qnum Qden]; repeat rewrite Pos.mul_1_l;
  repeat rewrite Pos2Z.inj_mul.

(** * Properties *)

(** ** The scan finds the maximal runs *)

Module RegexFacts.
Import Regex.

Lemma letter_is_class c : is_letter c = true → is_class c = true.
Proof. unfold is_class. intros ->. reflexivity. Qed.

Lemma letter_at_class_at l k : letter_at l k = true → class_at l k = true.
Proof.
  unfold letter_at, class_at. destruct (l !! k); [apply letter_is_class | done].
Qed.

Lemma class_at_lt_length l k : class_at l k = true → k < length l.
Proof.
  unfold class_at. destruct (l !! k) eqn:E; [| done].
  intros _. eapply lookup_lt_Some, E.
Qed.

Lemma drop_cons_inv (l : list ascii) pos c r :
  drop pos l = c :: r → l !! pos = Some c ∧ drop (S pos) l = r.
Proof.
  intros H. split.
  - rewrite <- (Nat.add_0_r pos), <- lookup_drop, H. reflexivity.
  - replace (S pos) with (pos + 1) by lia. rewrite <- drop_drop, H. reflexivity.
Qed.

Lemma drop_nil_length (l : list ascii) pos :
  drop pos l = [] → pos ≤ length l → pos = length l.
Proof.
  intros H Hle. apply (f_equal length) in H. rewrite length_drop in H.
  simpl in H. lia.
Qed.

Lemma elem_of_emit start stop i j :
  (i, j) ∈ emit start stop ↔ i = start ∧ j = stop ∧ start + 2 ≤ stop.
Proof.
  unfold emit. destruct (2 <=? stop - start) eqn:E.
  - apply Nat.leb_le in E. rewrite list_elem_of_singleton. split.
    + intros [= -> ->]. lia.
    + intros (-> & -> & _). reflexivity.
  - apply Nat.leb_gt in E. split; [intros H; inversion H | lia].
Qed.

(** A maximal run is one delimited on both sides. *)
Lemma maximal_delimited l i j : maximal l i j ↔ delimited l i j.
Proof.
  split.
  - intros [Hm Hmax]. split; [exact Hm |].
    destruct Hm as (Hlen & Hj & Hlet & Hcls). split.
    + destruct (class_at l j) eqn:E; [| reflexivity]. exfalso.
      assert (matches l i (S j)) as Hm'.
      { repeat split; [lia | apply class_at_lt_length in E; lia | exact Hlet |].
        intros k Hk. destruct (decide (k = j)) as [-> |]; [exact E |].
        apply Hcls. lia. }
      destruct (Hmax i (S j)) as [_ ?]; [lia | lia | exact Hm' | lia].
    + intros i' Hi' Hlet' Hall.
      assert (matches l i' j) as Hm'.
      { repeat split; [lia | exact Hj | exact Hlet' |].
        intros k Hk. destruct (decide (k < i)); [apply Hall; lia |].
        destruct (decide (k = i)) as [-> |];
          [apply letter_at_class_at, Hlet | apply Hcls; lia]. }
      destruct (Hmax i' j) as [? _]; [lia | lia | exact Hm' | lia].
  - intros (Hm & Hright & Hleft). split; [exact Hm |].
    intros i' j' Hi' Hj' (Hlen' & Hjl' & Hlet' & Hcls').
    destruct Hm as (Hlen & Hj & Hlet & Hcls).
    assert (i' = i) as ->.
    { destruct (decide (i' = i)); [done |]. exfalso.
      apply (Hleft i'); [lia | exact Hlet' |]. intros k Hk. apply Hcls'. lia. }
    split; [reflexivity |].
    destruct (decide (j' = j)); [done |]. exfalso.
    rewrite Hcls' in Hright; [done | lia].
Qed.

(** The invariant of the two states of the scan: [scan] stands at a position
    no earlier letter reaches, [run] inside a candidate that began at
    [start]. *)
Lemma scan_run_delimited (l : list ascii) : ∀ s,
  (∀ pos, drop pos l = s → pos ≤ length l → left_blocked l pos →
     ∀ i j, (i, j) ∈ scan pos s ↔ pos ≤ i ∧ delimited l i j)
  ∧ (∀ start pos, drop pos l = s → pos ≤ length l → start < pos →
       letter_at l start = true →
       (∀ k, start < k < pos → class_at l k = true) →
       left_blocked l start →
       ∀ i j, (i, j) ∈ run start pos s ↔ start ≤ i ∧ delimited l i j).
Proof.
  induction s as [| c r [IHscan IHrun]].
  - split.
    + intros pos Hd Hle _ i j. apply drop_nil_length in Hd; [| exact Hle].
      simpl. split; [intros H; inversion H |].
      intros (Hi & (Hlen & Hj & _) & _). lia.
    + intros start pos Hd Hle Hlt Hlet Hcls Hblk i j.
      apply drop_nil_length in Hd; [| exact Hle]. subst pos.
      simpl. rewrite elem_of_emit. split.
      * intros (-> & -> & Hlen). split; [lia |].
        repeat split; [lia | lia | exact Hlet | exact Hcls | | exact Hblk].
        unfold class_at. rewrite lookup_ge_None_2; [done | lia].
      * intros (Hi & (Hlen & Hj & Hlet' & Hcls') & Hright & Hleft).
        assert (i = start) as ->.
        { destruct (decide (i = start)); [done |]. exfalso.
          apply (Hleft start); [lia | exact Hlet |].
          intros k Hk. apply Hcls. lia. }
        assert (j = length l) as ->.
        { destruct (decide (j = length l)); [done |]. exfalso.
          rewrite Hcls in Hright; [done | lia]. }
        lia.
  - split.
    + intros pos Hd Hle Hblk i j.
      destruct (drop_cons_inv _ _ _ _ Hd) as [Hc Hd'].
      assert (S pos ≤ length l) as Hle' by (apply lookup_lt_Some in Hc; lia).
      simpl. destruct (is_letter c) eqn:Ec.
      * apply (IHrun pos (S pos) Hd' Hle'); [lia | | | exact Hblk].
        -- unfold letter_at. rewrite Hc. exact Ec.
        -- intros k Hk. lia.
      * rewrite (IHscan (S pos) Hd' Hle').
        -- split; [intros [? ?]; split; [lia | done] |].
           intros [Hi Hdel]. split; [| exact Hdel].
           destruct (decide (i = pos)) as [-> |]; [| lia]. exfalso.
           destruct Hdel as ((_ & _ & Hlet & _) & _).
           unfold letter_at in Hlet. rewrite Hc, Ec in Hlet. done.
        -- intros i' Hi' Hlet' Hall.
           destruct (decide (i' = pos)) as [-> |].
           ++ unfold letter_at in Hlet'. rewrite Hc, Ec in Hlet'. done.
           ++ apply (Hblk i'); [lia | exact Hlet' |].
              intros k Hk. apply Hall. lia.
    + intros start pos Hd Hle Hlt Hlet Hcls Hblk i j.
      destruct (drop_cons_inv _ _ _ _ Hd) as [Hc Hd'].
      assert (S pos ≤ length l) as Hle' by (apply lookup_lt_Some in Hc; lia).
      simpl. destruct (is_class c) eqn:Ec.
      * apply (IHrun start (S pos) Hd' Hle'); [lia | exact Hlet | | exact Hblk].
        intros k Hk. destruct (decide (k = pos)) as [-> |]; [| apply Hcls; lia].
        unfold class_at. rewrite Hc. exact Ec.
      * assert (class_at l pos = false) as Hpos
          by (unfold class_at; rewrite Hc; exact Ec).
        assert (left_blocked l (S pos)) as Hblk'.
        { intros i' Hi' Hlet' Hall.
          destruct (decide (i' = pos)) as [-> |].
          - apply letter_at_class_at in Hlet'. congruence.
          - destruct (decide (start ≤ i')).
            + rewrite Hall in Hpos; [done | lia].
            + apply (Hblk i'); [lia | exact Hlet' |].
              intros k Hk. apply Hall. lia. }
        rewrite elem_of_app, elem_of_emit,
          (IHscan (S pos) Hd' Hle' Hblk' i j).
        split.
        -- intros [(-> & -> & Hlen) | [Hi Hdel]]; [| split; [lia | done]].
           split; [lia |].
           repeat split; [lia | lia | exact Hlet | exact Hcls | exact Hpos
                         | exact Hblk].
        -- intros [Hi Hdel].
           destruct (decide (pos < i)); [right; split; [lia | done] |].
           left. destruct Hdel as ((Hlen & Hj & Hlet' & Hcls') & Hright & Hleft).
           assert (i = start) as ->.
           { destruct (decide (i = start)); [done |]. exfalso.
             destruct (decide (i = pos)) as [-> |].
             - apply letter_at_class_at in Hlet'. congruence.
             - apply (Hleft start); [lia | exact Hlet |].
               intros k Hk. apply Hcls. lia. }
           assert (j = pos) as ->.
           { destruct (decide (j = pos)); [done |]. exfalso.
             destruct (decide (j < pos)).
             - rewrite Hcls in Hright; [done | lia].
             - rewrite Hcls' in Hpos; [done | lia]. }
           lia.
Qed.

Lemma scan_maximal (l : list ascii) i j :
  (i, j) ∈ scan 0 l ↔ maximal l i j.
Proof.
  rewrite maximal_delimited.
  destruct (scan_run_delimited l l) as [H _].
  rewrite (H 0); [| reflexivity | lia | intros i' Hi'; lia].
  split; [intros [_ ?]; done | intros ?; split; [lia | done]].
Qed.

Lemma Forall_emit (P : span → Prop) start stop :
  (start + 2 ≤ stop → P (start, stop)) → Forall P (emit start stop).
Proof.
  intros H. unfold emit. destruct (2 <=? stop - start) eqn:E; [| constructor].
  apply Nat.leb_le in E. repeat constructor. apply H. lia.
Qed.

(** The spans come out in text order, each at least two characters long. *)
Lemma scan_run_sorted : ∀ s,
  (∀ pos, StronglySorted apart (scan pos s)
          ∧ Forall (λ sp, pos ≤ sp.1 ∧ sp.1 + 2 ≤ sp.2) (scan pos s))
  ∧ (∀ start pos, start < pos →
       StronglySorted apart (run start pos s)
       ∧ Forall (λ sp, start ≤ sp.1 ∧ sp.1 + 2 ≤ sp.2) (run start pos s)).
Proof.
  induction s as [| c r [IHscan IHrun]].
  - split.
    + intros pos. simpl. split; constructor.
    + intros start pos Hlt. simpl. split.
      * unfold emit. destruct (2 <=? pos - start); repeat constructor.
      * apply Forall_emit. simpl. lia.
  - split.
    + intros pos. simpl. destruct (is_letter c).
      * apply IHrun. lia.
      * destruct (IHscan (S pos)) as [Hs Hf]. split; [exact Hs |].
        eapply Forall_impl; [exact Hf |]. simpl. intros sp. lia.
    + intros start pos Hlt. simpl. destruct (is_class c).
      * apply IHrun. lia.
      * destruct (IHscan (S pos)) as [Hs Hf]. split.
        -- apply StronglySorted_app. split; [| split; [| exact Hs]].
           ++ intros a b Ha Hb. rewrite Forall_forall in Hf.
              destruct a as [a1 a2]. apply elem_of_emit in Ha as (-> & -> & _).
              specialize (Hf b Hb). unfold apart. simpl in *. lia.
           ++ unfold emit. destruct (2 <=? pos - start); repeat constructor.
        -- apply Forall_app. split.
           ++ apply Forall_emit. simpl. lia.
           ++ eapply Forall_impl; [exact Hf |]. simpl. intros sp. lia.
Qed.

Lemma scan_sorted (l : list ascii) : StronglySorted apart (scan 0 l).
Proof. apply scan_run_sorted. Qed.

Lemma length_string_of_list_ascii (l : list ascii) :
  String.length (string_of_list_ascii l) = length l.
Proof. induction l as [| c l IH]; simpl; [reflexivity | by rewrite IH]. Qed.

Lemma length_slice (l : list ascii) i j :
  j ≤ length l → length (slice l (i, j)) = j - i.
Proof.
  intros H. unfold slice. simpl. rewrite length_take, length_drop. lia.
Qed.

Lemma not_class_not_letter c : is_class c = false → is_letter c = false.
Proof.
  intros H. destruct (is_letter c) eqn:E; [| reflexivity].
  apply letter_is_class in E. congruence.
Qed.

(** A character outside the class ends every match: the scan of a text cut
    by one is the scan of the part before it followed by that of the part
    after it. *)
Lemma scan_run_app (sep : ascii) (l2 : list ascii) :
  is_class sep = false →
  ∀ l1,
    (∀ pos, scan pos (l1 ++ sep :: l2)
            = scan pos l1 ++ scan (pos + length l1 + 1) l2)
    ∧ (∀ start pos, run start pos (l1 ++ sep :: l2)
                    = run start pos l1 ++ scan (pos + length l1 + 1) l2).
Proof.
  intros Hsep. pose proof (not_class_not_letter _ Hsep) as Hlet.
  induction l1 as [| c l1 [IHscan IHrun]]; split; intros; simpl.
  - rewrite Hlet. f_equal. lia.
  - rewrite Hsep. do 2 f_equal. lia.
  - destruct (is_letter c).
    + rewrite IHrun. do 2 f_equal. lia.
    + rewrite IHscan. do 2 f_equal. lia.
  - destruct (is_class c).
    + rewrite IHrun. do 2 f_equal. lia.
    + rewrite IHscan, <- app_assoc. do 3 f_equal. lia.
Qed.

Lemma emit_shift d start pos :
  emit (d + start) (d + pos) = map (shift d) (emit start pos).
Proof.
  unfold emit. replace (d + pos - (d + start)) with (pos - start) by lia.
  by destruct (2 <=? pos - start).
Qed.

Lemma scan_run_shift (d : nat) (l : list ascii) :
  (∀ pos, scan (d + pos) l = map (shift d) (scan pos l))
  ∧ (∀ start pos, run (d + start) (d + pos) l
                  = map (shift d) (run start pos l)).
Proof.
  induction l as [| c l [IHscan IHrun]]; split; intros; simpl.
  - reflexivity.
  - apply emit_shift.
  - destruct (is_letter c).
    + rewrite <- IHrun. f_equal. lia.
    + rewrite <- IHscan. f_equal. lia.
  - destruct (is_class c).
    + rewrite <- IHrun. f_equal. lia.
    + rewrite map_app, <- emit_shift, <- IHscan. do 2 f_equal. lia.
Qed.

Lemma slice_app_l (l1 l2 : list ascii) (sp : span) :
  sp.2 ≤ length l1 → slice (l1 ++ l2) sp = slice l1 sp.
Proof.
  destruct sp as [i j]. unfold slice. simpl. intros Hj.
  destruct (decide (i ≤ length l1)) as [Hi | Hi].
  - rewrite drop_app_le by exact Hi.
    rewrite take_app_le; [reflexivity |]. rewrite length_drop. lia.
  - replace (j - i) with 0 by lia. reflexivity.
Qed.

Lemma slice_app_r (l1 l2 : list ascii) (sp : span) :
  slice (l1 ++ l2) (shift (length l1) sp) = slice l2 sp.
Proof.
  destruct sp as [i j]. unfold slice, shift. simpl.
  rewrite drop_app_add.
  replace (length l1 + j - (length l1 + i)) with (j - i) by lia. reflexivity.
Qed.

Lemma scan_bound (l : list ascii) :
  Forall (λ sp, sp.2 ≤ length l) (scan 0 l).
Proof.
  apply Forall_forall. intros [i j] Hin.
  apply scan_maximal in Hin as [(_ & Hj & _) _]. exact Hj.
Qed.

End RegexFacts.

(** ** Text normalizer: the tokens *)

Lemma length_lower (w : list ascii) : String.length (lower w) = length w.
Proof.
  unfold lower. rewrite RegexFacts.length_string_of_list_ascii.
  apply length_map.
Qed.

Lemma elem_of_normalize_words (text w : string) :
  w ∈ normalize_words text ↔
  ∃ i j, Regex.maximal (list_ascii_of_string text) i j
         ∧ w = lower (group0 text (i, j)).
Proof.
  unfold normalize_words, finditer. rewrite list_elem_of_fmap. split.
  - intros ([i j] & -> & Hin). exists i, j.
    split; [apply RegexFacts.scan_maximal, Hin | reflexivity].
  - intros (i & j & Hmax & ->). exists (i, j).
    split; [reflexivity | apply RegexFacts.scan_maximal, Hmax].
Qed.

Lemma normalize_words_length (text : string) :
  Forall (λ w, 2 ≤ String.length w) (normalize_words text).
Proof.
  apply Forall_forall. intros w Hw.
  apply elem_of_normalize_words in Hw as (i & j & [Hm _] & ->).
  destruct Hm as (Hlen & Hj & _).
  rewrite length_lower. unfold group0.
  rewrite RegexFacts.length_slice; [lia | exact Hj].
Qed.

(** C3. The normalizer returns, in text order, the lowercased maximal runs
    of the text that match "an ASCII letter followed by one or more of
    letters, digits, [+], [.], [#], [-]": a span is among the matches exactly
    when it is such a run that no other run contains, the matches come in
    increasing position with a character between two of them, and the tokens
    are their characters lowered.  "c++" and "c#" are single tokens.  The
    normalizer is a function of the text alone. *)
Theorem normalize_words_maximal_runs (text : string) :
  let l := list_ascii_of_string text in
  (∀ i j, (i, j) ∈ finditer text ↔ Regex.maximal l i j)
  ∧ StronglySorted Regex.apart (finditer text)
  ∧ normalize_words text
    = map (λ m, string_of_list_ascii (map lower_ascii (Regex.slice l m)))
          (finditer text)
  ∧ normalize_words "Senior C++ / C# dev, Node.js & Go"
    = ["senior"; "c++"; "c#"; "dev"; "node.js"; "go"].
Proof.
  intros l. split; [| split; [| split]].
  - intros i j. apply RegexFacts.scan_maximal.
  - apply RegexFacts.scan_sorted.
  - reflexivity.
  - vm_compute. reflexivity.
Qed.

(** C10. Every token has at least two characters, so a word of a single
    character is never a token, and neither the tokens of the job description
    (the denominator of the score) nor those shared with the resume (the
    numerator) include one. *)
Theorem normalize_words_at_least_two (text : string) :
  Forall (λ w, 2 ≤ String.length w) (normalize_words text)
  ∧ (∀ c : ascii, String c "" ∉ normalize_words text)
  ∧ (∀ resume_text : string,
       set_Forall (λ w, 2 ≤ String.length w) (token_set text)
       ∧ set_Forall (λ w, 2 ≤ String.length w)
                    (token_set resume_text ∩ token_set text))
  ∧ normalize_words "I am a C dev" = ["am"; "dev"].
Proof.
  pose proof (normalize_words_length text) as H.
  rewrite Forall_forall in H.
  split; [apply Forall_forall, H | split; [| split]].
  - intros c Hc. apply H in Hc. simpl in Hc. lia.
  - intros resume_text.
    assert (set_Forall (λ w, 2 ≤ String.length w) (token_set text)) as Hj.
    { intros w Hw. apply H. unfold token_set in Hw.
      apply elem_of_list_to_set in Hw. exact Hw. }
    split; [exact Hj |]. intros w Hw. apply Hj.
    apply elem_of_intersection in Hw as [_ Hw]. exact Hw.
  - vm_compute. reflexivity.
Qed.

(** ** Floats: bounds through the three roundings of the score *)

Module FloatFacts.
Import Float.
Local Open Scope Z_scope.

Lemma pow2_pos e : 0 < pow2 e.
Proof. unfold pow2. apply Z.pow_pos_nonneg; lia. Qed.

Lemma pow2_nonpos e : e ≤ 0 → pow2 e = 1.
Proof. intros H. unfold pow2. rewrite Z.max_l by lia. reflexivity. Qed.

Lemma pow2_nonneg e : 0 ≤ e → pow2 e = 2 ^ e.
Proof. intros H. unfold pow2. rewrite Z.max_r by lia. reflexivity. Qed.

Lemma round_half_even_nonneg a b : 0 ≤ a → 0 < b → 0 ≤ round_half_even a b.
Proof.
  intros Ha Hb. unfold round_half_even.
  pose proof (Z.div_pos a b Ha Hb).
  destruct (2 * (a mod b) ?= b); [destruct (Z.even (a / b)) | |]; lia.
Qed.

(** Rounding to an integer does not pass an integer bound. *)
Lemma round_half_even_le a b M : 0 < b → a ≤ M * b → round_half_even a b ≤ M.
Proof.
  intros Hb Ha. unfold round_half_even.
  pose proof (Z.div_mod a b ltac:(lia)) as Hdm.
  pose proof (Z.mod_pos_bound a b Hb) as Hmod.
  assert (a / b ≤ M) as Hq by (apply Z.div_le_upper_bound; lia).
  destruct (Z.eq_dec (a / b) M) as [E | NE].
  - assert (a mod b = 0) as -> by nia.
    assert ((2 * 0 ?= b) = Lt) as -> by (apply Z.compare_lt_iff; lia). lia.
  - destruct (2 * (a mod b) ?= b); [destruct (Z.even (a / b)) | |]; lia.
Qed.

Lemma floor_log2_lower a b :
  0 < a → 0 < b →
  b * pow2 (floor_log2 a b) ≤ a * pow2 (- floor_log2 a b).
Proof.
  intros Ha Hb. unfold floor_log2.
  set (d := Z.log2 a - Z.log2 b).
  destruct (b * pow2 d <=? a * pow2 (- d)) eqn:E; [apply Z.leb_le, E |].
  pose proof (Z.log2_spec a Ha) as [Ha1 Ha2].
  pose proof (Z.log2_spec b Hb) as [Hb1 Hb2].
  pose proof (Z.log2_nonneg a). pose proof (Z.log2_nonneg b).
  destruct (Z_le_gt_dec 1 d) as [Hd | Hd].
  - rewrite (pow2_nonneg (d - 1)), (pow2_nonpos (- (d - 1))) by lia.
    assert (2 ^ Z.succ (Z.log2 b) * 2 ^ (d - 1) = 2 ^ Z.log2 a) as Hp.
    { rewrite <- Z.pow_add_r by lia. f_equal. unfold d. lia. }
    assert (0 < 2 ^ (d - 1)) by (apply Z.pow_pos_nonneg; lia). nia.
  - rewrite (pow2_nonpos (d - 1)), (pow2_nonneg (- (d - 1))) by lia.
    assert (2 ^ Z.log2 a * 2 ^ (- (d - 1)) = 2 ^ Z.succ (Z.log2 b)) as Hp.
    { rewrite <- Z.pow_add_r by lia. f_equal. unfold d. lia. }
    assert (0 < 2 ^ (- (d - 1))) by (apply Z.pow_pos_nonneg; lia). nia.
Qed.

(** Rounding to nearest keeps a rational below an integer bound that is
    itself a double. *)
Lemma RN_within N a b :
  0 ≤ a → 0 < b → 0 ≤ N < 2 ^ 52 → a ≤ N * b → within N (RN false a b).
Proof.
  intros Ha Hb HN Hab. unfold RN.
  destruct (a =? 0) eqn:Ea; [left; reflexivity |].
  apply Z.eqb_neq in Ea.
  pose proof (floor_log2_lower a b ltac:(lia) Hb) as Hfl.
  set (fl := floor_log2 a b) in *.
  assert (fl < 52) as Hfl52.
  { destruct (Z_lt_ge_dec fl 52) as [? | Hge]; [assumption | exfalso].
    rewrite (pow2_nonneg fl), (pow2_nonpos (- fl)) in Hfl by lia.
    assert (2 ^ 52 ≤ 2 ^ fl) by (apply Z.pow_le_mono_r; lia). nia. }
  set (e := Z.max (fl - 52) (-1074)).
  assert (e ≤ -1) as He by lia.
  rewrite (pow2_nonneg (- e)), (pow2_nonpos e) by lia.
  assert (0 < 2 ^ (- e)) as Hpe by (apply Z.pow_pos_nonneg; lia).
  set (k := round_half_even (a * 2 ^ (- e)) (b * 1)).
  assert (0 ≤ k) as Hk0 by (apply round_half_even_nonneg; nia).
  assert (k ≤ N * 2 ^ (- e)) as Hk by (apply round_half_even_le; nia).
  destruct (k =? 2 ^ 53) eqn:Ek.
  - apply Z.eqb_eq in Ek.
    replace (2 ^ 52 =? 0) with false by reflexivity.
    replace (971 <? e + 1) with false by (symmetry; apply Z.ltb_ge; lia).
    right. exists (Z.to_pos (2 ^ 52)), (e + 1).
    split; [reflexivity | split; [lia |]].
    assert (2 ^ (- e) = 2 * 2 ^ (- (e + 1))) as Hsplit.
    { rewrite <- (Z.pow_succ_r 2) by lia. f_equal. lia. }
    replace (Z.pos (Z.to_pos (2 ^ 52))) with (2 ^ 52) by reflexivity.
    change (2 ^ 53) with (2 * 2 ^ 52) in Ek. nia.
  - destruct (k =? 0) eqn:Ek0; [left; reflexivity |].
    apply Z.eqb_neq in Ek0.
    replace (971 <? e) with false by (symmetry; apply Z.ltb_ge; lia).
    right. exists (Z.to_pos k), e.
    split; [reflexivity | split; [lia |]].
    rewrite Z2Pos.id by lia. exact Hk.
Qed.

Lemma of_int_100 : of_int 100 = hundred.
Proof. vm_compute. reflexivity. Qed.

Lemma int_truediv_within (a b : nat) :
  (a ≤ b)%nat → (0 < b)%nat → within 1 (int_truediv a b).
Proof. intros Hab Hb. unfold int_truediv. apply RN_within; lia. Qed.

Lemma mul_hundred_within x : within 1 x → within 100 (mul x hundred).
Proof.
  intros [-> | (m & e & -> & He & Hm)]; [left; reflexivity |].
  unfold hundred, mul. simpl xorb.
  rewrite (pow2_nonpos (e + -46)), (pow2_nonneg (- (e + -46))) by lia.
  assert (0 < 2 ^ (- e)) by (apply Z.pow_pos_nonneg; lia).
  assert (2 ^ (- (e + -46)) = 2 ^ 46 * 2 ^ (- e)) as Hsplit.
  { rewrite <- Z.pow_add_r by lia. f_equal. lia. }
  apply RN_within; [lia | apply Z.pow_pos_nonneg; lia | lia |].
  rewrite Hsplit.
  change (Z.pos 7036874417766400) with (100 * 2 ^ 46).
  assert (0 < 2 ^ 46) by reflexivity. nia.
Qed.

Lemma hundredths_nonneg m e : 0 ≤ hundredths m e.
Proof.
  unfold hundredths. pose proof (pow2_pos e). pose proof (pow2_pos (- e)).
  apply round_half_even_nonneg; nia.
Qed.

Lemma round2_within x : within 100 x → within 100 (round2 x).
Proof.
  intros [-> | (m & e & -> & He & Hm)]; [left; reflexivity |].
  unfold round2.
  apply RN_within; [apply hundredths_nonneg | lia | lia |].
  unfold hundredths. rewrite (pow2_nonpos e), (pow2_nonneg (- e)) by lia.
  assert (0 < 2 ^ (- e)) by (apply Z.pow_pos_nonneg; lia).
  apply round_half_even_le; [assumption | nia].
Qed.

Lemma within_le x :
  within 100 x → le zero x = true ∧ le x hundred = true.
Proof.
  intros [-> | (m & e & -> & He & Hm)]; [split; reflexivity |].
  assert (0 < 2 ^ (- e)) by (apply Z.pow_pos_nonneg; lia).
  assert (to_Q hundred == 100)%Q as Hh by reflexivity.
  unfold le, zero, hundred. fold hundred.
  rewrite !Qle_bool_iff, Hh. unfold to_Q, Qle. cbn [Qnum Qden].
  rewrite (pow2_nonpos e), (pow2_nonneg (- e)), Z2Pos.id by lia.
  split; lia.
Qed.

(** The order on floats is transitive. *)
Lemma le_trans x y z : le x y = true → le y z = true → le x z = true.
Proof.
  destruct x as [[] | [] | | [] ? ?], y as [[] | [] | | [] ? ?],
           z as [[] | [] | | [] ? ?];
    unfold le; try done;
    rewrite !Qle_bool_iff; apply Qle_trans.
Qed.

End FloatFacts.

(** ** Floats: how far the three roundings are from the exact quotient *)

Module FloatError.
Import Float.
Import FloatFacts.
Local Open Scope Z_scope.

Lemma round_half_even_error a b :
  0 < b → 2 * Z.abs (round_half_even a b * b - a) ≤ b.
Proof.
  intros Hb. unfold round_half_even.
  pose proof (Z.div_mod a b ltac:(lia)) as Hdm.
  pose proof (Z.mod_pos_bound a b Hb) as Hmod.
  destruct (Z.compare_spec (2 * (a mod b)) b) as [E | E | E];
    [destruct (Z.even (a / b)) | |]; nia.
Qed.

Lemma round_half_even_error_strict a b :
  0 < b → 2 * (a mod b) ≠ b →
  2 * Z.abs (round_half_even a b * b - a) ≤ b - 1.
Proof.
  intros Hb Hne. unfold round_half_even.
  pose proof (Z.div_mod a b ltac:(lia)) as Hdm.
  pose proof (Z.mod_pos_bound a b Hb) as Hmod.
  destruct (Z.compare_spec (2 * (a mod b)) b) as [E | E | E];
    [done | nia | nia].
Qed.

Lemma round_half_even_unique a b j :
  0 < b → 2 * Z.abs (j * b - a) < b → round_half_even a b = j.
Proof.
  intros Hb Hj. unfold round_half_even.
  pose proof (Z.div_mod a b ltac:(lia)) as Hdm.
  pose proof (Z.mod_pos_bound a b Hb) as Hmod.
  assert (j = a / b ∨ j = a / b + 1) as Hcase by nia.
  destruct (Z.compare_spec (2 * (a mod b)) b) as [E | E | E];
    [destruct (Z.even (a / b)) | |]; nia.
Qed.

Lemma round_half_even_floor a b :
  round_half_even a b = a / b ∨ round_half_even a b = a / b + 1.
Proof.
  unfold round_half_even.
  destruct (2 * (a mod b) ?= b); [destruct (Z.even (a / b)) | |]; auto.
Qed.

Lemma floor_log2_le a b j :
  0 < a → 0 < b → 0 ≤ j → a ≤ 2 ^ j * b → floor_log2 a b ≤ j.
Proof.
  intros Ha Hb Hj Hab.
  pose proof (floor_log2_lower a b Ha Hb) as Hfl.
  set (fl := floor_log2 a b) in *.
  destruct (Z_le_gt_dec fl j) as [? | Hgt]; [assumption | exfalso].
  rewrite (pow2_nonneg fl), (pow2_nonpos (- fl)) in Hfl by lia.
  assert (2 * 2 ^ j ≤ 2 ^ fl).
  { rewrite <- Z.pow_succ_r by lia. apply Z.pow_le_mono_r; lia. }
  assert (0 < 2 ^ j) by (apply Z.pow_pos_nonneg; lia). nia.
Qed.

Lemma RN_close a b j :
  0 ≤ a → 0 < b → 0 ≤ j ≤ 51 → a ≤ 2 ^ j * b →
  (RN false a b = S754_zero false ∧ a * 2 ^ (53 - j) ≤ b)
  ∨ ∃ M e, RN false a b = S754_finite false M e ∧ e ≤ 0
           ∧ Z.abs (Zpos M * b - a * 2 ^ (- e)) * 2 ^ (53 - j) ≤ b * 2 ^ (- e).
Proof.
  intros Ha Hb Hj Hab. unfold RN.
  destruct (a =? 0) eqn:Ea.
  { apply Z.eqb_eq in Ea. left. split; [reflexivity | lia]. }
  apply Z.eqb_neq in Ea.
  pose proof (floor_log2_le a b j ltac:(lia) Hb ltac:(lia) Hab) as Hfl.
  set (fl := floor_log2 a b) in *. clearbody fl.
  set (e := Z.max (fl - 52) (-1074)).
  assert (e ≤ j - 52) as He by lia. clearbody e.
  rewrite (pow2_nonneg (- e)), (pow2_nonpos e) by lia.
  set (T' := 2 ^ (51 - j)).
  set (U := 2 ^ (- e - 52 + j)).
  assert (0 < T') as HT by (apply Z.pow_pos_nonneg; lia).
  assert (0 < U) as HU by (apply Z.pow_pos_nonneg; lia).
  assert (2 ^ (53 - j) = 4 * T') as HE.
  { unfold T'. replace (53 - j) with (Z.succ (Z.succ (51 - j))) by lia.
    rewrite !Z.pow_succ_r by lia. lia. }
  assert (2 ^ (- e) = 2 * T' * U) as HP.
  { unfold T', U. replace (- e) with (1 + (51 - j) + (- e - 52 + j)) at 1 by lia.
    rewrite !Z.pow_add_r by lia. reflexivity. }
  rewrite HE, HP.
  pose proof (round_half_even_error (a * (2 * T' * U)) (b * 1) ltac:(lia))
    as Herr.
  pose proof (round_half_even_nonneg (a * (2 * T' * U)) (b * 1)
                ltac:(nia) ltac:(lia)) as Hk0.
  set (k := round_half_even (a * (2 * T' * U)) (b * 1)) in *. clearbody k.
  destruct (k =? 2 ^ 53) eqn:Ek.
  - apply Z.eqb_eq in Ek.
    replace (2 ^ 52 =? 0) with false by reflexivity.
    replace (971 <? e + 1) with false by (symmetry; apply Z.ltb_ge; lia).
    right. exists (Z.to_pos (2 ^ 52)), (e + 1).
    split; [reflexivity | split; [lia |]].
    replace (Z.pos (Z.to_pos (2 ^ 52))) with (2 ^ 52) by reflexivity.
    assert (2 ^ (- (e + 1)) = T' * U) as HP'.
    { unfold T', U. rewrite <- Z.pow_add_r by lia. f_equal. lia. }
    rewrite HP'. change (2 ^ 53) with (2 * 2 ^ 52) in Ek. subst k.
    nia.
  - destruct (k =? 0) eqn:Ek0.
    + apply Z.eqb_eq in Ek0. subst k. left. split; [reflexivity |]. nia.
    + apply Z.eqb_neq in Ek0.
      replace (971 <? e) with false by (symmetry; apply Z.ltb_ge; lia).
      right. exists (Z.to_pos k), e.
      split; [reflexivity | split; [lia |]].
      rewrite Z2Pos.id, HP by lia. nia.
Qed.

Local Open Scope Q_scope.

(** Closeness of two fractions, from the integers to the rationals. *)
Lemma Qfrac_close (P a D b E : Z) :
  (0 < D)%Z → (0 < b)%Z → (0 < E)%Z →
  (Z.abs (P * b - a * D) * E ≤ b * D)%Z →
  (P # Z.to_pos D) - (a # Z.to_pos b) <= 1 # Z.to_pos E
  ∧ (a # Z.to_pos b) - (P # Z.to_pos D) <= 1 # Z.to_pos E.
Proof.
  intros HD Hb HE H.
  unfold Qle, Qminus, Qplus, Qopp. cbn [Qnum Qden].
  rewrite !Pos2Z.inj_mul, !Z2Pos.id by lia. split; nia.
Qed.

Lemma to_Q_finite (M : positive) (e : Z) :
  (e ≤ 0)%Z →
  to_Q (S754_finite false M e) = (Zpos M # Z.to_pos (2 ^ (- e))).
Proof.
  intros He. unfold to_Q.
  rewrite (pow2_nonpos e), (pow2_nonneg (- e)), Z.mul_1_r by lia. reflexivity.
Qed.

Lemma RN_close_Q a b j :
  (0 ≤ a)%Z → (0 < b)%Z → (0 ≤ j ≤ 51)%Z → (a ≤ 2 ^ j * b)%Z →
  to_Q (RN false a b) - (a # Z.to_pos b) <= 1 # Z.to_pos (2 ^ (53 - j))
  ∧ (a # Z.to_pos b) - to_Q (RN false a b) <= 1 # Z.to_pos (2 ^ (53 - j)).
Proof.
  intros Ha Hb Hj Hab.
  assert (0 < 2 ^ (53 - j))%Z as HE by (apply Z.pow_pos_nonneg; lia).
  destruct (RN_close a b j Ha Hb Hj Hab)
    as [[-> Hz] | (M & e & -> & He & Hclose)].
  - change (to_Q (S754_zero false)) with (0 # Z.to_pos 1).
    apply Qfrac_close; lia.
  - assert (0 < 2 ^ (- e))%Z by (apply Z.pow_pos_nonneg; lia).
    rewrite to_Q_finite by exact He.
    apply Qfrac_close; assumption.
Qed.

(** The product by 100 of a double in [0, 1] is within [2 ^ -46] of the
    exact product. *)
Lemma mul_hundred_close x :
  within 1 x →
  to_Q (mul x hundred) - 100 * to_Q x <= 1 # Z.to_pos (2 ^ 46)
  ∧ 100 * to_Q x - to_Q (mul x hundred) <= 1 # Z.to_pos (2 ^ 46).
Proof.
  intros [-> | (M & e & -> & He & HM)]; [split; discriminate |].
  unfold hundred, mul. simpl xorb.
  rewrite (pow2_nonpos (e + -46)), (pow2_nonneg (- (e + -46))) by lia.
  assert (0 < 2 ^ (- e))%Z as HD by (apply Z.pow_pos_nonneg; lia).
  assert (2 ^ (- (e + -46)) = 2 ^ 46 * 2 ^ (- e))%Z as Hsplit.
  { rewrite <- Z.pow_add_r by lia. f_equal. lia. }
  assert (0 < 2 ^ 46)%Z as H46 by reflexivity.
  pose proof (RN_close_Q (Z.pos M * 7036874417766400 * 1)
                         (2 ^ (- (e + -46))) 7) as Hclose.
  change (53 - 7)%Z with 46%Z in Hclose.
  destruct Hclose as [H1 H2];
    [lia | apply Z.pow_pos_nonneg; lia | lia | |].
  { rewrite Hsplit. change 7036874417766400%Z with (100 * 2 ^ 46)%Z.
    change (2 ^ 7)%Z with 128%Z. nia. }
  assert (Z.pos M * 7036874417766400 * 1 # Z.to_pos (2 ^ (- (e + -46)))
          == 100 * to_Q (S754_finite false M e)) as Heq.
  { rewrite to_Q_finite by exact He. unfold Qeq, Qmult. cbn [Qnum Qden].
    rewrite Hsplit, Pos.mul_1_l, !Z2Pos.id by nia.
    change 7036874417766400%Z with (100 * 2 ^ 46)%Z. ring. }
  rewrite Heq in H1, H2. split; assumption.
Qed.

(** The exact quotient is within [2 ^ -53] of its double. *)
Lemma int_truediv_close (m n : nat) :
  (m ≤ n)%nat → (0 < n)%nat →
  to_Q (int_truediv m n) - (Z.of_nat m # Pos.of_nat n)
    <= 1 # Z.to_pos (2 ^ 53)
  ∧ (Z.of_nat m # Pos.of_nat n) - to_Q (int_truediv m n)
    <= 1 # Z.to_pos (2 ^ 53).
Proof.
  intros Hmn Hn. unfold int_truediv.
  replace (Pos.of_nat n) with (Z.to_pos (Z.of_nat n))
    by (apply Pos2Z.inj; rewrite Z2Pos.id by lia; lia).
  apply (RN_close_Q (Z.of_nat m) (Z.of_nat n) 0); lia.
Qed.

Lemma within_to_Q N x :
  within N x →
  x = S754_zero false
  ∨ ∃ M e, x = S754_finite false M e ∧ (e ≤ 0)%Z
           ∧ to_Q x = (Zpos M # Z.to_pos (2 ^ (- e))).
Proof.
  intros [-> | (M & e & -> & He & _)]; [by left | right].
  exists M, e. split; [done | split; [done | by apply to_Q_finite]].
Qed.

(** A double whose hundredfold lies strictly within one half of the integer
    [j] rounds to [j] hundredths. *)
Lemma round2_unique x j :
  within 100 x →
  inject_Z j - (1 # 2) < 100 * to_Q x → 100 * to_Q x < inject_Z j + (1 # 2) →
  round2 x = RN false j 100.
Proof.
  intros Hx Hlo Hhi.
  destruct (within_to_Q _ _ Hx) as [-> | (M & e & -> & He & HQ)].
  - change (to_Q (S754_zero false)) with 0 in *.
    unfold Qlt, Qminus, Qplus, Qopp, Qmult, inject_Z in Hlo, Hhi.
    cbn in Hlo, Hhi. assert (j = 0%Z) as -> by lia. reflexivity.
  - rewrite HQ in Hlo, Hhi. unfold round2. f_equal.
    unfold hundredths.
    rewrite (pow2_nonpos e), (pow2_nonneg (- e)), Z.mul_1_r by lia.
    assert (0 < 2 ^ (- e))%Z as HD by (apply Z.pow_pos_nonneg; lia).
    apply round_half_even_unique; [exact HD |].
    unfold Qlt, Qminus, Qplus, Qopp, Qmult, inject_Z in Hlo, Hhi.
    cbn [Qnum Qden] in Hlo, Hhi.
    repeat rewrite Pos.mul_1_l in Hlo. repeat rewrite Pos.mul_1_l in Hhi.
    rewrite Z2Pos.id in Hlo by lia. rewrite Z2Pos.id in Hhi by lia.
    set (D := (2 ^ (- e))%Z) in *. clearbody D. lia.
Qed.

(** With the hundredfold strictly between [f] and [f + 1], the hundredths
    are one of the two. *)
Lemma round2_floor x f :
  within 100 x →
  inject_Z f < 100 * to_Q x → 100 * to_Q x < inject_Z f + 1 →
  round2 x = RN false f 100 ∨ round2 x = RN false (f + 1) 100.
Proof.
  intros Hx Hlo Hhi.
  destruct (within_to_Q _ _ Hx) as [-> | (M & e & -> & He & HQ)].
  - change (to_Q (S754_zero false)) with 0 in *.
    unfold Qlt, Qminus, Qplus, Qopp, Qmult, inject_Z in Hlo, Hhi.
    cbn in Hlo, Hhi. lia.
  - rewrite HQ in Hlo, Hhi. unfold round2, hundredths.
    rewrite (pow2_nonpos e), (pow2_nonneg (- e)), Z.mul_1_r by lia.
    assert (0 < 2 ^ (- e))%Z as HD by (apply Z.pow_pos_nonneg; lia).
    unfold Qlt, Qminus, Qplus, Qopp, Qmult, inject_Z in Hlo, Hhi.
    cbn [Qnum Qden] in Hlo, Hhi.
    repeat rewrite Pos.mul_1_l in Hlo. repeat rewrite Pos.mul_1_l in Hhi.
    rewrite Z2Pos.id in Hlo by lia. rewrite Z2Pos.id in Hhi by lia.
    set (D := (2 ^ (- e))%Z) in *. clearbody D.
    assert ((100 * Z.pos M) / D = f)%Z as Hdiv.
    { symmetry. apply (Z.div_unique _ _ _ (100 * Z.pos M - f * D)); lia. }
    destruct (round_half_even_floor (100 * Z.pos M) D) as [-> | ->];
      rewrite Hdiv; auto.
Qed.

(** Off a tie, the exact value of [100 * 100 * m / n] keeps a distance of
    [1 / (2 * n)] from the two half-integers around its nearest integer. *)
Lemma exact_margin (m n : nat) :
  (0 < n)%nat → ¬ tie m n →
  let j := round_half_even (100 * 100 * Z.of_nat m) (Z.of_nat n) in
  let q := Z.of_nat m # Z.to_pos (Z.of_nat n) in
  let d := 1 # Z.to_pos (2 * Z.of_nat n) in
  inject_Z j - (1 # 2) + d <= 10000 * q
  ∧ 10000 * q <= inject_Z j + (1 # 2) - d.
Proof.
  intros Hn Htie j q d.
  pose proof (round_half_even_error_strict
                (100 * 100 * Z.of_nat m) (Z.of_nat n) ltac:(lia) Htie) as H.
  fold j in H. clearbody j. subst q d.
  Q_to_Z_goal. rewrite !Z2Pos.id by lia.
  set (N := Z.of_nat n) in *. set (a := Z.of_nat m) in *.
  assert (0 < N)%Z by lia. clearbody N a. split; nia.
Qed.

Lemma tie_exact (m n : nat) :
  (0 < n)%nat → tie m n →
  10000 * (Z.of_nat m # Z.to_pos (Z.of_nat n))
  == inject_Z (100 * 100 * Z.of_nat m / Z.of_nat n) + (1 # 2).
Proof.
  intros Hn Htie. unfold tie in Htie.
  pose proof (Z.div_mod (100 * 100 * Z.of_nat m) (Z.of_nat n) ltac:(lia)) as H.
  set (f := (100 * 100 * Z.of_nat m / Z.of_nat n)%Z) in *.
  set (r := ((100 * 100 * Z.of_nat m) mod Z.of_nat n)%Z) in *.
  clearbody f r.
  Q_to_Z_goal. rewrite !Z2Pos.id by lia.
  set (N := Z.of_nat n) in *. set (a := Z.of_nat m) in *.
  assert (0 < N)%Z by lia. clearbody N a. nia.
Qed.

(** The hundredfold of the product is within [2 ^ -38] of the exact
    [100 * 100 * m / n]. *)
Lemma product_close (m n : nat) :
  (m ≤ n)%nat → (0 < n)%nat →
  let v := to_Q (mul (int_truediv m n) hundred) in
  let q := Z.of_nat m # Z.to_pos (Z.of_nat n) in
  100 * v - 10000 * q < 1 # 274877906944
  ∧ 10000 * q - 100 * v < 1 # 274877906944.
Proof.
  intros Hmn Hn v q.
  destruct (int_truediv_close m n Hmn Hn) as [H1 H2].
  destruct (mul_hundred_close (int_truediv m n)
              (int_truediv_within m n Hmn Hn)) as [H3 H4].
  fold v in H3, H4.
  replace (Pos.of_nat n) with (Z.to_pos (Z.of_nat n)) in H1, H2
    by (apply Pos2Z.inj; rewrite Z2Pos.id by lia; lia).
  fold q in H1, H2.
  change (Z.to_pos (2 ^ 53)) with 9007199254740992%positive in *.
  change (Z.to_pos (2 ^ 46)) with 70368744177664%positive in *.
  set (v1 := to_Q (int_truediv m n)) in *.
  clearbody v v1 q. split; lra.
Qed.

(** Off the ties, and for a denominator of at most [2 ^ 37], the three
    roundings of the code give the exact quotient rounded to two decimals. *)
Lemma quotient_first_exact (m n : nat) :
  (m ≤ n)%nat → (0 < n)%nat → (Z.of_nat n ≤ 2 ^ 37)%Z → ¬ tie m n →
  quotient_first_score m n = exact_score m n.
Proof.
  intros Hmn Hn Hbig Htie. unfold quotient_first_score, exact_score.
  apply round2_unique.
  - apply mul_hundred_within, int_truediv_within; assumption.
  - destruct (exact_margin m n Hn Htie) as [Hlo _].
    destruct (product_close m n Hmn Hn) as [_ Hclose].
    cbv zeta in Hlo, Hclose.
    assert (1 # 274877906944 <= 1 # Z.to_pos (2 * Z.of_nat n)) as Hd.
    { unfold Qle. cbn [Qnum Qden]. rewrite Z2Pos.id by lia. lia. }
    set (j := inject_Z (round_half_even _ _)) in *.
    set (v := to_Q _) in *.
    set (q := Z.of_nat m # Z.to_pos (Z.of_nat n)) in *.
    set (d := 1 # Z.to_pos (2 * Z.of_nat n)) in *.
    clearbody j v q d. lra.
  - destruct (exact_margin m n Hn Htie) as [_ Hhi].
    destruct (product_close m n Hmn Hn) as [Hclose _].
    cbv zeta in Hhi, Hclose.
    assert (1 # 274877906944 <= 1 # Z.to_pos (2 * Z.of_nat n)) as Hd.
    { unfold Qle. cbn [Qnum Qden]. rewrite Z2Pos.id by lia. lia. }
    set (j := inject_Z (round_half_even _ _)) in *.
    set (v := to_Q _) in *.
    set (q := Z.of_nat m # Z.to_pos (Z.of_nat n)) in *.
    set (d := 1 # Z.to_pos (2 * Z.of_nat n)) in *.
    clearbody j v q d. lra.
Qed.

(** At a tie the result is one of the two neighbouring hundredths. *)
Lemma quotient_first_tie (m n : nat) :
  (m ≤ n)%nat → (0 < n)%nat → tie m n →
  let f := (100 * 100 * Z.of_nat m / Z.of_nat n)%Z in
  quotient_first_score m n = RN false f 100
  ∨ quotient_first_score m n = RN false (f + 1) 100.
Proof.
  intros Hmn Hn Htie f. unfold quotient_first_score.
  pose proof (tie_exact m n Hn Htie) as Hex. fold f in Hex.
  destruct (product_close m n Hmn Hn) as [H1 H2]. cbv zeta in H1, H2.
  apply round2_floor.
  - apply mul_hundred_within, int_truediv_within; assumption.
  - set (v := to_Q _) in *.
    set (q := Z.of_nat m # Z.to_pos (Z.of_nat n)) in *.
    set (F := inject_Z f) in *. clearbody v q F. lra.
  - set (v := to_Q _) in *.
    set (q := Z.of_nat m # Z.to_pos (Z.of_nat n)) in *.
    set (F := inject_Z f) in *. clearbody v q F. lra.
Qed.

End FloatError.

(** ** The float model against the machine and against CPython *)

(** The quotient and its product by 100 are, in the model, what the doubles
    of the machine and the Standard Library's IEEE 754 give, for all
    [0 <= m <= n <= 64] and for the denominator 160. *)
Example model_agrees_with_binary64 :
  forallb Binary64.agree (Binary64.pairs_upto 64) = true
  ∧ forallb Binary64.agree
      (map (λ m, (Z.of_nat m, 160%Z)) (seq 0 161)) = true.
Proof. split; vm_compute; reflexivity. Qed.

Example model_agrees_with_cpython_round :
  forallb (λ '(m, n, x), Binary64.same (quotient_first_score m n) (Prim2SF x))
          Binary64.cpython_round = true.
Proof. vm_compute. reflexivity. Qed.

Example model_agrees_with_cpython_format :
  forallb (λ '(x, s), String.eqb (Float.format_2f (Prim2SF x)) s)
          Binary64.cpython_format = true.
Proof. vm_compute. reflexivity. Qed.

(** ** Scorer *)

Lemma ats_score_token_sets (resume_text job_description : string) :
  ats_score resume_text job_description
  = if size (token_set job_description) =? 0 then Float.zero
    else quotient_first_score
           (size (token_set resume_text ∩ token_set job_description))
           (size (token_set job_description)).
Proof.
  unfold ats_score, quotient_first_score, token_set.
  rewrite FloatFacts.of_int_100. reflexivity.
Qed.

Lemma quotient_first_score_within (m n : nat) :
  m ≤ n → 0 < n → Float.within 100 (quotient_first_score m n).
Proof.
  intros Hmn Hn. unfold quotient_first_score.
  apply FloatFacts.round2_within, FloatFacts.mul_hundred_within,
    FloatFacts.int_truediv_within; assumption.
Qed.

Lemma ats_score_within (resume_text job_description : string) :
  Float.within 100 (ats_score resume_text job_description).
Proof.
  rewrite ats_score_token_sets.
  destruct (size (token_set job_description) =? 0) eqn:E;
    [left; reflexivity |].
  apply Nat.eqb_neq in E.
  apply quotient_first_score_within; [| lia].
  apply subseteq_size, intersection_subseteq_r.
Qed.

Lemma ats_score_finite (resume_text job_description : string) :
  is_finite (ats_score resume_text job_description) = true.
Proof.
  destruct (ats_score_within resume_text job_description)
    as [-> | (m & e & -> & _)]; reflexivity.
Qed.

(** C1 (as amended). For a job description with at least one token,
    [ats_score] returns [round((|R ∩ J| / |J|) * 100, 2)] computed on doubles
    in this order: the quotient of the two sizes rounded to a double, its
    product by 100 rounded to a double, and that double rounded to two
    decimals; [R] and [J] are the sets of normalized tokens of the resume and
    of the job description.  For every pair of texts the result is at least 0
    and at most 100.  The result is the exact [100 * |R ∩ J| / |J|] rounded to
    two decimals whenever that value is not midway between two hundredths
    and [J] has at most [2 ^ 37] tokens; at a midpoint it is one of the two
    neighbouring hundredths. *)
Theorem ats_score_quotient_first (resume_text job_description : string) :
  let R := token_set resume_text in
  let J := token_set job_description in
  let m := size (R ∩ J) in
  let n := size J in
  let score := ats_score resume_text job_description in
  (J ≠ ∅ → score = quotient_first_score m n)
  ∧ Float.le Float.zero score = true
  ∧ Float.le score Float.hundred = true
  ∧ (J ≠ ∅ → (Z.of_nat n ≤ 2 ^ 37)%Z → ¬ tie m n → score = exact_score m n)
  ∧ (J ≠ ∅ → tie m n →
     let f := (100 * 100 * Z.of_nat m / Z.of_nat n)%Z in
     score = Float.RN false f 100 ∨ score = Float.RN false (f + 1) 100).
Proof.
  intros R J m n score.
  assert (J ≠ ∅ → score = quotient_first_score m n ∧ m ≤ n ∧ 0 < n) as Hq.
  { intros HJ. subst score. rewrite ats_score_token_sets. fold J R m n.
    assert (n ≠ 0) as Hn.
    { intros E. apply size_empty_iff in E. destruct HJ. by apply leibniz_equiv. }
    apply Nat.eqb_neq in Hn as Hn'. rewrite Hn'.
    split; [reflexivity | split; [| lia]].
    apply subseteq_size, intersection_subseteq_r. }
  split; [intros HJ; by apply Hq |].
  split; [apply FloatFacts.within_le, ats_score_within |].
  split; [apply FloatFacts.within_le, ats_score_within |].
  split.
  - intros HJ Hbig Htie. destruct (Hq HJ) as (-> & Hmn & Hn).
    by apply FloatError.quotient_first_exact.
  - intros HJ Htie f. destruct (Hq HJ) as (-> & Hmn & Hn).
    by apply FloatError.quotient_first_tie.
Qed.

Lemma ats_score_quotient_first_witness :
  ats_score "Python and SQL" "Python, SQL or Go"
  = quotient_first_score
      (size (token_set "Python and SQL" ∩ token_set "Python, SQL or Go"))
      (size (token_set "Python, SQL or Go"))
  ∧ ats_score "Python and SQL" "Python, SQL or Go"
    = exact_score
        (size (token_set "Python and SQL" ∩ token_set "Python, SQL or Go"))
        (size (token_set "Python, SQL or Go"))
  ∧ (ats_score (words 23) (words 160) = Float.RN false 1437 100
     ∨ ats_score (words 23) (words 160) = Float.RN false 1438 100).
Proof.
  assert (∀ text : string, size (token_set text) ≠ 0 → token_set text ≠ ∅)
    as Hne.
  { intros text Hsize E. rewrite E in Hsize. by apply Hsize. }
  destruct (ats_score_quotient_first "Python and SQL" "Python, SQL or Go")
    as (Hq & _ & _ & Hexact & _).
  destruct (ats_score_quotient_first (words 23) (words 160))
    as (_ & _ & _ & _ & Htie).
  split; [| split].
  - apply Hq, Hne. vm_compute. discriminate.
  - apply Hexact.
    + apply Hne. vm_compute. discriminate.
    + vm_compute. discriminate.
    + unfold tie. vm_compute. discriminate.
  - apply Htie.
    + apply Hne. vm_compute. discriminate.
    + unfold tie. vm_compute. reflexivity.
Defined.

(** X1. On the example of the specification, resume "Experienced Python
    developer with Go and SQL skills" and job description "We need a Python
    developer familiar with SQL.", the last token of the job description is
    "sql." with its full stop, which the resume does not have: three of the
    seven tokens of the job description are in the resume, the score is
    42.86, and the posting does not pass a threshold of 50. *)
Theorem ats_score_specification_example :
  let resume_text := "Experienced Python developer with Go and SQL skills" in
  let job_description := "We need a Python developer familiar with SQL." in
  normalize_words job_description
  = ["we"; "need"; "python"; "developer"; "familiar"; "with"; "sql."]
  ∧ normalize_words resume_text
    = ["experienced"; "python"; "developer"; "with"; "go"; "and"; "sql";
       "skills"]
  ∧ size (token_set resume_text ∩ token_set job_description) = 3
  ∧ size (token_set job_description) = 7
  ∧ ats_score resume_text job_description
    = Prim2SF 0x1.56e147ae147aep+5%float
  ∧ Float.format_2f (ats_score resume_text job_description) = "42.86"
  ∧ Float.ge (ats_score resume_text job_description) (Float.of_int 50) = false.
Proof. repeat split; vm_compute; reflexivity. Qed.

(** The claim C1 as it is worded fails where [100 * |R ∩ J| / |J|] lies
    midway between two hundredths.  With 23 of the 160 tokens of the job
    description in the resume, the exact value is 14.375: [ats_score] returns
    14.37, because the product of the rounded quotient by 100 falls just
    below 14.375, while the exact quotient rounded to two decimals is 14.38,
    with ties to even or upwards, and so is [round(100 * 23 / 160, 2)]
    evaluated on doubles. *)
Lemma ats_score_differs_from_exact_rounding :
  let R := token_set (words 23) in
  let J := token_set (words 160) in
  J ≠ ∅ ∧ size (R ∩ J) = 23 ∧ size J = 160
  ∧ ats_score (words 23) (words 160) = Prim2SF 0x1.cbd70a3d70a3dp+3%float
  ∧ exact_score (size (R ∩ J)) (size J) = Prim2SF 0x1.cc28f5c28f5c3p+3%float
  ∧ exact_score_half_up (size (R ∩ J)) (size J)
    = Prim2SF 0x1.cc28f5c28f5c3p+3%float
  ∧ product_first_score (size (R ∩ J)) (size J)
    = Prim2SF 0x1.cc28f5c28f5c3p+3%float
  ∧ ats_score (words 23) (words 160) ≠ exact_score (size (R ∩ J)) (size J).
Proof.
  intros R J.
  assert (size (R ∩ J) = 23) as HR by (vm_compute; reflexivity).
  assert (size J = 160) as HJ by (vm_compute; reflexivity).
  split; [intros H; rewrite H in HJ; discriminate HJ |].
  rewrite HR, HJ.
  repeat split; try (vm_compute; reflexivity).
  vm_compute. discriminate.
Qed.

(** ** Filter *)

Lemma eligible_cons job jobs resume_text threshold :
  eligible (job :: jobs) resume_text threshold
  = let score := ats_score resume_text (py_str (description job)) in
    if Float.ge score threshold
    then (job, score) :: eligible jobs resume_text threshold
    else eligible jobs resume_text threshold.
Proof.
  unfold eligible. simpl map. rewrite filter_cons. simpl.
  destruct (Float.ge _ threshold) eqn:E; case_decide; congruence.
Qed.

(** The loop returns what it was given followed by the eligible pairs of the
    postings it went through, and raises at the first description that is
    not text. *)
Lemma filter_loop_eligible jobs resume_text threshold results :
  filter_loop jobs resume_text threshold results
  = if all_text jobs
    then Ok (results ++ eligible jobs resume_text threshold)
    else Raise TypeError.
Proof.
  revert results. induction jobs as [| job jobs IH]; intros results.
  - simpl. unfold eligible. simpl. by rewrite app_nil_r.
  - simpl. unfold score_job. rewrite eligible_cons.
    destruct (description job) as [d | | |]; simpl; try reflexivity.
    destruct (Float.ge (ats_score resume_text d) threshold).
    + rewrite IH. destruct (all_text jobs); [| reflexivity].
      by rewrite <- app_assoc.
    + apply IH.
Qed.

Lemma filter_jobs_by_score_spec jobs resume_text threshold :
  filter_jobs_by_score jobs resume_text threshold
  = if all_text jobs then Ok (eligible jobs resume_text threshold)
    else Raise TypeError.
Proof. unfold filter_jobs_by_score. by rewrite filter_loop_eligible. Qed.

Lemma elem_of_eligible jobs resume_text threshold job score :
  (job, score) ∈ eligible jobs resume_text threshold
  ↔ job ∈ jobs
    ∧ score = ats_score resume_text (py_str (description job))
    ∧ Float.ge score threshold = true.
Proof.
  unfold eligible. rewrite list_elem_of_filter, list_elem_of_fmap. simpl.
  split.
  - intros [Hge (j & [= -> ->] & Hin)]. done.
  - intros (Hin & -> & Hge). split; [exact Hge |]. by exists job.
Qed.

Lemma eligible_sublist jobs resume_text threshold :
  (eligible jobs resume_text threshold).*1 `sublist_of` jobs.
Proof.
  induction jobs as [| job jobs IH]; [constructor |].
  rewrite eligible_cons. simpl.
  destruct (Float.ge _ threshold); simpl; by constructor.
Qed.

Lemma eligible_monotone jobs resume_text t t' :
  Float.le t t' = true →
  eligible jobs resume_text t' `sublist_of` eligible jobs resume_text t.
Proof.
  intros Hle. induction jobs as [| job jobs IH]; [constructor |].
  rewrite !eligible_cons. simpl.
  destruct (Float.ge _ t') eqn:E'.
  - unfold Float.ge in *.
    rewrite (FloatFacts.le_trans _ _ _ Hle E'). by constructor.
  - destruct (Float.ge _ t); [by constructor | exact IH].
Qed.

(** C5. For postings whose descriptions are text, the filter returns exactly
    the pairs (posting, score) with score ≥ threshold, the score being
    [ats_score] of the resume against the description of the posting, in the
    order of the input.  The filter takes no part of the world and returns
    none: it is a function of its three arguments. *)
Theorem filter_jobs_by_score_eligible
    (jobs : list Job) (resume_text : string) (threshold : spec_float) :
  all_text jobs = true →
  filter_jobs_by_score jobs resume_text threshold
  = Ok (eligible jobs resume_text threshold)
  ∧ (∀ job score,
       (job, score) ∈ eligible jobs resume_text threshold
       ↔ job ∈ jobs
         ∧ score = ats_score resume_text (py_str (description job))
         ∧ Float.ge score threshold = true)
  ∧ (eligible jobs resume_text threshold).*1 `sublist_of` jobs.
Proof.
  intros Htext. split; [| split].
  - by rewrite filter_jobs_by_score_spec, Htext.
  - intros job score. apply elem_of_eligible.
  - apply eligible_sublist.
Qed.

(** C6. Raising the threshold never adds a posting: when [t ≤ t'], the pairs
    the filter returns at [t'] are, in order, among those it returns at
    [t]. *)
Theorem filter_jobs_by_score_monotone
    (jobs : list Job) (resume_text : string) (t t' : spec_float)
    (at_t' : list (Job * spec_float)) :
  Float.le t t' = true →
  filter_jobs_by_score jobs resume_text t' = Ok at_t' →
  ∃ at_t, filter_jobs_by_score jobs resume_text t = Ok at_t
          ∧ at_t' `sublist_of` at_t
          ∧ ∀ p, p ∈ at_t' → p ∈ at_t.
Proof.
  intros Hle. rewrite !filter_jobs_by_score_spec.
  destruct (all_text jobs); [| discriminate].
  intros [= <-]. exists (eligible jobs resume_text t).
  pose proof (eligible_monotone jobs resume_text t t' Hle) as Hsub.
  split; [reflexivity | split; [exact Hsub |]].
  intros p. by apply sublist_subseteq.
Qed.

(** C2. A job description without tokens, the empty string among them,
    scores exactly 0.0 against every resume.  A posting with such a
    description is not among the pairs the filter returns when the threshold
    is strictly positive; when it is among them, its score is 0.0 and the
    threshold is 0 or negative; and it is among them whenever the threshold
    is 0 or negative. *)
Theorem empty_vocabulary_scores_zero
    (resume_text job_description : string) :
  normalize_words job_description = [] →
  ats_score resume_text job_description = Float.zero
  ∧ ats_score resume_text "" = Float.zero
  ∧ ∀ (job : Job) (jobs : list Job) (threshold : spec_float)
      (res : list (Job * spec_float)),
      description job = PyStr job_description →
      filter_jobs_by_score jobs resume_text threshold = Ok res →
      (Float.lt Float.zero threshold = true → ∀ score, (job, score) ∉ res)
      ∧ (∀ score, (job, score) ∈ res →
           score = Float.zero ∧ Float.le threshold Float.zero = true)
      ∧ (Float.le threshold Float.zero = true → job ∈ jobs →
         (job, Float.zero) ∈ res).
Proof.
  intros Hnone.
  assert (ats_score resume_text job_description = Float.zero) as Hzero
    by (unfold ats_score; rewrite Hnone; reflexivity).
  split; [exact Hzero | split; [reflexivity |]].
  intros job jobs threshold res Hdesc.
  rewrite filter_jobs_by_score_spec.
  destruct (all_text jobs); [| discriminate]. intros [= <-].
  assert (∀ score, (job, score) ∈ eligible jobs resume_text threshold →
            score = Float.zero ∧ Float.le threshold Float.zero = true) as Hin.
  { intros score (_ & -> & Hge)%elem_of_eligible.
    rewrite Hdesc in *. simpl in *. rewrite Hzero in *. done. }
  split; [| split; [exact Hin |]].
  - intros Hpos score [-> Hle]%Hin.
    destruct threshold as [[] | [] | | [] ? ?]; simpl in *;
      unfold Float.lt, Float.le in *; simpl in *;
      try discriminate; rewrite Hle in Hpos; discriminate.
  - intros Hle Hjob. apply elem_of_eligible.
    rewrite Hdesc. simpl. rewrite Hzero. done.
Qed.

(** ** Case and order of the tokens *)

Lemma is_letter_lower_ascii c :
  Regex.is_letter (lower_ascii c) = Regex.is_letter c.
Proof. destruct c as [[] [] [] [] [] [] [] []]; reflexivity. Qed.

Lemma is_class_lower_ascii c :
  Regex.is_class (lower_ascii c) = Regex.is_class c.
Proof. destruct c as [[] [] [] [] [] [] [] []]; reflexivity. Qed.

Lemma lower_ascii_idemp c : lower_ascii (lower_ascii c) = lower_ascii c.
Proof. destruct c as [[] [] [] [] [] [] [] []]; reflexivity. Qed.

Lemma lower_upper_ascii c : lower_ascii (upper_ascii c) = lower_ascii c.
Proof. destruct c as [[] [] [] [] [] [] [] []]; reflexivity. Qed.

Lemma scan_run_case_variant (l l' : list ascii) :
  Forall2 (λ a b, lower_ascii a = lower_ascii b) l l' →
  (∀ pos, Regex.scan pos l = Regex.scan pos l')
  ∧ (∀ start pos, Regex.run start pos l = Regex.run start pos l').
Proof.
  induction 1 as [| a b l l' Hab _ [IHscan IHrun]]; [done |].
  assert (Regex.is_letter a = Regex.is_letter b) as Hlet
    by (rewrite <- (is_letter_lower_ascii a), Hab; apply is_letter_lower_ascii).
  assert (Regex.is_class a = Regex.is_class b) as Hcls
    by (rewrite <- (is_class_lower_ascii a), Hab; apply is_class_lower_ascii).
  split; intros; simpl.
  - rewrite Hlet, IHscan, IHrun. reflexivity.
  - rewrite Hcls, IHscan, IHrun. reflexivity.
Qed.

Lemma lower_slice_fmap (l : list ascii) (m : Regex.span) :
  lower (Regex.slice l m)
  = string_of_list_ascii (Regex.slice (map lower_ascii l) m).
Proof.
  unfold lower, Regex.slice. f_equal.
  change (map lower_ascii) with (fmap (M := list) lower_ascii).
  by rewrite fmap_take, fmap_drop.
Qed.

(** Texts that differ in the case of their letters have the same tokens. *)
Lemma normalize_words_case_variant (s t : string) :
  case_variant s t → normalize_words s = normalize_words t.
Proof.
  intros H. unfold normalize_words, finditer, group0.
  destruct (scan_run_case_variant _ _ H) as [-> _].
  apply map_ext. intros m. rewrite !lower_slice_fmap. do 2 f_equal.
  unfold case_variant in H.
  induction H as [| a b l l' Hab _ IH]; [reflexivity |].
  simpl. by rewrite Hab, IH.
Qed.

Lemma case_variant_to_lower (s : string) : case_variant (to_lower s) s.
Proof.
  unfold case_variant, to_lower. rewrite list_ascii_of_string_of_list_ascii.
  induction (list_ascii_of_string s) as [| c l IH]; constructor;
    [apply lower_ascii_idemp | exact IH].
Qed.

Lemma case_variant_to_upper (s : string) : case_variant (to_upper s) s.
Proof.
  unfold case_variant, to_upper. rewrite list_ascii_of_string_of_list_ascii.
  induction (list_ascii_of_string s) as [| c l IH]; constructor;
    [apply lower_upper_ascii | exact IH].
Qed.

Lemma list_ascii_of_string_app (a b : string) :
  list_ascii_of_string (a +:+ b)
  = list_ascii_of_string a ++ list_ascii_of_string b.
Proof.
  induction a as [| c a IH]; [reflexivity |].
  change (String c a +:+ b) with (String c (a +:+ b)). simpl. by rewrite IH.
Qed.

(** The tokens of two texts joined by a character outside the class are the
    tokens of the first followed by those of the second. *)
Lemma normalize_words_join (sep : ascii) (a b : string) :
  Regex.is_class sep = false →
  normalize_words (a +:+ String sep b) = normalize_words a ++ normalize_words b.
Proof.
  intros Hsep. unfold normalize_words, finditer, group0.
  rewrite list_ascii_of_string_app. simpl list_ascii_of_string.
  set (la := list_ascii_of_string a). set (lb := list_ascii_of_string b).
  destruct (RegexFacts.scan_run_app sep lb Hsep la) as [-> _].
  destruct (RegexFacts.scan_run_shift (length la + 1) lb) as [Hshift _].
  specialize (Hshift 0). rewrite Nat.add_0_r in Hshift. simpl "+".
  rewrite Hshift, map_app, map_map. f_equal.
  - apply Forall_fmap_ext_1. eapply Forall_impl; [apply RegexFacts.scan_bound |].
    intros sp Hsp. simpl. f_equal. by apply RegexFacts.slice_app_l.
  - apply map_ext. intros sp.  f_equal.
    replace (la ++ sep :: lb) with ((la ++ [sep]) ++ lb)
      by (by rewrite <- app_assoc).
    replace (length la + 1) with (length (la ++ [sep]))
      by (rewrite length_app; reflexivity).
    apply RegexFacts.slice_app_r.
Qed.

Lemma normalize_words_space (a b : string) :
  normalize_words (a +:+ " " +:+ b) = normalize_words a ++ normalize_words b.
Proof. exact (normalize_words_join " " a b eq_refl). Qed.

(** The score depends on the two texts through their token sets only. *)
Lemma ats_score_same_tokens (r r' j j' : string) :
  token_set r = token_set r' → token_set j = token_set j' →
  ats_score r j = ats_score r' j'.
Proof. intros Hr Hj. rewrite !ats_score_token_sets, Hr, Hj. reflexivity. Qed.

Lemma token_set_same_elements (s t : string) :
  (∀ w, w ∈ normalize_words s ↔ w ∈ normalize_words t) →
  token_set s = token_set t.
Proof.
  intros H. apply set_eq. intros w. unfold token_set.
  rewrite !elem_of_list_to_set. apply H.
Qed.

(** C4 (as amended). The score is the same for texts that differ only in
    the case of their ASCII letters, in particular for a resume or a job
    description and its form with the ASCII letters upper-cased or
    lower-cased; and it is the same for texts whose token sequences hold the
    same tokens, whatever their order and however often each occurs, in
    particular when two parts of a text separated by a space are exchanged,
    or when a text is written twice. *)
Theorem ats_score_case_order_invariant (r r' j j' : string) :
  (case_variant r r' → case_variant j j' → ats_score r' j' = ats_score r j)
  ∧ ats_score (to_upper r) j = ats_score r j
  ∧ ats_score (to_lower r) j = ats_score r j
  ∧ ats_score r (to_upper j) = ats_score r j
  ∧ ats_score r (to_lower j) = ats_score r j
  ∧ ats_score (to_upper r) (to_lower j) = ats_score (to_lower r) (to_upper j)
  ∧ ((∀ w, w ∈ normalize_words r ↔ w ∈ normalize_words r') →
     (∀ w, w ∈ normalize_words j ↔ w ∈ normalize_words j') →
     ats_score r' j' = ats_score r j)
  ∧ (normalize_words r' ≡ₚ normalize_words r →
     normalize_words j' ≡ₚ normalize_words j →
     ats_score r' j' = ats_score r j)
  ∧ (normalize_words r' = normalize_words r ++ normalize_words r →
     normalize_words j' = normalize_words j ++ normalize_words j →
     ats_score r' j' = ats_score r j)
  ∧ (∀ a b : string,
       ats_score (a +:+ " " +:+ b) j = ats_score (b +:+ " " +:+ a) j
       ∧ ats_score r (a +:+ " " +:+ b) = ats_score r (b +:+ " " +:+ a)
       ∧ ats_score (a +:+ " " +:+ a) j = ats_score a j
       ∧ ats_score r (a +:+ " " +:+ a) = ats_score r a).
Proof.
  assert (∀ a a' b b', case_variant a a' → case_variant b b' →
            ats_score a b = ats_score a' b') as Hcase.
  { intros a a' b b' Ha Hb. unfold ats_score.
    by rewrite (normalize_words_case_variant _ _ Ha),
               (normalize_words_case_variant _ _ Hb). }
  assert (∀ s, case_variant s s) as Hrefl.
  { intros s. unfold case_variant.
    induction (list_ascii_of_string s); by constructor. }
  pose proof (case_variant_to_upper r). pose proof (case_variant_to_lower r).
  pose proof (case_variant_to_upper j). pose proof (case_variant_to_lower j).
  assert (∀ a a' b b',
            (∀ w, w ∈ normalize_words a ↔ w ∈ normalize_words a') →
            (∀ w, w ∈ normalize_words b ↔ w ∈ normalize_words b') →
            ats_score a' b' = ats_score a b) as Hset.
  { intros a a' b b' Ha Hb. symmetry.
    apply ats_score_same_tokens; by apply token_set_same_elements. }
  repeat split.
  - intros Hr Hj. symmetry. by apply Hcase.
  - by apply Hcase.
  - by apply Hcase.
  - by apply Hcase.
  - by apply Hcase.
  - rewrite (Hcase (to_upper r) r (to_lower j) j),
            (Hcase (to_lower r) r (to_upper j) j); done.
  - apply Hset.
  - intros Hr Hj. apply Hset; intros w; [by rewrite Hr | by rewrite Hj].
  - intros Hr Hj. apply Hset; intros w;
      [rewrite Hr | rewrite Hj]; rewrite elem_of_app; tauto.
  - apply Hset; [| done]. intros w.
    rewrite !normalize_words_space, !elem_of_app. tauto.
  - apply Hset; [done |]. intros w.
    rewrite !normalize_words_space, !elem_of_app. tauto.
  - symmetry. apply Hset; [| done]. intros w.
    rewrite !normalize_words_space, !elem_of_app. tauto.
  - symmetry. apply Hset; [done |]. intros w.
    rewrite !normalize_words_space, !elem_of_app. tauto.
Qed.

(** The claim C4 as it is worded fails for a case change that reaches beyond
    ASCII.  Upper-casing "Straße Python" gives "STRASSE PYTHON": the letter ß,
    which is outside the pattern and cuts "Straße" into the token "stra" and a
    lone "e", becomes the two letters "SS", and the text now holds the token
    "strasse".  Against the job description "strasse python" the score goes
    from 50.0 to 100.0. *)
Lemma ats_score_changes_under_unicode_upper :
  str_upper "Straße Python" = Some "STRASSE PYTHON"
  ∧ normalize_words "Straße Python" = ["stra"; "python"]
  ∧ normalize_words "STRASSE PYTHON" = ["strasse"; "python"]
  ∧ ats_score "Straße Python" "strasse python" = Float.of_int 50
  ∧ ats_score "STRASSE PYTHON" "strasse python" = Float.hundred
  ∧ ats_score "STRASSE PYTHON" "strasse python"
    ≠ ats_score "Straße Python" "strasse python".
Proof.
  repeat split; try (vm_compute; reflexivity).
  vm_compute. discriminate.
Qed.

(** ** Job loader *)

Lemma load_loop_app (data : list item) (jobs : list Job) :
  load_loop data jobs = jobs ++ load_loop data [].
Proof.
  revert jobs. induction data as [| it data IH]; intros jobs; simpl.
  - by rewrite app_nil_r.
  - rewrite IH, (IH [_]). by rewrite <- app_assoc.
Qed.

Lemma jobs_of_data_cons (it : item) (data : list item) :
  jobs_of_data (it :: data)
  = {| job_id := py_str (get it "id"); title := get it "title";
       company := get it "company"; location := get it "location";
       description := get it "description"; url := get it "url" |}
    :: jobs_of_data data.
Proof. unfold jobs_of_data. simpl. by rewrite load_loop_app. Qed.

Lemma length_jobs_of_data (data : list item) :
  length (jobs_of_data data) = length data.
Proof.
  induction data as [| it data IH]; [reflexivity |].
  rewrite jobs_of_data_cons. simpl. by rewrite IH.
Qed.

Lemma jobs_of_data_lookup (data : list item) (i : nat) (it : item) :
  data !! i = Some it →
  jobs_of_data data !! i
  = Some {| job_id := py_str (get it "id"); title := get it "title";
            company := get it "company"; location := get it "location";
            description := get it "description"; url := get it "url" |}.
Proof.
  revert i. induction data as [| it' data IH]; intros i Hi; [done |].
  rewrite jobs_of_data_cons. destruct i as [| i]; simpl in *.
  - by injection Hi as ->.
  - by apply IH.
Qed.

Lemma get_is_text (it : item) (key : string) :
  (∀ v, it !! key = Some v → is_text v = true) → is_text (get it key) = true.
Proof.
  intros H. unfold get. destruct (it !! key) as [v |]; simpl; [by apply H | done].
Qed.

(** ** Rendering of numbers *)

Lemma append_cons (x : ascii) (a b : string) :
  String x a +:+ b = String x (a +:+ b).
Proof. reflexivity. Qed.

Lemma append_assoc (a b c : string) : (a +:+ b) +:+ c = a +:+ (b +:+ c).
Proof.
  induction a as [| x a IH]; [reflexivity |].
  by rewrite !append_cons, IH.
Qed.

Lemma append_nil_r (a : string) : a +:+ "" = a.
Proof.
  induction a as [| x a IH]; [reflexivity |]. by rewrite append_cons, IH.
Qed.

Lemma string_of_uint_digits (d : Decimal.uint) :
  Forall (λ c, Regex.is_digit c = true)
         (list_ascii_of_string (NilEmpty.string_of_uint d)).
Proof. induction d; simpl; constructor; done. Qed.

Lemma dec_digits (n : Z) :
  (0 ≤ n)%Z →
  Forall (λ c, Regex.is_digit c = true) (list_ascii_of_string (Float.dec n))
  ∧ Float.dec n ≠ "".
Proof.
  intros Hn. unfold Float.dec.
  destruct n as [| p | p]; [split; [repeat constructor | done] | | lia].
  simpl. unfold NilZero.string_of_uint.
  destruct (Pos.to_uint p) eqn:E;
    (split; [try (rewrite <- E; apply string_of_uint_digits) | done]).
  repeat constructor.
Qed.

Lemma dec_one_digit (d : Z) :
  (0 ≤ d ≤ 9)%Z →
  ∃ c, Float.dec d = String c "" ∧ Regex.is_digit c = true.
Proof.
  intros Hd.
  assert (d ∈ [0; 1; 2; 3; 4; 5; 6; 7; 8; 9]%Z) as Hin.
  { rewrite !elem_of_cons. lia. }
  rewrite !elem_of_cons in Hin.
  repeat (destruct Hin as [-> | Hin]; [eexists; split; reflexivity |]).
  inversion Hin.
Qed.

Lemma format_2f_two_decimals (x : spec_float) :
  is_finite x = true → two_decimals (Float.format_2f x).
Proof.
  destruct x as [s | s | | s m e]; try discriminate; intros _.
  - exists (if s then "-" else ""), "0", "0"%char, "0"%char.
    destruct s; repeat split; try done; try (by left); try (by right);
      repeat constructor.
  - unfold Float.format_2f.
    pose proof (FloatFacts.hundredths_nonneg m e) as Hk.
    set (k := Float.hundredths m e) in *. clearbody k.
    destruct (dec_digits (k / 100)) as [Hint Hne];
      [apply Z.div_pos; lia |].
    destruct (dec_one_digit (k mod 100 / 10)) as (d1 & -> & Hd1).
    { pose proof (Z.mod_pos_bound k 100 ltac:(lia)).
      assert (k mod 100 / 10 < 10)%Z by (apply Z.div_lt_upper_bound; lia).
      split; [apply Z.div_pos; lia | lia]. }
    destruct (dec_one_digit (k mod 10)) as (d2 & -> & Hd2).
    { pose proof (Z.mod_pos_bound k 10 ltac:(lia)). lia. }
    exists (if s then "-" else ""), (Float.dec (k / 100)), d1, d2.
    repeat split; try done. destruct s; [by right | by left].
Qed.

(** ** One entry, one line *)

Lemma no_newline_app (a b : string) :
  no_newline a → no_newline b → no_newline (a +:+ b).
Proof.
  unfold no_newline. rewrite list_ascii_of_string_app. apply Forall_app_2.
Qed.

Lemma no_newline_digits (s : string) :
  Forall (λ c, Regex.is_digit c = true) (list_ascii_of_string s) →
  no_newline s.
Proof.
  unfold no_newline. intros H. eapply Forall_impl; [exact H |].
  intros c Hc ->. discriminate Hc.
Qed.

Lemma no_newline_format_2f (x : spec_float) : no_newline (Float.format_2f x).
Proof.
  destruct x as [[] | [] | | s m e];
    try (unfold no_newline; vm_compute; repeat constructor; discriminate).
  destruct (format_2f_two_decimals (S754_finite s m e) eq_refl)
    as (sign & ip & d1 & d2 & -> & Hsign & Hip & _ & Hd1 & Hd2).
  repeat apply no_newline_app.
  - destruct Hsign as [-> | ->]; unfold no_newline; repeat constructor.
    discriminate.
  - by apply no_newline_digits.
  - unfold no_newline. repeat constructor. discriminate.
  - apply no_newline_digits. repeat constructor; assumption.
Qed.

Lemma entry_one_line (timestamp : string) (job : Job) (score : spec_float) :
  no_newline timestamp → no_newline (job_id job) →
  no_newline (py_str (title job)) → no_newline (py_str (company job)) →
  no_newline (py_str (location job)) → no_newline (py_str (url job)) →
  ∃ line, entry timestamp job score = line +:+ newline ∧ no_newline line.
Proof.
  intros Ht Hid Htitle Hcompany Hlocation Hurl.
  exists (timestamp +:+ " | " +:+ entry_body job score).
  split; [unfold entry; by rewrite !append_assoc |].
  assert (no_newline " | ") as Hsep
    by (unfold no_newline; repeat constructor; discriminate).
  assert (no_newline "APPLIED | ") as Happ
    by (unfold no_newline; repeat constructor; discriminate).
  unfold entry_body.
  repeat (apply no_newline_app; [assumption || apply no_newline_format_2f |]);
    assumption.
Qed.

Lemma newlines_app (a b : string) :
  newlines (a +:+ b) = newlines a + newlines b.
Proof.
  induction a as [| c a IH]; [reflexivity |].
  rewrite append_cons. simpl. rewrite IH. lia.
Qed.

Lemma newlines_no_newline (s : string) : no_newline s → newlines s = 0.
Proof.
  unfold no_newline. induction s as [| c s IH]; [reflexivity |].
  simpl. intros H. inversion H as [| ? ? Hc Hs]; subst.
  rewrite IH by exact Hs.
  destruct (Ascii.eqb_spec c (ascii_of_nat 10)); [done | reflexivity].
Qed.

Lemma newlines_entry (timestamp : string) (job : Job) (score : spec_float) :
  no_newline timestamp → one_line_fields job →
  newlines (entry timestamp job score) = 1.
Proof.
  intros Ht (Hid & Htitle & Hcompany & Hlocation & Hurl).
  destruct (entry_one_line timestamp job score) as (line & -> & Hline);
    [assumption.. |].
  rewrite newlines_app, (newlines_no_newline line Hline). reflexivity.
Qed.

(** The line breaks of an entry: the one that ends it and those of its
    timestamp and of its fields. *)
Lemma newlines_entry_fields (timestamp : string) (job : Job)
    (score : spec_float) :
  newlines (entry timestamp job score)
  = 1 + newlines timestamp + newlines (job_id job)
    + newlines (py_str (title job)) + newlines (py_str (company job))
    + newlines (py_str (location job)) + newlines (py_str (url job)).
Proof.
  unfold entry, entry_body. rewrite !newlines_app.
  rewrite (newlines_no_newline _ (no_newline_format_2f score)).
  change (newlines newline) with 1. change (newlines " | ") with 0.
  change (newlines "APPLIED | ") with 0. lia.
Qed.

Lemma entry_line (timestamp : string) (job : Job) (score : spec_float) :
  entry timestamp job score
  = timestamp +:+ " | APPLIED | " +:+ job_id job +:+ " | "
      +:+ py_str (title job) +:+ " | " +:+ py_str (company job) +:+ " | "
      +:+ py_str (location job) +:+ " | " +:+ Float.format_2f score
      +:+ " | " +:+ py_str (url job) +:+ String (ascii_of_nat 10) "".
Proof. unfold entry, entry_body. rewrite !append_assoc. reflexivity. Qed.

(** The claim C8 as it is worded fails on a posting with a line break in a
    field: the fields are written as they are.  With the title
    ["Lead\nEngineer"] the logger appends two lines, the first one ending
    inside the title; what it appends is not one line followed by a
    newline. *)
Lemma log_application_splits_entry :
  content "applications.log"
    (log_application fixed_clock "applications.log" two_line_job
       (Prim2SF 91.5%float) demo_world)
  = "2024-01-01T00:00:00 | APPLIED | 7 | Lead"
      +:+ String (ascii_of_nat 10)
            "Engineer | Acme | Remote | 91.50 | http://x/7"
      +:+ String (ascii_of_nat 10) ""
  ∧ content "applications.log" demo_world = ""
  ∧ newlines
      (content "applications.log"
         (log_application fixed_clock "applications.log" two_line_job
            (Prim2SF 91.5%float) demo_world))
    = 2
  ∧ ¬ ∃ line,
        content "applications.log"
          (log_application fixed_clock "applications.log" two_line_job
             (Prim2SF 91.5%float) demo_world)
        = content "applications.log" demo_world
            +:+ line +:+ String (ascii_of_nat 10) ""
        ∧ no_newline line.
Proof.
  split; [vm_compute; reflexivity |].
  split; [vm_compute; reflexivity |].
  split; [vm_compute; reflexivity |].
  intros (line & E & Hline).
  apply (f_equal newlines) in E.
  rewrite !newlines_app, (newlines_no_newline line Hline) in E.
  vm_compute in E. discriminate E.
Qed.

(** ** Logger and pipeline *)

Lemma join_app (l1 l2 : list string) : join (l1 ++ l2) = join l1 +:+ join l2.
Proof.
  induction l1 as [| x l1 IH]; [reflexivity |].
  simpl. unfold join in *. simpl. by rewrite IH, append_assoc.
Qed.

Lemma entry_stamp (timestamp : string) (job : Job) (score : spec_float) :
  entry timestamp job score = stamp timestamp (entry_body job score).
Proof. reflexivity. Qed.

Section PipelineFacts.

Variable utcnow_isoformat : nat → string.
Variable json_loads : string → result (list item).

Lemma content_log_application log_path job score w :
  content log_path (log_application utcnow_isoformat log_path job score w)
  = content log_path w
    +:+ entry (utcnow_isoformat (clock w)) job score.
Proof. unfold content at 1. simpl. by rewrite lookup_insert_eq. Qed.

Lemma files_log_application log_path job score w p :
  p ≠ log_path →
  files (log_application utcnow_isoformat log_path job score w) !! p
  = files w !! p.
Proof. intros H. simpl. by rewrite lookup_insert_ne. Qed.

Lemma batch_cons t p pairs :
  batch utcnow_isoformat t (p :: pairs)
  = entry (utcnow_isoformat t) p.1 p.2 :: batch utcnow_isoformat (S t) pairs.
Proof.
  unfold batch. rewrite imap_cons, Nat.add_0_r. f_equal.
  apply imap_ext. intros i x _. simpl. do 2 f_equal. lia.
Qed.

Lemma length_batch t pairs :
  length (batch utcnow_isoformat t pairs) = length pairs.
Proof. apply length_imap. Qed.

Lemma batch_stamps t pairs :
  batch utcnow_isoformat t pairs
  = zip_with stamp (utcnow_isoformat <$> seq t (length pairs)) (bodies pairs).
Proof.
  revert t. induction pairs as [| p pairs IH]; intros t; [reflexivity |].
  rewrite batch_cons, IH. reflexivity.
Qed.

(** What a run of the logger over a list of pairs leaves behind. *)
Lemma apply_to_jobs_spec pairs log_path w :
  content log_path (apply_to_jobs utcnow_isoformat pairs log_path w)
  = content log_path w +:+ join (batch utcnow_isoformat (clock w) pairs)
  ∧ clock (apply_to_jobs utcnow_isoformat pairs log_path w)
    = clock w + length pairs
  ∧ ∀ p, p ≠ log_path →
         files (apply_to_jobs utcnow_isoformat pairs log_path w) !! p
         = files w !! p.
Proof.
  revert w. induction pairs as [| [job score] pairs IH]; intros w.
  - simpl. rewrite append_nil_r. split; [done | split; [lia | done]].
  - simpl apply_to_jobs.
    destruct (IH (log_application utcnow_isoformat log_path job score w))
      as (Hc & Hk & Hf).
    rewrite Hc, Hk, content_log_application, batch_cons. simpl.
    split; [| split; [lia |]].
    + unfold join. simpl. by rewrite append_assoc.
    + intros p Hp. rewrite Hf by done. by apply files_log_application.
Qed.

Lemma run_once_inv a w w1 :
  run_once utcnow_isoformat json_loads a w = Ok w1 →
  ∃ resume_text jobs elig,
    read_text (resume a) w = Ok resume_text
    ∧ load_jobs json_loads (jobs_file a) w = Ok jobs
    ∧ filter_jobs_by_score jobs resume_text (threshold a) = Ok elig
    ∧ w1 = apply_to_jobs utcnow_isoformat elig (log a) w.
Proof.
  unfold run_once.
  destruct (read_text (resume a) w) as [resume_text |]; [| discriminate].
  destruct (load_jobs json_loads (jobs_file a) w) as [jobs |]; [| discriminate].
  simpl.
  destruct (filter_jobs_by_score jobs resume_text (threshold a))
    as [elig |] eqn:Hf; [| discriminate].
  simpl. intros H. exists resume_text, jobs, elig.
  split; [reflexivity | split; [reflexivity | split; [exact Hf |]]].
  destruct elig; by injection H as <-.
Qed.

Lemma run_once_intro a w resume_text jobs elig :
  read_text (resume a) w = Ok resume_text →
  load_jobs json_loads (jobs_file a) w = Ok jobs →
  filter_jobs_by_score jobs resume_text (threshold a) = Ok elig →
  run_once utcnow_isoformat json_loads a w
  = Ok (apply_to_jobs utcnow_isoformat elig (log a) w).
Proof.
  intros Hr Hl Hf. unfold run_once. rewrite Hr, Hl. simpl.
  rewrite Hf. simpl. by destruct elig.
Qed.

Lemma read_text_same_file path w w' :
  files w' !! path = files w !! path → read_text path w' = read_text path w.
Proof. intros H. unfold read_text. by rewrite H. Qed.

Lemma run_once_extends a w w1 :
  run_once utcnow_isoformat json_loads a w = Ok w1 →
  ∃ more, content (log a) w1 = content (log a) w +:+ more.
Proof.
  intros (r & jobs & elig & _ & _ & _ & ->)%run_once_inv.
  eexists. apply apply_to_jobs_spec.
Qed.

Lemma passes_extends n a w wn :
  passes utcnow_isoformat json_loads n a w = Ok wn →
  ∃ more, content (log a) wn = content (log a) w +:+ more.
Proof.
  revert w. induction n as [| n IH]; intros w; simpl.
  - intros [= <-]. exists "". by rewrite append_nil_r.
  - destruct (run_once utcnow_isoformat json_loads a w) as [w1 |] eqn:E;
      [| discriminate].
    simpl.
    intros (more' & ->)%IH. apply run_once_extends in E as (more & ->).
    exists (more +:+ more'). by rewrite append_assoc.
Qed.

(** C7. The loader returns one posting per record of the jobs file, in the
    order of the records.  A key that is absent gives the empty string.  The
    identifier is [str] of what the record holds under ["id"] (the text
    itself, the decimal numeral of an integer); the five other fields are
    what the record holds, so that all six are text when the record maps its
    keys to text. *)
Theorem load_jobs_one_posting_per_record
    (path : string) (w : world) (text : string) (data : list item) :
  files w !! path = Some text →
  json_loads text = Ok data →
  ∃ jobs,
    load_jobs json_loads path w = Ok jobs
    ∧ length jobs = length data
    ∧ ∀ i it, data !! i = Some it →
        ∃ job, jobs !! i = Some job
          ∧ job_id job = py_str (default (PyStr "") (it !! "id"))
          ∧ title job = default (PyStr "") (it !! "title")
          ∧ company job = default (PyStr "") (it !! "company")
          ∧ location job = default (PyStr "") (it !! "location")
          ∧ description job = default (PyStr "") (it !! "description")
          ∧ url job = default (PyStr "") (it !! "url")
          ∧ (it !! "id" = None → job_id job = "")
          ∧ (∀ s, it !! "id" = Some (PyStr s) → job_id job = s)
          ∧ (∀ n, it !! "id" = Some (PyInt n) → job_id job = Float.dec n)
          ∧ ((∀ key v, it !! key = Some v → is_text v = true) →
             is_text (title job) = true ∧ is_text (company job) = true
             ∧ is_text (location job) = true
             ∧ is_text (description job) = true
             ∧ is_text (url job) = true).
Proof.
  intros Hfile Hjson. exists (jobs_of_data data).
  split; [| split; [apply length_jobs_of_data |]].
  - unfold load_jobs, read_text. rewrite Hfile. simpl.
    by rewrite Hjson.
  - intros i it Hi. eexists. split; [by apply jobs_of_data_lookup |].
    simpl. unfold get.
    do 6 (split; [reflexivity |]).
    split; [by intros -> |]. split; [by intros s -> |].
    split; [by intros n -> |].
    intros Htext. repeat split; apply get_is_text, Htext.
Qed.

(** C8 (as amended). [log_application] appends one entry to the log and
    touches no other file.  The entry is the timestamp, [APPLIED], the
    identifier, the title, the company, the location, the score and the URL,
    separated by [" | "] and written as they are, and the single character
    of a newline after them; a finite score, as every score of [ats_score]
    is, is rendered with exactly two decimals.  The entry adds one line
    break to the log and as many more as the timestamp and the fields hold:
    it is exactly one line when they hold none.  A run over a list of pairs
    appends one entry per pair, in order.  The posting 42 of the
    specification with the score 91.5, logged to a new file, gives
    ["<timestamp> | APPLIED | 42 | Backend Engineer | Acme | Remote | 91.50 |
    http://x/42"] and a newline. *)
Theorem log_application_appends_entry
    (log_path : string) (job : Job) (score : spec_float) (w : world) :
  let w' := log_application utcnow_isoformat log_path job score w in
  let timestamp := utcnow_isoformat (clock w) in
  let line :=
    timestamp +:+ " | APPLIED | " +:+ job_id job +:+ " | "
      +:+ py_str (title job) +:+ " | " +:+ py_str (company job) +:+ " | "
      +:+ py_str (location job) +:+ " | " +:+ Float.format_2f score
      +:+ " | " +:+ py_str (url job) in
  content log_path w'
  = content log_path w +:+ line +:+ String (ascii_of_nat 10) ""
  ∧ (∀ p, p ≠ log_path → files w' !! p = files w !! p)
  ∧ (is_finite score = true → two_decimals (Float.format_2f score))
  ∧ (∀ resume_text job_description,
       two_decimals (Float.format_2f (ats_score resume_text job_description)))
  ∧ newlines (content log_path w')
    = newlines (content log_path w) + 1
      + newlines timestamp + newlines (job_id job)
      + newlines (py_str (title job)) + newlines (py_str (company job))
      + newlines (py_str (location job)) + newlines (py_str (url job))
  ∧ (no_newline timestamp → one_line_fields job →
     no_newline line
     ∧ newlines (content log_path w') = newlines (content log_path w) + 1)
  ∧ (∀ pairs,
       content log_path (apply_to_jobs utcnow_isoformat pairs log_path w)
       = content log_path w +:+ join (batch utcnow_isoformat (clock w) pairs)
       ∧ length (batch utcnow_isoformat (clock w) pairs) = length pairs)
  ∧ content "applications.log"
      (log_application (λ _, "<timestamp>") "applications.log" job42
         (Prim2SF 91.5%float) {| files := ∅; clock := 0 |})
    = "<timestamp> | APPLIED | 42 | Backend Engineer | Acme | Remote | 91.50 | http://x/42"
        +:+ String (ascii_of_nat 10) "".
Proof.
  intros w' timestamp line. subst w' line.
  rewrite content_log_application, newlines_app, newlines_entry_fields.
  fold timestamp.
  split; [by rewrite entry_line, !append_assoc |].
  split; [intros p Hp; by apply files_log_application |].
  split; [apply format_2f_two_decimals |].
  split; [intros r d; apply format_2f_two_decimals, ats_score_finite |].
  split; [lia |].
  split.
  { intros Ht (Hid & Htitle & Hcompany & Hlocation & Hurl). split.
    - assert (no_newline " | APPLIED | ") as Happlied
        by (unfold no_newline; repeat constructor; discriminate).
      assert (no_newline " | ") as Hsep
        by (unfold no_newline; repeat constructor; discriminate).
      repeat (apply no_newline_app;
              [assumption || apply no_newline_format_2f |]);
        assumption.
    - rewrite (newlines_no_newline _ Ht), (newlines_no_newline _ Hid),
        (newlines_no_newline _ Htitle), (newlines_no_newline _ Hcompany),
        (newlines_no_newline _ Hlocation), (newlines_no_newline _ Hurl).
      lia. }
  split; [| vm_compute; reflexivity].
  intros pairs. split; [apply apply_to_jobs_spec | apply length_batch].
Qed.

(** C9. A pass only appends to the log: what the log held before is the
    beginning of what it holds after one pass and after any number of passes,
    no other file changes, and the entries appended are those of the eligible
    pairs, which are computed from the resume, the jobs file and the threshold
    alone.  When the log is neither of the two input files, a second pass
    over the same inputs appends the same entries once more, under new
    timestamps: the two passes append twice as many entries as the first
    one, and a log that was empty before the first pass holds twice as many
    entries after the second as after the first. *)
Theorem run_once_appends_only (a : args) (w w1 : world) :
  run_once utcnow_isoformat json_loads a w = Ok w1 →
  ∃ (resume_text : string) (jobs : list Job)
    (elig : list (Job * spec_float)),
    read_text (resume a) w = Ok resume_text
    ∧ load_jobs json_loads (jobs_file a) w = Ok jobs
    ∧ filter_jobs_by_score jobs resume_text (threshold a) = Ok elig
    ∧ content (log a) w1
      = content (log a) w +:+ join (batch utcnow_isoformat (clock w) elig)
    ∧ (∀ p, p ≠ log a → files w1 !! p = files w !! p)
    ∧ (∀ n wn, passes utcnow_isoformat json_loads n a w = Ok wn →
         ∃ more, content (log a) wn = content (log a) w +:+ more)
    ∧ (log a ≠ resume a → log a ≠ jobs_file a →
       ∃ w2,
         run_once utcnow_isoformat json_loads a w1 = Ok w2
         ∧ passes utcnow_isoformat json_loads 2 a w = Ok w2
         ∧ content (log a) w2
           = content (log a) w
             +:+ join (batch utcnow_isoformat (clock w) elig
                       ++ batch utcnow_isoformat (clock w + length elig) elig)
         ∧ batch utcnow_isoformat (clock w) elig
           = zip_with stamp
               (utcnow_isoformat <$> seq (clock w) (length elig))
               (bodies elig)
         ∧ batch utcnow_isoformat (clock w + length elig) elig
           = zip_with stamp
               (utcnow_isoformat
                  <$> seq (clock w + length elig) (length elig))
               (bodies elig)
         ∧ length (batch utcnow_isoformat (clock w) elig
                   ++ batch utcnow_isoformat (clock w + length elig) elig)
           = 2 * length (batch utcnow_isoformat (clock w) elig)
         ∧ (content (log a) w = "" →
            content (log a) w1 = join (batch utcnow_isoformat (clock w) elig)
            ∧ content (log a) w2
              = join (batch utcnow_isoformat (clock w) elig
                      ++ batch utcnow_isoformat (clock w + length elig) elig))).
Proof.
  intros Hrun.
  destruct (run_once_inv _ _ _ Hrun) as (r & jobs & elig & Hr & Hl & Hf & ->).
  exists r, jobs, elig.
  destruct (apply_to_jobs_spec elig (log a) w) as (Hc & Hk & Hfiles).
  repeat (split; [done |]).
  split; [intros n wn; apply passes_extends |].
  intros Hres Hjobs.
  set (w1 := apply_to_jobs utcnow_isoformat elig (log a) w) in *.
  assert (run_once utcnow_isoformat json_loads a w1
          = Ok (apply_to_jobs utcnow_isoformat elig (log a) w1)) as Hrun2.
  { apply (run_once_intro a w1 r jobs elig); [| | exact Hf].
    - rewrite <- Hr. apply read_text_same_file, Hfiles. congruence.
    - rewrite <- Hl. unfold load_jobs.
      rewrite (read_text_same_file (jobs_file a) w w1); [done |].
      apply Hfiles. congruence. }
  exists (apply_to_jobs utcnow_isoformat elig (log a) w1).
  split; [exact Hrun2 |].
  split; [simpl; rewrite Hrun; simpl; rewrite Hrun2; reflexivity |].
  destruct (apply_to_jobs_spec elig (log a) w1) as (Hc2 & _ & _).
  split; [by rewrite Hc2, Hc, Hk, join_app, append_assoc |].
  split; [apply batch_stamps |]. split; [apply batch_stamps |].
  split; [rewrite length_app, !length_batch; lia |].
  intros Hempty. rewrite Hc2, Hc, Hk, Hempty, join_app. done.
Qed.

End PipelineFacts.

(** * Further properties of the code *)

(** ** Text normalizer: the shape of the tokens *)

Lemma lower_ascii_letter c :
  Regex.is_letter c = true → Regex.is_lower (lower_ascii c) = true.
Proof. destruct c as [[] [] [] [] [] [] [] []]; vm_compute; done. Qed.

Lemma lower_ascii_class c :
  Regex.is_class c = true → is_token_char (lower_ascii c) = true.
Proof. destruct c as [[] [] [] [] [] [] [] []]; vm_compute; done. Qed.

Lemma is_token_char_class c :
  is_token_char c = true → Regex.is_class c = true ∧ lower_ascii c = c.
Proof. destruct c as [[] [] [] [] [] [] [] []]; vm_compute; done. Qed.

Lemma is_lower_letter c :
  Regex.is_lower c = true → Regex.is_letter c = true ∧ lower_ascii c = c.
Proof. destruct c as [[] [] [] [] [] [] [] []]; vm_compute; done. Qed.

Lemma lookup_slice (l : list ascii) i j k :
  k < j - i → Regex.slice l (i, j) !! k = l !! (i + k).
Proof.
  intros Hk. unfold Regex.slice. simpl.
  rewrite lookup_take_lt by exact Hk. apply lookup_drop.
Qed.

(** The characters of a match: a letter, then a non-empty run of the
    class. *)
Lemma matches_slice (l : list ascii) i j :
  Regex.matches l i j →
  ∃ c r, Regex.slice l (i, j) = c :: r ∧ r ≠ []
         ∧ Regex.is_letter c = true ∧ Forall (λ x, Regex.is_class x = true) r.
Proof.
  intros (Hlen & Hj & Hlet & Hcls).
  pose proof (RegexFacts.length_slice l i j Hj) as Hl.
  destruct (Regex.slice l (i, j)) as [| c r] eqn:E; [simpl in Hl; lia |].
  exists c, r. split; [reflexivity |].
  split; [destruct r; [simpl in Hl; lia | done] |].
  split.
  - pose proof (lookup_slice l i j 0 ltac:(lia)) as H0.
    rewrite E, Nat.add_0_r in H0. simpl in H0.
    unfold Regex.letter_at in Hlet. by rewrite <- H0 in Hlet.
  - apply Forall_lookup. intros k x Hx.
    assert (S k < j - i) as Hk.
    { apply lookup_lt_Some in Hx. simpl in Hl. lia. }
    pose proof (lookup_slice l i j (S k) Hk) as HS.
    rewrite E in HS. simpl in HS. rewrite Hx in HS.
    specialize (Hcls (i + S k) ltac:(lia)).
    unfold Regex.class_at in Hcls. by rewrite <- HS in Hcls.
Qed.

Lemma is_token_lower c r :
  r ≠ [] → Regex.is_letter c = true →
  Forall (λ x, Regex.is_class x = true) r →
  is_token (lower (c :: r)) = true.
Proof.
  intros Hr Hc Hcls. unfold is_token, lower.
  rewrite list_ascii_of_string_of_list_ascii.
  destruct r as [| d r]; [done |]. cbn [map].
  apply andb_true_iff. split; [by apply lower_ascii_letter |].
  change (forallb is_token_char (map lower_ascii (d :: r)) = true).
  rewrite forallb_forall. intros x Hx. apply in_map_iff in Hx as (y & <- & Hy).
  apply lower_ascii_class. rewrite Forall_forall in Hcls. apply Hcls.
  by apply list_elem_of_In.
Qed.

Lemma normalize_words_tokens (text : string) :
  Forall (λ w, is_token w = true) (normalize_words text).
Proof.
  apply Forall_forall. intros w Hw.
  apply elem_of_normalize_words in Hw as (i & j & [Hm _] & ->).
  destruct (matches_slice _ _ _ Hm) as (c & r & E & Hr & Hc & Hcls).
  unfold group0. rewrite E. by apply is_token_lower.
Qed.

(** Inside a run of class characters the repetition goes on to the end. *)
Lemma run_all_class (s : list ascii) :
  Forall (λ x, Regex.is_class x = true) s →
  ∀ start pos, Regex.run start pos s = Regex.emit start (pos + length s).
Proof.
  induction 1 as [| c s Hc _ IH]; intros start pos; simpl.
  - by rewrite Nat.add_0_r.
  - rewrite Hc, IH. f_equal. lia.
Qed.

Lemma map_lower_ascii_fixed (l : list ascii) :
  Forall (λ x, lower_ascii x = x) l → map lower_ascii l = l.
Proof. induction 1 as [| c l Hc _ IH]; simpl; [done | by rewrite Hc, IH]. Qed.

Lemma normalize_words_token (w : string) :
  is_token w = true → normalize_words w = [w].
Proof.
  unfold is_token, normalize_words, finditer, group0.
  destruct (list_ascii_of_string w) as [| c [| d r]] eqn:E; try done.
  intros [Hc Hr]%andb_true_iff.
  assert (Forall (λ x, is_token_char x = true) (d :: r)) as Hall.
  { apply Forall_forall. intros x Hx. rewrite forallb_forall in Hr.
    apply Hr. by apply list_elem_of_In. }
  destruct (is_lower_letter c Hc) as [Hlet Hfix].
  assert (1 ≤ length (d :: r)) as Hlen by (simpl; lia).
  set (s := d :: r) in *. clearbody s.
  change (Regex.scan 0 (c :: s)) with
    (if Regex.is_letter c then Regex.run 0 1 s else Regex.scan 1 s).
  rewrite Hlet, run_all_class.
  2:{ eapply Forall_impl; [exact Hall |]. intros x Hx.
      by apply is_token_char_class. }
  unfold Regex.emit.
  replace (2 <=? 1 + length s - 0) with true
    by (symmetry; apply Nat.leb_le; lia).
  simpl map. f_equal. unfold Regex.slice. simpl fst. simpl snd.
  rewrite drop_0, take_ge by (simpl; lia). unfold lower.
  rewrite map_lower_ascii_fixed.
  - rewrite <- E. apply string_of_list_ascii_of_string.
  - constructor; [exact Hfix |].
    eapply Forall_impl; [exact Hall |]. intros x Hx.
    by apply is_token_char_class.
Qed.

Lemma normalize_words_concat (ws : list string) :
  Forall (λ w, is_token w = true) ws →
  normalize_words (String.concat " " ws) = ws.
Proof.
  induction 1 as [| w ws Hw Hws IH]; [reflexivity |].
  destruct ws as [| w' ws].
  - simpl. by apply normalize_words_token.
  - change (String.concat " " (w :: w' :: ws))
      with (w +:+ " " +:+ String.concat " " (w' :: ws)).
    rewrite normalize_words_space, IH, normalize_words_token by done.
    reflexivity.
Qed.

Lemma is_token_full_stop (w : string) :
  is_token w = true → is_token (w +:+ ".") = true.
Proof.
  unfold is_token. rewrite list_ascii_of_string_app.
  destruct (list_ascii_of_string w) as [| c [| d r]]; try done.
  intros [Hc Hr]%andb_true_iff. simpl app.
  change (Regex.is_lower c
          && forallb is_token_char ((d :: r) ++ list_ascii_of_string ".")
          = true).
  by rewrite forallb_app, Hc, Hr.
Qed.

(** X2. Every token starts with a lower-case ASCII letter and goes on with
    one or more of lower-case letters, digits, [+], [.], [#], [-]: no token
    holds an upper-case letter, a blank or a character outside ASCII. *)
Theorem normalize_words_alphabet (text : string) :
  Forall (λ w, is_token w = true) (normalize_words text)
  ∧ (∀ w c, w ∈ normalize_words text → In c (list_ascii_of_string w) →
       Regex.is_upper c = false ∧ Regex.is_class c = true
       ∧ nat_of_ascii c < 128).
Proof.
  split; [apply normalize_words_tokens |].
  intros w c Hw Hc.
  pose proof (normalize_words_tokens text) as H.
  rewrite Forall_forall in H. specialize (H w Hw).
  unfold is_token in H.
  destruct (list_ascii_of_string w) as [| c0 [| d r]]; try done.
  apply andb_true_iff in H as [H0 Hr].
  assert (is_token_char c = true) as Hcc.
  { destruct Hc as [<- | Hc].
    - unfold is_token_char. by rewrite H0.
    - rewrite forallb_forall in Hr. by apply Hr. }
  clear -Hcc. revert Hcc.
  destruct c as [[] [] [] [] [] [] [] []]; vm_compute; try done;
    intros _; repeat split; lia.
Qed.

(** X3. The tokens are the fixed points of the normalizer: a text is its own
    single token exactly when it has the shape of a token, every token of a
    text normalizes to itself, and the tokens of a text joined by blanks
    normalize to the same tokens.  A full stop written after a token stays
    in it: the text is then one token, the full stop included. *)
Theorem normalize_words_fixed_points (text w : string) :
  (is_token w = true ↔ normalize_words w = [w])
  ∧ (w ∈ normalize_words text → normalize_words w = [w])
  ∧ normalize_words (String.concat " " (normalize_words text))
    = normalize_words text
  ∧ (is_token w = true → normalize_words (w +:+ ".") = [w +:+ "."]).
Proof.
  split; [split | split; [| split]].
  - apply normalize_words_token.
  - intros H. pose proof (normalize_words_tokens w) as Hall.
    rewrite H in Hall. by inversion Hall.
  - intros Hw. apply normalize_words_token.
    pose proof (normalize_words_tokens text) as H.
    rewrite Forall_forall in H. by apply H.
  - apply normalize_words_concat, normalize_words_tokens.
  - intros Hw. by apply normalize_words_token, is_token_full_stop.
Qed.

(** X4. A character outside the class of the pattern (a blank, a comma, a
    line break, any byte of a character outside ASCII) separates: the tokens
    of two texts joined by it are the tokens of the first followed by those
    of the second, and at either end of a text it changes nothing. *)
Theorem normalize_words_separator (sep : ascii) (a b : string) :
  Regex.is_class sep = false →
  normalize_words (a +:+ String sep b) = normalize_words a ++ normalize_words b
  ∧ normalize_words (a +:+ String sep "") = normalize_words a
  ∧ normalize_words (String sep b) = normalize_words b.
Proof.
  intros Hsep. split; [by apply normalize_words_join |]. split.
  - rewrite normalize_words_join by done. apply app_nil_r.
  - change (String sep b) with ("" +:+ String sep b).
    by rewrite normalize_words_join.
Qed.

(** ** Text normalizer: how many tokens *)

(** Each match takes two characters at least and one more separates it from
    the next. *)
Lemma scan_run_count : ∀ s,
  (∀ pos, 3 * length (Regex.scan pos s) ≤ length s + 1)
  ∧ (∀ start pos, start < pos →
       3 * length (Regex.run start pos s)
       ≤ length s + 1 + Nat.min (pos - start) 2).
Proof.
  induction s as [| c s [IHscan IHrun]]; split; intros; simpl.
  - lia.
  - unfold Regex.emit. destruct (2 <=? pos - start) eqn:E; simpl; [| lia].
    apply Nat.leb_le in E. lia.
  - destruct (Regex.is_letter c).
    + specialize (IHrun pos (S pos) ltac:(lia)). lia.
    + specialize (IHscan (S pos)). lia.
  - destruct (Regex.is_class c).
    + specialize (IHrun start (S pos) ltac:(lia)). lia.
    + rewrite length_app. specialize (IHscan (S pos)).
      unfold Regex.emit. destruct (2 <=? pos - start) eqn:E; simpl; [| lia].
      apply Nat.leb_le in E. lia.
Qed.

Lemma normalize_words_count (text : string) :
  3 * length (normalize_words text) ≤ String.length text + 1.
Proof.
  unfold normalize_words, finditer. rewrite length_map.
  destruct (scan_run_count (list_ascii_of_string text)) as [H _].
  specialize (H 0).
  rewrite <- (string_of_list_ascii_of_string text) at 2.
  by rewrite RegexFacts.length_string_of_list_ascii.
Qed.

Lemma token_set_size (text : string) :
  size (token_set text) ≤ length (normalize_words text).
Proof.
  unfold token_set.
  induction (normalize_words text) as [| w l IH].
  - change (size (∅ : gset string) ≤ 0). by rewrite size_empty.
  - change (size ({[w]} ∪ (list_to_set l : gset string)) ≤ S (length l)).
    rewrite size_union_alt, size_singleton.
    assert ((list_to_set l : gset string) ∖ {[w]} ⊆ list_to_set l) as Hsub
      by apply subseteq_difference_l, reflexivity.
    apply subseteq_size in Hsub. lia.
Qed.

Lemma scan_no_letter (l : list ascii) :
  Forall (λ c, Regex.is_letter c = false) l → ∀ pos, Regex.scan pos l = [].
Proof.
  induction 1 as [| c l Hc _ IH]; intros pos; simpl; [done |].
  rewrite Hc. apply IH.
Qed.

(** X5. A text whose UTF-8 encoding has [n] bytes ([n] characters for an
    ASCII text) has at most [(n + 1) / 3] tokens, and so has its token set;
    a text of fewer than two bytes has none. *)
Theorem normalize_words_count_bound (text : string) :
  3 * length (normalize_words text) ≤ String.length text + 1
  ∧ 3 * size (token_set text) ≤ String.length text + 1
  ∧ (String.length text < 2 → normalize_words text = []).
Proof.
  pose proof (normalize_words_count text). pose proof (token_set_size text).
  split; [done | split; [lia |]].
  intros Hlen. destruct (normalize_words text); [done | simpl in *; lia].
Qed.

(** ** Scores: a grid of hundredths *)

Module ScoreGrid.
Import Float FloatFacts FloatError.
Local Open Scope Z_scope.
Local Open Scope Q_scope.

(** The hundredths of a double are within one half of its hundredfold. *)
Lemma hundredths_close (M : positive) (e : Z) :
  (e ≤ 0)%Z →
  let v := Zpos M # Z.to_pos (2 ^ (- e)) in
  inject_Z (hundredths M e) - (1 # 2) <= 100 * v
  ∧ 100 * v <= inject_Z (hundredths M e) + (1 # 2).
Proof.
  intros He v. subst v. unfold hundredths.
  rewrite (pow2_nonpos e), (pow2_nonneg (- e)), Z.mul_1_r by lia.
  assert (0 < 2 ^ (- e))%Z as HD by (apply Z.pow_pos_nonneg; lia).
  pose proof (round_half_even_error (100 * Z.pos M) (2 ^ (- e)) HD) as H.
  set (j := round_half_even _ _) in *. clearbody j.
  Q_to_Z_goal. rewrite !Z2Pos.id by lia.
  set (D := (2 ^ (- e))%Z) in *. clearbody D. split; lia.
Qed.

Lemma hundredths_unique (M : positive) (e j : Z) :
  (e ≤ 0)%Z →
  let v := Zpos M # Z.to_pos (2 ^ (- e)) in
  inject_Z j - (1 # 2) < 100 * v → 100 * v < inject_Z j + (1 # 2) →
  hundredths M e = j.
Proof.
  intros He v Hlo Hhi. subst v. unfold hundredths.
  rewrite (pow2_nonpos e), (pow2_nonneg (- e)), Z.mul_1_r by lia.
  assert (0 < 2 ^ (- e))%Z as HD by (apply Z.pow_pos_nonneg; lia).
  apply round_half_even_unique; [exact HD |].
  unfold Qlt, Qminus, Qplus, Qopp, Qmult, inject_Z in Hlo, Hhi.
  cbn [Qnum Qden] in Hlo, Hhi.
  repeat rewrite Pos.mul_1_l in Hlo. repeat rewrite Pos.mul_1_l in Hhi.
  rewrite Z2Pos.id in Hlo by lia. rewrite Z2Pos.id in Hhi by lia.
  set (D := (2 ^ (- e))%Z) in *. clearbody D. lia.
Qed.

(** Every number of hundredths up to 100.00 is read back from its double. *)
Lemma RN_hundredths (j : Z) :
  (0 ≤ j ≤ 10000)%Z → hundredths_of (RN false j 100) = j.
Proof.
  intros Hj.
  destruct (Z.eq_dec j 0%Z) as [-> | Hj0]; [reflexivity |].
  pose proof (RN_within 100 j 100 ltac:(lia) ltac:(lia) ltac:(lia) ltac:(lia))
    as Hin.
  destruct (RN_close_Q j 100 7 ltac:(lia) ltac:(lia) ltac:(lia) ltac:(lia))
    as [H1 H2].
  change (Z.to_pos (2 ^ (53 - 7))) with 70368744177664%positive in *.
  change (Z.to_pos 100) with 100%positive in *.
  destruct (within_to_Q _ _ Hin) as [E | (M & e & E & He & HQ)].
  - rewrite E in H2. change (to_Q (S754_zero false)) with 0 in H2.
    exfalso. revert H2. unfold Qle, Qminus, Qplus, Qopp. cbn [Qnum Qden]. lia.
  - rewrite E in *. simpl hundredths_of.
    apply hundredths_unique; [exact He | |]; cbv zeta; rewrite <- HQ.
    + assert (j # 100 == inject_Z j * (1 # 100)) as Hq'
        by (unfold Qeq, Qmult, inject_Z; cbn [Qnum Qden]; lia).
      rewrite Hq' in H2.
      set (v := to_Q _) in *. set (J := inject_Z j) in *. clearbody v J. lra.
    + assert (j # 100 == inject_Z j * (1 # 100)) as Hq'
        by (unfold Qeq, Qmult, inject_Z; cbn [Qnum Qden]; lia).
      rewrite Hq' in H1.
      set (v := to_Q _) in *. set (J := inject_Z j) in *. clearbody v J. lra.
Qed.

Lemma RN_hundredths_inj (j j' : Z) :
  (0 ≤ j ≤ 10000)%Z → (0 ≤ j' ≤ 10000)%Z →
  RN false j 100 = RN false j' 100 → j = j'.
Proof.
  intros Hj Hj' H. apply (f_equal hundredths_of) in H.
  by rewrite !RN_hundredths in H.
Qed.

(** The score for [m] of [n] tokens: a number of hundredths between 0 and
    10000, within one half and [2 ^ -38] of the exact [100 * 100 * m / n]. *)
Lemma quotient_first_hundredths (m n : nat) :
  (m ≤ n)%nat → (0 < n)%nat →
  ∃ j : Z,
    (0 ≤ j ≤ 10000)%Z
    ∧ quotient_first_score m n = RN false j 100
    ∧ inject_Z j - (1 # 2) - (1 # 274877906944)
      < 10000 * (Z.of_nat m # Z.to_pos (Z.of_nat n))
    ∧ 10000 * (Z.of_nat m # Z.to_pos (Z.of_nat n))
      < inject_Z j + (1 # 2) + (1 # 274877906944).
Proof.
  intros Hmn Hn.
  destruct (product_close m n Hmn Hn) as [H1 H2]. cbv zeta in H1, H2.
  pose proof (mul_hundred_within _ (int_truediv_within m n Hmn Hn)) as Hin.
  unfold quotient_first_score.
  set (x := mul (int_truediv m n) hundred) in *.
  set (q := Z.of_nat m # Z.to_pos (Z.of_nat n)) in *.
  destruct Hin as [E | (M & e & E & He & HM)].
  - exists 0%Z. rewrite E in *. split; [lia |]. split; [reflexivity |].
    change (to_Q (S754_zero false)) with 0 in *.
    change (inject_Z 0) with 0. clearbody q. split; lra.
  - exists (hundredths M e). rewrite E in *.
    assert (0 < 2 ^ (- e))%Z as HD by (apply Z.pow_pos_nonneg; lia).
    split; [split; [apply hundredths_nonneg |] |].
    { unfold hundredths.
      rewrite (pow2_nonpos e), (pow2_nonneg (- e)) by lia.
      apply round_half_even_le; [assumption | nia]. }
    split; [reflexivity |].
    destruct (hundredths_close M e He) as [H3 H4]. cbv zeta in H3, H4.
    rewrite to_Q_finite in H1, H2 by exact He.
    set (v := Z.pos M # Z.to_pos (2 ^ (- e))) in *.
    set (J := inject_Z (hundredths M e)) in *.
    clearbody v J q. split; lra.
Qed.

End ScoreGrid.

(** ** Scores: their order *)

Module ScoreOrder.
Import Float FloatFacts FloatError ScoreGrid.
Local Open Scope Z_scope.
Local Open Scope Q_scope.

Lemma hundred_grid : RN false 10000 100 = hundred.
Proof. vm_compute. reflexivity. Qed.

Lemma zero_grid : RN false 0 100 = zero.
Proof. reflexivity. Qed.

(** The doubles of the hundredths are in the order of the hundredths. *)
Lemma RN_hundredths_le (j j' : Z) :
  (0 ≤ j ≤ j')%Z → (j' ≤ 10000)%Z →
  le (RN false j 100) (RN false j' 100) = true.
Proof.
  intros Hj Hj'.
  pose proof (RN_within 100 j 100 ltac:(lia) ltac:(lia) ltac:(lia) ltac:(lia))
    as Hin.
  pose proof (RN_within 100 j' 100 ltac:(lia) ltac:(lia) ltac:(lia) ltac:(lia))
    as Hin'.
  destruct (Z.eq_dec j j') as [<- | Hne].
  { destruct Hin as [-> | (M & e & -> & _)]; [reflexivity |].
    unfold le. apply Qle_bool_iff, Qle_refl. }
  destruct (RN_close_Q j 100 7 ltac:(lia) ltac:(lia) ltac:(lia) ltac:(lia))
    as [H1 _].
  destruct (RN_close_Q j' 100 7 ltac:(lia) ltac:(lia) ltac:(lia) ltac:(lia))
    as [_ H2].
  change (Z.to_pos (2 ^ (53 - 7))) with 70368744177664%positive in *.
  change (Z.to_pos 100) with 100%positive in *.
  assert (j # 100 == inject_Z j * (1 # 100)) as Hq
    by (unfold Qeq, Qmult, inject_Z; cbn [Qnum Qden]; lia).
  assert (j' # 100 == inject_Z j' * (1 # 100)) as Hq'
    by (unfold Qeq, Qmult, inject_Z; cbn [Qnum Qden]; lia).
  assert (inject_Z j + 1 <= inject_Z j') as Hgap.
  { unfold Qle, Qplus, inject_Z. cbn [Qnum Qden]. lia. }
  rewrite Hq in H1. rewrite Hq' in H2.
  assert (to_Q (RN false j 100) <= to_Q (RN false j' 100)) as Hle.
  { set (v := to_Q _) in *. set (v' := to_Q _) in *.
    set (J := inject_Z j) in *. set (J' := inject_Z j') in *.
    clearbody v v' J J'. lra. }
  destruct Hin as [E | (M & e & E & _)], Hin' as [E' | (M' & e' & E' & _)];
    rewrite E, E' in *; unfold le; by apply Qle_bool_iff.
Qed.

(** The score for [m] of [n] tokens is at most the score for [m'] of [n']
    when [m / n] is below [m' / n'] by at least [2 ^ -37 / 10000]. *)
Lemma quotient_first_score_le (m n m' n' : nat) :
  (m ≤ n)%nat → (0 < n)%nat → (m' ≤ n')%nat → (0 < n')%nat →
  (Z.of_nat n * Z.of_nat n'
   ≤ 10000 * 2 ^ 37
     * (Z.of_nat m' * Z.of_nat n - Z.of_nat m * Z.of_nat n'))%Z →
  le (quotient_first_score m n) (quotient_first_score m' n') = true.
Proof.
  intros Hmn Hn Hmn' Hn' Hgap.
  destruct (quotient_first_hundredths m n Hmn Hn) as (j & Hj & -> & Hlo & _).
  destruct (quotient_first_hundredths m' n' Hmn' Hn')
    as (j' & Hj' & -> & _ & Hhi).
  apply RN_hundredths_le; [| lia]. split; [lia |].
  assert (inject_Z j - inject_Z j' < 1) as Hlt.
  { assert (10000 * (Z.of_nat m # Z.to_pos (Z.of_nat n)) + (1 # 137438953472)
            <= 10000 * (Z.of_nat m' # Z.to_pos (Z.of_nat n'))) as Hq.
    { Q_to_Z_goal. rewrite !Z2Pos.id by lia.
      change (2 ^ 37)%Z with 137438953472%Z in Hgap.
      set (N := Z.of_nat n) in *. set (N' := Z.of_nat n') in *.
      set (a := Z.of_nat m) in *. set (a' := Z.of_nat m') in *.
      assert (0 < N)%Z by lia. assert (0 < N')%Z by lia.
      clearbody N N' a a'. nia. }
    set (q := 10000 * _) in *. set (q' := 10000 * _) in *.
    set (J := inject_Z j) in *. set (J' := inject_Z j') in *.
    clearbody q q' J J'. lra. }
  revert Hlt. unfold Qlt, Qminus, Qplus, Qopp, inject_Z. cbn [Qnum Qden]. lia.
Qed.

Lemma quotient_first_score_full (n : nat) :
  (0 < n)%nat → quotient_first_score n n = hundred.
Proof.
  intros Hn.
  destruct (quotient_first_hundredths n n ltac:(lia) Hn)
    as (j & Hj & -> & Hlo & Hhi).
  rewrite <- hundred_grid. f_equal.
  revert Hlo Hhi. Q_to_Z_goal. rewrite !Z2Pos.id by lia.
  set (N := Z.of_nat n). assert (0 < N)%Z by lia. clearbody N. nia.
Qed.

Lemma quotient_first_score_none (n : nat) :
  (0 < n)%nat → quotient_first_score 0 n = zero.
Proof.
  intros Hn.
  destruct (quotient_first_hundredths 0 n ltac:(lia) Hn)
    as (j & Hj & -> & Hlo & Hhi).
  rewrite <- zero_grid. f_equal.
  revert Hlo Hhi. Q_to_Z_goal. rewrite !Z2Pos.id by lia.
  set (N := Z.of_nat n). assert (0 < N)%Z by lia. clearbody N. nia.
Qed.

Lemma quotient_first_score_full_inv (m n : nat) :
  (m ≤ n)%nat → (0 < n)%nat → (Z.of_nat n < 20000)%Z →
  quotient_first_score m n = hundred → m = n.
Proof.
  intros Hmn Hn Hsmall.
  destruct (quotient_first_hundredths m n Hmn Hn)
    as (j & Hj & -> & Hlo & Hhi).
  rewrite <- hundred_grid. intros E.
  apply RN_hundredths_inj in E; [| lia | lia]. subst j.
  revert Hlo. Q_to_Z_goal. rewrite !Z2Pos.id by lia.
  set (N := Z.of_nat n). set (a := Z.of_nat m).
  assert (0 < N < 20000)%Z by lia. assert (a ≤ N)%Z by lia.
  assert (a = N → m = n) as Hinj by lia.
  clearbody N a. intros Hb. apply Hinj. nia.
Qed.

Lemma quotient_first_score_none_inv (m n : nat) :
  (m ≤ n)%nat → (0 < n)%nat → (Z.of_nat n < 20000)%Z →
  quotient_first_score m n = zero → m = 0%nat.
Proof.
  intros Hmn Hn Hsmall.
  destruct (quotient_first_hundredths m n Hmn Hn)
    as (j & Hj & -> & Hlo & Hhi).
  rewrite <- zero_grid. intros E.
  apply RN_hundredths_inj in E; [| lia | lia]. subst j.
  revert Hhi. Q_to_Z_goal. rewrite !Z2Pos.id by lia.
  set (N := Z.of_nat n). set (a := Z.of_nat m).
  assert (0 < N < 20000)%Z by lia. assert (0 ≤ a)%Z by lia.
  assert (a = 0%Z → m = 0%nat) as Hinj by lia.
  clearbody N a. intros Hb. apply Hinj. nia.
Qed.

End ScoreOrder.

(** ** Scorer: full and empty overlap, monotonicity *)

Lemma token_set_overlap_size (r j : string) :
  size (token_set r ∩ token_set j) ≤ size (token_set j).
Proof. apply subseteq_size, intersection_subseteq_r. Qed.

Lemma token_set_nonempty_size (j : string) :
  token_set j ≠ ∅ ↔ 0 < size (token_set j).
Proof.
  split.
  - intros H. destruct (size (token_set j)) eqn:E; [| lia].
    apply size_empty_iff in E. destruct H. by apply leibniz_equiv.
  - intros H E. rewrite E, size_empty in H. lia.
Qed.

Lemma ats_score_nonempty (r j : string) :
  token_set j ≠ ∅ →
  ats_score r j
  = quotient_first_score (size (token_set r ∩ token_set j))
                         (size (token_set j)).
Proof.
  intros H%token_set_nonempty_size. rewrite ats_score_token_sets.
  destruct (size (token_set j) =? 0) eqn:E; [| reflexivity].
  apply Nat.eqb_eq in E. lia.
Qed.

Lemma ats_score_empty (r j : string) :
  token_set j = ∅ → ats_score r j = Float.zero.
Proof.
  intros H. rewrite ats_score_token_sets, H, size_empty. reflexivity.
Qed.

Lemma ats_score_no_overlap (r j : string) :
  token_set r ∩ token_set j = ∅ → ats_score r j = Float.zero.
Proof.
  intros Hcap.
  destruct (decide (token_set j = ∅)) as [E | HJ];
    [by apply ats_score_empty |].
  rewrite ats_score_nonempty, Hcap, size_empty by exact HJ.
  apply ScoreOrder.quotient_first_score_none.
  by apply token_set_nonempty_size.
Qed.

Lemma le_score_refl (r j : string) :
  Float.le (ats_score r j) (ats_score r j) = true.
Proof.
  destruct (ats_score_within r j) as [-> | (m & e & -> & _)]; [reflexivity |].
  unfold Float.le. apply Qle_bool_iff, Qle_refl.
Qed.

Lemma token_set_space (a b : string) :
  token_set (a +:+ " " +:+ b) = token_set a ∪ token_set b.
Proof.
  unfold token_set. rewrite normalize_words_space.
  apply leibniz_equiv. apply list_to_set_app.
Qed.

(** X6. A text without an ASCII letter (digits, punctuation, a text in
    another script) has no token: as a job description it scores 0.0 against
    every resume, and as a resume it scores 0.0 against every job
    description. *)
Theorem normalize_words_no_letters (text : string) :
  Forall (λ c, Regex.is_letter c = false) (list_ascii_of_string text) →
  normalize_words text = []
  ∧ ∀ other : string,
      ats_score other text = Float.zero ∧ ats_score text other = Float.zero.
Proof.
  intros Hno.
  assert (normalize_words text = []) as Hnone.
  { unfold normalize_words, finditer. by rewrite scan_no_letter. }
  assert (token_set text = ∅) as Hempty
    by (unfold token_set; by rewrite Hnone).
  split; [exact Hnone |]. intros other. split.
  - by apply ats_score_empty.
  - apply ats_score_no_overlap. rewrite Hempty. apply intersection_empty_l_L.
Qed.

(** X7. When every token of the job description is in the resume the score
    is 100.0, as it is for a resume that is the job description itself, and
    when none is the score is 0.0.  For a job description of fewer than
    20000 distinct tokens the converses hold: the score is 100.0 only if
    every token of the job description is in the resume, and 0.0 only if
    none is. *)
Theorem ats_score_full_or_no_overlap (resume_text job_description : string) :
  let R := token_set resume_text in
  let J := token_set job_description in
  let score := ats_score resume_text job_description in
  (J ≠ ∅ → J ⊆ R → score = Float.hundred)
  ∧ (J ≠ ∅ → ats_score job_description job_description = Float.hundred)
  ∧ (R ∩ J = ∅ → score = Float.zero)
  ∧ (J ≠ ∅ → (Z.of_nat (size J) < 20000)%Z →
     (score = Float.hundred ↔ J ⊆ R) ∧ (score = Float.zero ↔ R ∩ J = ∅)).
Proof.
  intros R J score.
  assert (J ≠ ∅ → J ⊆ R → score = Float.hundred) as Hfull.
  { intros HJ Hsub. subst score. rewrite ats_score_nonempty by exact HJ.
    fold R J. rewrite (comm_L (∩) R J), (subseteq_intersection_1_L J R Hsub).
    apply ScoreOrder.quotient_first_score_full.
    by apply token_set_nonempty_size. }
  assert (R ∩ J = ∅ → score = Float.zero) as Hnone
    by apply ats_score_no_overlap.
  split; [exact Hfull |]. split.
  { intros HJ. rewrite ats_score_nonempty by exact HJ. fold J.
    rewrite (idemp_L (∩) J).
    apply ScoreOrder.quotient_first_score_full.
    by apply token_set_nonempty_size. }
  split; [exact Hnone |].
  intros HJ Hsmall.
  pose proof (token_set_overlap_size resume_text job_description) as Hmn.
  pose proof (proj1 (token_set_nonempty_size job_description) HJ) as Hn.
  fold R J in Hmn, Hn.
  split; (split; [| by auto]); subst score;
    rewrite ats_score_nonempty by exact HJ; fold R J; intros E.
  - apply ScoreOrder.quotient_first_score_full_inv in E; [| done..].
    assert (R ∩ J = J) as Heq.
    { apply set_subseteq_size_eq; [apply intersection_subseteq_r | lia]. }
    rewrite <- Heq. apply intersection_subseteq_l.
  - apply ScoreOrder.quotient_first_score_none_inv in E; [| done..].
    apply leibniz_equiv. by apply size_empty_iff.
Qed.



(** ** Scores in the log *)

Lemma to_int_not_nil (n : Z) :
  Z.to_int n ≠ Decimal.Pos Decimal.Nil ∧ Z.to_int n ≠ Decimal.Neg Decimal.Nil.
Proof.
  destruct n as [| p | p]; cbn [Z.to_int]; split; try discriminate;
    intros [= E]; by apply (DecimalPos.Unsigned.to_uint_nonnil p).
Qed.

(** Two integers with the same decimal numeral are equal. *)
Lemma dec_inj (n n' : Z) : Float.dec n = Float.dec n' → n = n'.
Proof.
  unfold Float.dec. intros E. apply DecimalZ.to_int_inj.
  apply (f_equal NilZero.int_of_string) in E.
  rewrite !NilZero.isi in E by apply to_int_not_nil.
  by injection E.
Qed.

Lemma string_app_inj_tail (a a' b b' : string) :
  String.length b = String.length b' →
  a +:+ b = a' +:+ b' → a = a' ∧ b = b'.
Proof.
  intros Hlen E.
  apply (f_equal list_ascii_of_string) in E.
  rewrite !list_ascii_of_string_app in E.
  apply app_inj_2 in E as [Ea Eb].
  - split.
    + rewrite <- (string_of_list_ascii_of_string a),
        <- (string_of_list_ascii_of_string a'). by rewrite Ea.
    + rewrite <- (string_of_list_ascii_of_string b),
        <- (string_of_list_ascii_of_string b'). by rewrite Eb.
  - rewrite <- (string_of_list_ascii_of_string b),
      <- (string_of_list_ascii_of_string b') in Hlen.
    by rewrite !RegexFacts.length_string_of_list_ascii in Hlen.
Qed.

Lemma render_hundredths_inj (k k' : Z) :
  (0 ≤ k)%Z → (0 ≤ k')%Z →
  render_hundredths k = render_hundredths k' → k = k'.
Proof.
  intros Hk Hk'. unfold render_hundredths.
  assert (∀ n, (0 ≤ n)%Z →
            ∃ c1 c2, Float.dec (n mod 100 / 10) = String c1 ""
                     ∧ Float.dec (n mod 10) = String c2 "") as Hdigits.
  { intros n Hn.
    pose proof (Z.mod_pos_bound n 100 ltac:(lia)).
    pose proof (Z.mod_pos_bound n 10 ltac:(lia)).
    assert (n mod 100 / 10 < 10)%Z by (apply Z.div_lt_upper_bound; lia).
    assert (0 ≤ n mod 100 / 10)%Z by (apply Z.div_pos; lia).
    destruct (dec_one_digit (n mod 100 / 10)) as (c1 & E1 & _); [lia |].
    destruct (dec_one_digit (n mod 10)) as (c2 & E2 & _); [lia |].
    by exists c1, c2. }
  destruct (Hdigits k Hk) as (c1 & c2 & E1 & E2).
  destruct (Hdigits k' Hk') as (c1' & c2' & E1' & E2').
  intros E.
  assert (Float.dec (k / 100) = Float.dec (k' / 100)
          ∧ Float.dec (k mod 100 / 10) = Float.dec (k' mod 100 / 10)
          ∧ Float.dec (k mod 10) = Float.dec (k' mod 10)) as (Ea & Eb & Ec).
  { rewrite E1, E2, E1', E2' in *.
    apply string_app_inj_tail in E as [Ea Etail]; [| reflexivity].
    injection Etail as -> ->. done. }
  apply dec_inj in Ea, Eb, Ec.
  pose proof (Z.div_mod k 100 ltac:(lia)).
  pose proof (Z.div_mod k' 100 ltac:(lia)).
  pose proof (Z.div_mod (k mod 100) 10 ltac:(lia)) as H1.
  pose proof (Z.div_mod (k' mod 100) 10 ltac:(lia)) as H2.
  assert (∀ n, (n mod 100) mod 10 = n mod 10)%Z as Hmod.
  { intros n. symmetry. pose proof (Z.div_mod n 100 ltac:(lia)) as Hn.
    rewrite Hn at 1. rewrite Z.add_comm, Z.mul_comm.
    replace (n / 100 * 100)%Z with (n / 100 * 10 * 10)%Z by lia.
    apply Z.mod_add. lia. }
  rewrite Hmod in H1, H2. lia.
Qed.

Lemma format_2f_grid (k : Z) :
  (0 ≤ k ≤ 10000)%Z →
  Float.format_2f (Float.RN false k 100) = render_hundredths k.
Proof.
  intros Hk. pose proof (ScoreGrid.RN_hundredths k Hk) as H.
  destruct (Z.eq_dec k 0%Z) as [-> | Hk0]; [reflexivity |].
  pose proof (FloatFacts.RN_within 100 k 100
                ltac:(lia) ltac:(lia) ltac:(lia) ltac:(lia)) as Hin.
  destruct Hin as [E | (m & e & E & _)]; rewrite E in *; simpl in H.
  - lia.
  - unfold Float.format_2f. rewrite H. reflexivity.
Qed.

Lemma ats_score_grid (r j : string) :
  ∃ k : Z, (0 ≤ k ≤ 10000)%Z ∧ ats_score r j = Float.RN false k 100.
Proof.
  destruct (decide (token_set j = ∅)) as [E | HJ].
  - exists 0%Z. split; [lia |]. by rewrite ats_score_empty.
  - rewrite ats_score_nonempty by exact HJ.
    destruct (ScoreGrid.quotient_first_hundredths
                (size (token_set r ∩ token_set j)) (size (token_set j)))
      as (k & Hk & E & _);
      [apply token_set_overlap_size | by apply token_set_nonempty_size |].
    by exists k.
Qed.

(** X10. A score is the double of a whole number [k] of hundredths between
    0 and 10000.  Rounding it to two decimals once more returns it, the
    format [.2f] of the log writes [k] itself, integer part, point and two
    digits, and two scores written alike in the log are the same score:
    the figure of the log loses nothing. *)
Theorem ats_score_logged_exactly (r j : string) :
  ∃ k : Z,
    (0 ≤ k ≤ 10000)%Z
    ∧ ats_score r j = Float.RN false k 100
    ∧ hundredths_of (ats_score r j) = k
    ∧ Float.round2 (ats_score r j) = ats_score r j
    ∧ Float.format_2f (ats_score r j) = render_hundredths k
    ∧ ∀ r' j' : string,
        Float.format_2f (ats_score r' j') = Float.format_2f (ats_score r j) →
        ats_score r' j' = ats_score r j.
Proof.
  destruct (ats_score_grid r j) as (k & Hk & E).
  exists k. rewrite E.
  split; [exact Hk | split; [reflexivity |]].
  split; [by apply ScoreGrid.RN_hundredths |].
  split.
  { pose proof (ScoreGrid.RN_hundredths k Hk) as H.
    destruct (Float.RN false k 100) as [| | | s m e] eqn:Ek;
      try reflexivity.
    simpl in H. unfold Float.round2. rewrite H.
    pose proof (FloatFacts.RN_within 100 k 100
                  ltac:(lia) ltac:(lia) ltac:(lia) ltac:(lia)) as Hin.
    rewrite Ek in Hin. destruct Hin as [? | (? & ? & [= -> _ _] & _)]; done. }
  split; [by apply format_2f_grid |].
  intros r' j'. destruct (ats_score_grid r' j') as (k' & Hk' & ->).
  rewrite !format_2f_grid by done.
  intros Heq%render_hundredths_inj; [by rewrite Heq | lia | lia].
Qed.

(** ** Filter: errors, composition, extreme thresholds *)

Lemma forallb_false_elem_of {A : Type} (f : A → bool) (l : list A) :
  forallb f l = false ↔ ∃ x, x ∈ l ∧ f x = false.
Proof.
  induction l as [| a l IH]; simpl.
  - split; [done | intros (x & Hin & _); by apply elem_of_nil in Hin].
  - rewrite andb_false_iff, IH. split.
    + intros [H | (x & Hin & H)].
      * exists a. split; [apply list_elem_of_here | exact H].
      * exists x. split; [by apply list_elem_of_further | exact H].
    + intros (x & Hin & H). apply elem_of_cons in Hin as [-> | Hin].
      * by left.
      * right. by exists x.
Qed.

Lemma all_text_app (jobs1 jobs2 : list Job) :
  all_text (jobs1 ++ jobs2) = all_text jobs1 && all_text jobs2.
Proof. unfold all_text. apply forallb_app. Qed.

Lemma eligible_app (jobs1 jobs2 : list Job) resume_text threshold :
  eligible (jobs1 ++ jobs2) resume_text threshold
  = eligible jobs1 resume_text threshold
    ++ eligible jobs2 resume_text threshold.
Proof.
  induction jobs1 as [| job jobs1 IH]; [reflexivity |].
  rewrite <- app_comm_cons, !eligible_cons. cbv zeta.
  destruct (Float.ge _ threshold); by rewrite IH.
Qed.

Lemma eligible_fst_text (jobs : list Job) resume_text threshold :
  all_text jobs = true →
  all_text (eligible jobs resume_text threshold).*1 = true.
Proof.
  induction jobs as [| job jobs IH]; [done |].
  intros [Hj Hjobs]%andb_true_iff. rewrite eligible_cons. cbv zeta.
  destruct (Float.ge _ threshold); [| by apply IH].
  simpl. unfold all_text in *. simpl. rewrite Hj. by apply IH.
Qed.

Lemma eligible_idemp (jobs : list Job) resume_text threshold :
  eligible (eligible jobs resume_text threshold).*1 resume_text threshold
  = eligible jobs resume_text threshold.
Proof.
  induction jobs as [| job jobs IH]; [reflexivity |].
  rewrite eligible_cons. cbv zeta.
  destruct (Float.ge _ threshold) eqn:E; [| exact IH].
  rewrite fmap_cons, eligible_cons. cbv zeta. simpl fst.
  by rewrite E, IH.
Qed.

Lemma length_eligible (jobs : list Job) resume_text threshold :
  length (eligible jobs resume_text threshold) ≤ length jobs.
Proof.
  pose proof (sublist_length _ _ (eligible_sublist jobs resume_text threshold))
    as H.
  by rewrite length_fmap in H.
Qed.

(** X11. The filter raises exactly when some posting has a description that
    is not a [str], and then it raises [TypeError], whatever the threshold
    and the resume and wherever the posting stands; otherwise it returns. *)
Theorem filter_jobs_by_score_raises
    (jobs : list Job) (resume_text : string) (threshold : spec_float) :
  (∀ e, filter_jobs_by_score jobs resume_text threshold = Raise e ↔
        e = TypeError
        ∧ ∃ job, job ∈ jobs ∧ is_text (description job) = false)
  ∧ ((∃ res, filter_jobs_by_score jobs resume_text threshold = Ok res)
     ↔ ∀ job, job ∈ jobs → is_text (description job) = true).
Proof.
  rewrite filter_jobs_by_score_spec. unfold all_text. split.
  - intros e. rewrite <- forallb_false_elem_of.
    destruct (forallb _ jobs); split; try done.
    + by intros [_ ?].
    + by intros [= <-].
    + by intros [-> _].
  - destruct (forallb _ jobs) eqn:E; split.
    + intros _ job Hin.
      rewrite forallb_forall in E. apply E. by apply list_elem_of_In.
    + intros _. by eexists.
    + by intros [res ?].
    + intros H. apply forallb_false_elem_of in E as (job & Hin & Hno).
      rewrite (H job Hin) in Hno. done.
Qed.

(** X12. Filtering a list in two parts and putting the results together is
    filtering the whole, errors included.  The filter never returns more
    pairs than it was given postings, and filtering the postings it kept
    once more returns the same pairs. *)
Theorem filter_jobs_by_score_app
    (jobs1 jobs2 : list Job) (resume_text : string) (threshold : spec_float) :
  filter_jobs_by_score (jobs1 ++ jobs2) resume_text threshold
  = (res1 ←! filter_jobs_by_score jobs1 resume_text threshold;
     res2 ←! filter_jobs_by_score jobs2 resume_text threshold;
     Ok (res1 ++ res2))
  ∧ ∀ res, filter_jobs_by_score jobs1 resume_text threshold = Ok res →
      length res ≤ length jobs1
      ∧ filter_jobs_by_score res.*1 resume_text threshold = Ok res.
Proof.
  rewrite !filter_jobs_by_score_spec, all_text_app. split.
  - destruct (all_text jobs1), (all_text jobs2); simpl; try reflexivity.
    by rewrite eligible_app.
  - intros res. destruct (all_text jobs1) eqn:E; [| done].
    intros [= <-]. split; [apply length_eligible |].
    by rewrite filter_jobs_by_score_spec, eligible_fst_text, eligible_idemp.
Qed.

(** X13. On postings whose descriptions are text, a threshold of 0 or less
    (minus infinity included) keeps every posting with its score, and a
    threshold above 100, plus infinity or NaN keeps none. *)
Theorem filter_jobs_by_score_extreme_thresholds
    (jobs : list Job) (resume_text : string) (threshold : spec_float) :
  all_text jobs = true →
  (Float.le threshold Float.zero = true →
   filter_jobs_by_score jobs resume_text threshold
   = Ok (scored jobs resume_text))
  ∧ (Float.lt Float.hundred threshold = true →
     filter_jobs_by_score jobs resume_text threshold = Ok [])
  ∧ (threshold = S754_nan →
     filter_jobs_by_score jobs resume_text threshold = Ok []).
Proof.
  intros Htext. rewrite filter_jobs_by_score_spec, Htext.
  assert (∀ job, Float.le Float.zero
                   (ats_score resume_text (py_str (description job))) = true
                 ∧ Float.le (ats_score resume_text (py_str (description job)))
                     Float.hundred = true) as Hrange.
  { intros job. apply FloatFacts.within_le, ats_score_within. }
  split; [| split].
  - intros Hle. f_equal. clear Htext.
    induction jobs as [| job jobs IH]; [reflexivity |].
    rewrite eligible_cons. cbv zeta. unfold Float.ge.
    rewrite (FloatFacts.le_trans _ _ _ Hle (proj1 (Hrange job))), IH.
    reflexivity.
  - intros Hlt. f_equal. clear Htext.
    induction jobs as [| job jobs IH]; [reflexivity |].
    rewrite eligible_cons. cbv zeta. unfold Float.ge.
    destruct (Float.le threshold _) eqn:E; [exfalso | exact IH].
    pose proof (FloatFacts.le_trans _ _ _ E (proj2 (Hrange job))) as Hle.
    unfold Float.lt in Hlt. rewrite Hle in Hlt.
    by destruct threshold.
  - intros ->. f_equal. clear Htext.
    induction jobs as [| job jobs IH]; [reflexivity |].
    rewrite eligible_cons. cbv zeta. exact IH.
Qed.

(** ** Job loader: outcomes, records, identifiers *)

Lemma all_text_jobs_of_data (data : list item) :
  all_text (jobs_of_data data)
  = forallb (λ it, is_text (get it "description")) data.
Proof.
  induction data as [| it data IH]; [reflexivity |].
  rewrite jobs_of_data_cons. unfold all_text in *. simpl. by rewrite IH.
Qed.

Lemma jobs_of_data_app (d1 d2 : list item) :
  jobs_of_data (d1 ++ d2) = jobs_of_data d1 ++ jobs_of_data d2.
Proof.
  induction d1 as [| it d1 IH]; [reflexivity |].
  rewrite <- app_comm_cons, !jobs_of_data_cons, IH. reflexivity.
Qed.

Lemma load_items_inv (items : list element) (jobs : list Job) :
  (Other ∈ items ∧ load_items items jobs = Raise AttributeError)
  ∨ ∃ records, items = Record <$> records
               ∧ load_items items jobs = Ok (load_loop records jobs).
Proof.
  revert jobs. induction items as [| [it |] items IH]; intros jobs.
  - right. by exists [].
  - simpl.
    destruct (IH (jobs ++ [ {| job_id := py_str (get it "id");
                               title := get it "title";
                               company := get it "company";
                               location := get it "location";
                               description := get it "description";
                               url := get it "url" |} ]))
      as [[Hin ->] | (records & -> & ->)].
    + left. split; [by apply list_elem_of_further | reflexivity].
    + right. by exists (it :: records).
  - left. split; [apply list_elem_of_here | reflexivity].
Qed.

Lemma Other_not_Record (records : list item) : Other ∉ Record <$> records.
Proof. intros (it & [=] & _)%list_elem_of_fmap. Qed.

Lemma fmap_Record_inj (records records' : list item) :
  Record <$> records = Record <$> records' → records = records'.
Proof.
  revert records'. induction records as [| it records IH];
    intros [| it' records']; simpl; try done.
  intros [= -> H]. f_equal. by apply IH.
Qed.

Lemma Other_elem_of_strings {A : Type} (l : list A) :
  Other ∈ (λ _ : A, Other) <$> l ↔ l ≠ [].
Proof.
  destruct l as [| x l]; simpl.
  - split; [by intros ?%elem_of_nil | done].
  - split; [done | intros _; apply list_elem_of_here].
Qed.

(** X14. The loop of [load_jobs] on whatever [json.loads] has returned.  It
    raises [TypeError] exactly on a number, a boolean or [null];
    [AttributeError] exactly on an array with an element that is not an
    object, on an object with a key and on a string with a character; and
    nothing else.  It returns postings exactly on an array of objects, one
    posting per object, and no posting on the empty object and on the empty
    string.  Where [json.loads] returns an array of objects, [load_jobs]
    returns what this loop gives.  The postings of two lists of records put
    together are the postings of each, and a key other than the six the
    loader reads changes nothing. *)
Theorem load_jobs_loop_outcomes (data : document) :
  (load_data data = Raise TypeError ↔ data = Scalar)
  ∧ (load_data data = Raise AttributeError ↔
       (∃ elements, data = Array elements ∧ Other ∈ elements)
       ∨ (∃ keys, data = Object keys ∧ keys ≠ [])
       ∨ (∃ s, data = Text s ∧ s ≠ ""))
  ∧ (∀ e, load_data data = Raise e → e = TypeError ∨ e = AttributeError)
  ∧ (∀ jobs, load_data data = Ok jobs ↔
       (∃ records, data = Array (Record <$> records)
                   ∧ jobs = jobs_of_data records)
       ∨ (jobs = [] ∧ (data = Object [] ∨ data = Text "")))
  ∧ (∀ (json_loads : string → result (list item)) (path : string)
       (w : world) (text : string) (records : list item),
       files w !! path = Some text → json_loads text = Ok records →
       load_jobs json_loads path w = load_data (Array (Record <$> records)))
  ∧ (∀ d1 d2, jobs_of_data (d1 ++ d2) = jobs_of_data d1 ++ jobs_of_data d2)
  ∧ (∀ (it : item) (key : string) (v : pyval),
       key ∉ job_keys → jobs_of_data [<[key := v]> it] = jobs_of_data [it]).
Proof.
  split; [| split; [| split; [| split; [| split; [| split]]]]].
  5:{ intros json_loads path w text records Hfile Hjson.
      unfold load_jobs, read_text, load_data. rewrite Hfile. simpl.
      rewrite Hjson. simpl.
      destruct (load_items_inv (Record <$> records) [])
        as [[Hin _] | (records' & E & ->)].
      - by apply Other_not_Record in Hin.
      - apply fmap_Record_inj in E. by subst. }
  - destruct data as [elements | keys | s |]; unfold load_data; simpl;
      [| | | done].
    + destruct (load_items_inv elements []) as [[_ ->] | (? & _ & ->)]; done.
    + destruct (load_items_inv ((λ _, Other) <$> keys) [])
        as [[_ ->] | (? & _ & ->)]; done.
    + destruct (load_items_inv ((λ _, Other) <$> list_ascii_of_string s) [])
        as [[_ ->] | (? & _ & ->)]; done.
  - destruct data as [elements | keys | s |]; unfold load_data; simpl.
    + destruct (load_items_inv elements [])
        as [[Hin ->] | (records & -> & ->)]; split; try done.
      * intros _. left. by exists elements.
      * intros [(elements & [= <-] & Hin) | [(? & [=] & _) | (? & [=] & _)]].
        by apply Other_not_Record in Hin.
    + destruct (load_items_inv ((λ _, Other) <$> keys) [])
        as [[Hin ->] | (records & E & ->)]; split; try done.
      * intros _. right. left. exists keys.
        split; [done | by apply Other_elem_of_strings].
      * intros [(? & [=] & _) | [(keys' & [= <-] & Hne) | (? & [=] & _)]].
        apply Other_elem_of_strings in Hne. rewrite E in Hne.
        by apply Other_not_Record in Hne.
    + destruct (load_items_inv ((λ _, Other) <$> list_ascii_of_string s) [])
        as [[Hin ->] | (records & E & ->)]; split; try done.
      * intros _. right. right. exists s. split; [done |].
        apply Other_elem_of_strings in Hin. by intros ->.
      * intros [(? & [=] & _) | [(? & [=] & _) | (s' & [= <-] & Hne)]].
        assert (list_ascii_of_string s ≠ []) as Hne' by (by destruct s).
        apply Other_elem_of_strings in Hne'. rewrite E in Hne'.
        by apply Other_not_Record in Hne'.
    + split; [done |].
      intros [(? & [=] & _) | [(? & [=] & _) | (? & [=] & _)]].
  - intros e. destruct data as [elements | keys | s |]; unfold load_data;
      simpl; [| | | intros [= <-]; by left].
    + destruct (load_items_inv elements []) as [[_ ->] | (? & _ & ->)];
        [intros [= <-]; by right | done].
    + destruct (load_items_inv ((λ _, Other) <$> keys) [])
        as [[_ ->] | (? & _ & ->)]; [intros [= <-]; by right | done].
    + destruct (load_items_inv ((λ _, Other) <$> list_ascii_of_string s) [])
        as [[_ ->] | (? & _ & ->)]; [intros [= <-]; by right | done].
  - intros jobs. destruct data as [elements | keys | s |]; unfold load_data;
      simpl.
    + destruct (load_items_inv elements [])
        as [[Hin ->] | (records & -> & ->)]; split.
      * done.
      * intros [(records & [= ->] & _) | [_ [[=] | [=]]]].
        by apply Other_not_Record in Hin.
      * intros [= <-]. left. by exists records.
      * intros [(records' & [= E] & ->) | [_ [[=] | [=]]]].
        apply fmap_Record_inj in E. by subst.
    + destruct keys as [| key keys]; simpl; split; try done.
      * intros [= <-]. right. split; [done | by left].
      * by intros [(? & [=] & _) | [-> _]].
      * intros [(? & [=] & _) | [_ [[=] | [=]]]].
    + destruct s as [| c s]; simpl; split; try done.
      * intros [= <-]. right. split; [done | by right].
      * by intros [(? & [=] & _) | [-> _]].
      * intros [(? & [=] & _) | [_ [[=] | [=]]]].
    + split; [done |]. intros [(? & [=] & _) | [_ [[=] | [=]]]].
  - apply jobs_of_data_app.
  - intros it key v Hkey. rewrite !jobs_of_data_cons. unfold get.
    assert (∀ k, k ∈ job_keys → <[key := v]> it !! k = it !! k) as Hother.
    { intros k Hk. apply lookup_insert_ne. by intros ->. }
    unfold job_keys in Hother.
    by rewrite !Hother by (rewrite !elem_of_cons; auto 10).
Qed.

(** X15. The identifier of a posting is [str] of what the record holds under
    ["id"], and the empty string when the key is absent.  Distinct integers
    give distinct identifiers, while an integer and the text of its numeral
    give the same one. *)
Theorem job_id_of_record (it : item) :
  (∀ v, job_id <$> jobs_of_data [<["id" := v]> it] = [py_str v])
  ∧ job_id <$> jobs_of_data [delete "id" it] = [""]
  ∧ (∀ n n' : Z,
       job_id <$> jobs_of_data [<["id" := PyInt n]> it]
       = job_id <$> jobs_of_data [<["id" := PyInt n']> it]
       ↔ n = n')
  ∧ (∀ n : Z,
       job_id <$> jobs_of_data [<["id" := PyStr (Float.dec n)]> it]
       = job_id <$> jobs_of_data [<["id" := PyInt n]> it]).
Proof.
  assert (∀ v, job_id <$> jobs_of_data [<["id" := v]> it] = [py_str v])
    as Hid.
  { intros v. rewrite jobs_of_data_cons. simpl. unfold get.
    assert (<["id" := v]> it !! "id" = Some v) as Hlookup
      by apply lookup_insert_eq.
    by rewrite Hlookup. }
  split; [exact Hid | split; [| split]].
  - rewrite jobs_of_data_cons. simpl. unfold get.
    assert (delete "id" it !! "id" = None) as Hlookup
      by apply lookup_delete_eq.
    by rewrite Hlookup.
  - intros n n'. rewrite !Hid. split; [| by intros ->].
    intros [= E]. by apply dec_inj.
  - intros n. by rewrite !Hid.
Qed.

(** ** Logger: fields *)

(** A text is cut at its first bar in one way only. *)
Lemma split_at_bar (a a' b b' : list ascii) :
  Forall (λ c, c ≠ "|"%char) a → Forall (λ c, c ≠ "|"%char) a' →
  a ++ "|"%char :: b = a' ++ "|"%char :: b' → a = a' ∧ b = b'.
Proof.
  intros Ha. revert a'. induction Ha as [| c a Hc _ IH]; intros a' Ha' E.
  - destruct Ha' as [| c' a' Hc' _]; simpl in E.
    + by injection E as ->.
    + injection E as E _. by destruct Hc'.
  - destruct Ha' as [| c' a' Hc' Ha']; simpl in E.
    + injection E as E _. by destruct Hc.
    + injection E as -> E. destruct (IH a' Ha' E) as [-> ->]. done.
Qed.

Lemma no_bar_digits (s : string) :
  Forall (λ c, Regex.is_digit c = true) (list_ascii_of_string s) → no_bar s.
Proof.
  unfold no_bar. intros H. eapply Forall_impl; [exact H |].
  intros c Hc ->. discriminate Hc.
Qed.

Lemma no_bar_app (a b : string) : no_bar a → no_bar b → no_bar (a +:+ b).
Proof.
  unfold no_bar. rewrite list_ascii_of_string_app. apply Forall_app_2.
Qed.

Lemma no_bar_format_2f (x : spec_float) : no_bar (Float.format_2f x).
Proof.
  destruct x as [[] | [] | | s m e];
    try (unfold no_bar; vm_compute; repeat constructor; discriminate).
  destruct (format_2f_two_decimals (S754_finite s m e) eq_refl)
    as (sign & ip & d1 & d2 & -> & Hsign & Hip & _ & Hd1 & Hd2).
  repeat apply no_bar_app.
  - destruct Hsign as [-> | ->]; unfold no_bar; repeat constructor.
    discriminate.
  - by apply no_bar_digits.
  - unfold no_bar. repeat constructor. discriminate.
  - apply no_bar_digits. repeat constructor; assumption.
Qed.

(** One field of an entry, between two bars or at an end: the text before
    the next bar determines the field, and the rest follows. *)
Lemma field_then_bar (pre : list ascii) (f f' : string)
    (rest rest' : list ascii) :
  Forall (λ c, c ≠ "|"%char) pre → no_bar f → no_bar f' →
  pre ++ list_ascii_of_string f ++ " "%char :: "|"%char :: rest
  = pre ++ list_ascii_of_string f' ++ " "%char :: "|"%char :: rest' →
  f = f' ∧ rest = rest'.
Proof.
  intros Hpre Hf Hf' E.
  assert (∀ g : string, no_bar g →
            Forall (λ c, c ≠ "|"%char)
                   (pre ++ list_ascii_of_string g ++ [" "%char])) as Hcut.
  { intros g Hg. apply Forall_app_2; [exact Hpre |].
    apply Forall_app_2; [exact Hg |]. repeat constructor. discriminate. }
  destruct (split_at_bar (pre ++ list_ascii_of_string f ++ [" "%char])
              (pre ++ list_ascii_of_string f' ++ [" "%char]) rest rest')
    as [Ea Eb]; [by apply Hcut | by apply Hcut | |].
  { rewrite <- !app_assoc. simpl. exact E. }
  split; [| exact Eb].
  apply app_inv_head, app_inv_tail in Ea.
  rewrite <- (string_of_list_ascii_of_string f),
    <- (string_of_list_ascii_of_string f'). by rewrite Ea.
Qed.

(** X20. An entry tells its fields apart when none of them holds a bar: two
    entries that are the same text, written from timestamps and postings
    without the character [|] in the timestamp, the identifier, the title,
    the company, the location or the URL, have the same timestamp, the same
    rendering of each of these fields and the same rendering of the
    score. *)
Theorem entry_determines_fields
    (timestamp timestamp' : string) (job job' : Job)
    (score score' : spec_float) :
  no_bar timestamp → no_bar timestamp' →
  bar_free_fields job → bar_free_fields job' →
  entry timestamp job score = entry timestamp' job' score' →
  timestamp = timestamp'
  ∧ job_id job = job_id job'
  ∧ py_str (title job) = py_str (title job')
  ∧ py_str (company job) = py_str (company job')
  ∧ py_str (location job) = py_str (location job')
  ∧ Float.format_2f score = Float.format_2f score'
  ∧ py_str (url job) = py_str (url job').
Proof.
  intros Ht Ht' (Hid & Htitle & Hcompany & Hlocation & Hurl)
    (Hid' & Htitle' & Hcompany' & Hlocation' & Hurl') E.
  pose proof (no_bar_format_2f score) as Hs.
  pose proof (no_bar_format_2f score') as Hs'.
  unfold entry, entry_body in E.
  apply (f_equal list_ascii_of_string) in E.
  repeat rewrite list_ascii_of_string_app in E.
  repeat rewrite <- app_assoc in E.
  cbn [list_ascii_of_string app newline] in E.
  apply (field_then_bar [] timestamp timestamp') in E as [-> E];
    [| constructor | done | done].
  injection E as E.
  apply (field_then_bar [] (job_id job) (job_id job')) in E as [Eid E];
    [| constructor | done | done].
  injection E as E.
  apply (field_then_bar [] (py_str (title job)) (py_str (title job'))) in E
    as [Etitle E]; [| constructor | done | done].
  injection E as E.
  apply (field_then_bar [] (py_str (company job)) (py_str (company job')))
    in E as [Ecompany E]; [| constructor | done | done].
  injection E as E.
  apply (field_then_bar [] (py_str (location job)) (py_str (location job')))
    in E as [Elocation E]; [| constructor | done | done].
  injection E as E.
  apply (field_then_bar [] (Float.format_2f score) (Float.format_2f score'))
    in E as [Escore E]; [| constructor | done | done].
  injection E as E. apply app_inv_tail in E.
  repeat (split; [done |]).
  rewrite <- (string_of_list_ascii_of_string (py_str (url job))),
    <- (string_of_list_ascii_of_string (py_str (url job'))). by rewrite E.
Qed.

(** ** Loader, logger and passes in the world *)

Section ProgramFacts.

Variable utcnow_isoformat : nat → string.
Variable json_loads : string → result (list item).

Lemma load_jobs_inv path w :
  load_jobs json_loads path w
  = match files w !! path with
    | None => Raise FileNotFoundError
    | Some text =>
        match json_loads text with
        | Ok data => Ok (jobs_of_data data)
        | Raise e => Raise e
        end
    end.
Proof.
  unfold load_jobs, read_text. destruct (files w !! path); [| reflexivity].
  simpl. by destruct (json_loads _).
Qed.


Lemma is_Some_files_log_application log_path job score w p :
  is_Some (files (log_application utcnow_isoformat log_path job score w) !! p)
  ↔ p = log_path ∨ is_Some (files w !! p).
Proof.
  simpl. destruct (decide (p = log_path)) as [-> | Hne].
  - rewrite lookup_insert_eq. split; [by left | by eexists].
  - rewrite lookup_insert_ne by done. split; [by right | by intros [? | ?]].
Qed.

Lemma is_Some_files_apply_to_jobs pairs log_path w p :
  is_Some (files (apply_to_jobs utcnow_isoformat pairs log_path w) !! p)
  ↔ (p = log_path ∧ pairs ≠ []) ∨ is_Some (files w !! p).
Proof.
  revert w. induction pairs as [| [job score] pairs IH]; intros w.
  - simpl. split; [by right | by intros [[_ ?] | ?]].
  - simpl apply_to_jobs. rewrite IH, is_Some_files_log_application.
    split.
    + intros [[-> _] | [-> | H]]; [by left | by left | by right].
    + intros [[-> _] | H]; [right; by left | right; by right].
Qed.

(** X17. A pass that succeeds reads the clock once per eligible posting and
    changes no file but the log.  When no posting is eligible it changes
    nothing at all: the log is not even created.  The log exists after the
    pass exactly when it existed before or some posting was eligible. *)
Theorem run_once_effect (a : args) (w w1 : world) :
  run_once utcnow_isoformat json_loads a w = Ok w1 →
  ∃ (resume_text : string) (jobs : list Job)
    (elig : list (Job * spec_float)),
    read_text (resume a) w = Ok resume_text
    ∧ load_jobs json_loads (jobs_file a) w = Ok jobs
    ∧ filter_jobs_by_score jobs resume_text (threshold a) = Ok elig
    ∧ w1 = apply_to_jobs utcnow_isoformat elig (log a) w
    ∧ (elig = [] → w1 = w)
    ∧ clock w1 = clock w + length elig
    ∧ (∀ p, is_Some (files w1 !! p)
            ↔ (p = log a ∧ elig ≠ []) ∨ is_Some (files w !! p))
    ∧ (∀ p, p ≠ log a → files w1 !! p = files w !! p).
Proof.
  intros (r & jobs & elig & Hr & Hl & Hf & ->)%run_once_inv.
  exists r, jobs, elig.
  destruct (apply_to_jobs_spec utcnow_isoformat elig (log a) w)
    as (_ & Hk & Hfiles).
  repeat (split; [done |]).
  split; [by intros -> |]. split; [exact Hk |].
  split; [intros p; apply is_Some_files_apply_to_jobs | exact Hfiles].
Qed.

Lemma newlines_batch t pairs :
  (∀ k, no_newline (utcnow_isoformat k)) →
  Forall (λ p, one_line_fields p.1) pairs →
  newlines (join (batch utcnow_isoformat t pairs)) = length pairs.
Proof.
  intros Hclock Hpairs. revert t.
  induction Hpairs as [| [job score] pairs Hjob _ IH]; intros t;
    [reflexivity |].
  rewrite batch_cons. unfold join in *. simpl foldr.
  rewrite newlines_app, IH, newlines_entry by (auto; apply Hclock).
  reflexivity.
Qed.

(** X18. When neither the timestamps nor the logged fields of the postings
    hold a line break, the applicator adds exactly one line to the log per
    pair: the number of lines of the log grows by the number of pairs. *)
Theorem apply_to_jobs_line_count
    (pairs : list (Job * spec_float)) (log_path : string) (w : world) :
  (∀ k, no_newline (utcnow_isoformat k)) →
  Forall (λ p, one_line_fields p.1) pairs →
  newlines (content log_path (apply_to_jobs utcnow_isoformat pairs log_path w))
  = newlines (content log_path w) + length pairs.
Proof.
  intros Hclock Hpairs.
  destruct (apply_to_jobs_spec utcnow_isoformat pairs log_path w)
    as (-> & _ & _).
  by rewrite newlines_app, newlines_batch.
Qed.

Lemma length_batches n t elig :
  length (batches utcnow_isoformat n t elig) = n * length elig.
Proof.
  revert t. induction n as [| n IH]; intros t; [reflexivity |].
  simpl. rewrite length_app, IH, length_batch. lia.
Qed.

Lemma passes_batches a elig r jobs :
  log a ≠ resume a → log a ≠ jobs_file a →
  filter_jobs_by_score jobs r (threshold a) = Ok elig →
  ∀ n w,
    read_text (resume a) w = Ok r →
    load_jobs json_loads (jobs_file a) w = Ok jobs →
    ∃ wn,
      passes utcnow_isoformat json_loads n a w = Ok wn
      ∧ content (log a) wn
        = content (log a) w
          +:+ join (batches utcnow_isoformat n (clock w) elig)
      ∧ clock wn = clock w + n * length elig
      ∧ ∀ p, p ≠ log a → files wn !! p = files w !! p.
Proof.
  intros Hres Hjobs Hf n. induction n as [| n IH]; intros w Hr Hl.
  - exists w. simpl. rewrite append_nil_r.
    split; [done | split; [done | split; [lia | done]]].
  - pose proof (run_once_intro utcnow_isoformat json_loads a w r jobs elig
                  Hr Hl Hf) as Hrun.
    destruct (apply_to_jobs_spec utcnow_isoformat elig (log a) w)
      as (Hc & Hk & Hfiles).
    set (w1 := apply_to_jobs utcnow_isoformat elig (log a) w) in *.
    destruct (IH w1) as (wn & Hpasses & Hcn & Hkn & Hfn).
    { rewrite <- Hr. apply read_text_same_file, Hfiles. congruence. }
    { rewrite <- Hl. unfold load_jobs.
      rewrite (read_text_same_file (jobs_file a) w w1); [done |].
      apply Hfiles. congruence. }
    exists wn. simpl passes. rewrite Hrun. simpl.
    split; [exact Hpasses |]. split; [| split; [lia |]].
    + rewrite Hcn, Hc, Hk. simpl batches.
      by rewrite join_app, append_assoc.
    + intros p Hp. by rewrite Hfn, Hfiles.
Qed.

End ProgramFacts.

(** ** The scheduler *)

Section SchedulerFacts.

Variable utcnow_isoformat : nat → string.
Variable json_loads : string → result (list item).
Variable sleep_raises : Z → bool.

Lemma main_loop_passes (a : args) :
  sleep_raises (interval_minutes a * 60) = false →
  ∀ n w wn,
    passes utcnow_isoformat json_loads n a w = Ok wn →
    main_loop utcnow_isoformat json_loads sleep_raises n a w = Looping wn.
Proof.
  intros Hsleep n. induction n as [| n IH]; intros w wn; simpl.
  - by intros [= <-].
  - destruct (run_once utcnow_isoformat json_loads a w) as [w1 |];
      [| discriminate].
    simpl. rewrite Hsleep. apply IH.
Qed.

(** X19. [main] after [parse_args].  An exception of the first pass ends
    [main], with [--once] or without: nothing catches it and nothing is
    tried again.  When the first pass returns: with [--once], [main] returns
    after this one pass; without it, when [time.sleep] refuses the interval
    (a negative one), [main] ends with the exception of [time.sleep] after
    this one pass, its entries in the log; and when [time.sleep] accepts the
    interval and the log is neither of the two input files, the loop never
    ends: after [n] turns the log holds what it held before followed by [n]
    batches of the entries of the same eligible postings, under new
    timestamps, and no other file has changed. *)
Theorem main_outcomes (a : args) (w : world) :
  (∀ e, run_once utcnow_isoformat json_loads a w = Raise e →
        ∀ n, main utcnow_isoformat json_loads sleep_raises (S n) a w
             = PassRaised e)
  ∧ (∀ w1, run_once utcnow_isoformat json_loads a w = Ok w1 →
       (once a = true →
        ∀ n, main utcnow_isoformat json_loads sleep_raises n a w
             = Returned w1)
       ∧ (once a = false →
          sleep_raises (interval_minutes a * 60) = true →
          ∀ n, main utcnow_isoformat json_loads sleep_raises (S n) a w
               = SleepRaised w1)
       ∧ (once a = false →
          sleep_raises (interval_minutes a * 60) = false →
          log a ≠ resume a → log a ≠ jobs_file a →
          ∃ elig : list (Job * spec_float),
            w1 = apply_to_jobs utcnow_isoformat elig (log a) w
            ∧ ∀ n, ∃ wn,
                main utcnow_isoformat json_loads sleep_raises n a w
                = Looping wn
                ∧ content (log a) wn
                  = content (log a) w
                    +:+ join (batches utcnow_isoformat n (clock w) elig)
                ∧ length (batches utcnow_isoformat n (clock w) elig)
                  = n * length elig
                ∧ clock wn = clock w + n * length elig
                ∧ ∀ p, p ≠ log a → files wn !! p = files w !! p)).
Proof.
  split.
  - intros e Hrun n. unfold main. simpl. rewrite Hrun. by destruct (once a).
  - intros w1 Hrun. split; [| split].
    + intros Honce n. unfold main. by rewrite Honce, Hrun.
    + intros Honce Hsleep n. unfold main. rewrite Honce. simpl.
      by rewrite Hrun, Hsleep.
    + intros Honce Hsleep Hres Hjobs.
      destruct (run_once_inv _ _ _ _ _ Hrun)
        as (r & jobs & elig & Hr & Hl & Hf & ->).
      exists elig. split; [reflexivity |]. intros n.
      destruct (passes_batches utcnow_isoformat json_loads a elig r jobs
                  Hres Hjobs Hf n w Hr Hl) as (wn & H1 & H2 & H3 & H4).
      exists wn. unfold main. rewrite Honce.
      split; [by apply main_loop_passes |].
      split; [exact H2 |]. split; [apply length_batches |]. done.
Qed.

End SchedulerFacts.

(** ** The theorems at the worked inputs *)

Lemma empty_vocabulary_scores_zero_witness :
  ats_score "Python and SQL" "" = Float.zero
  ∧ (∀ score,
       (clerk, score) ∉ eligible demo_jobs "Python and SQL" (Float.of_int 50))
  ∧ (clerk, Float.zero) ∈ eligible demo_jobs "Python and SQL" Float.zero.
Proof.
  destruct (empty_vocabulary_scores_zero "Python and SQL" "" eq_refl)
    as (Hzero & _ & Hfilter).
  split; [exact Hzero | split].
  - apply (Hfilter clerk demo_jobs (Float.of_int 50) _ eq_refl);
      [vm_compute; reflexivity | reflexivity].
  - apply (Hfilter clerk demo_jobs Float.zero _ eq_refl);
      [vm_compute; reflexivity | reflexivity |].
    vm_compute. apply list_elem_of_further, list_elem_of_here.
Defined.

Lemma ats_score_case_order_invariant_witness :
  ats_score "PYTHON and sql" "python, sql OR go"
  = ats_score "Python and SQL" "Python, SQL or Go"
  ∧ ats_score "sql python" "go sql python"
    = ats_score "python sql" "python sql go"
  ∧ ats_score "sql sql python sql" "go go python sql"
    = ats_score "python sql" "python sql go"
  ∧ ats_score "python sql python sql" "python sql go python sql go"
    = ats_score "python sql" "python sql go".
Proof.
  split; [| split; [| split]].
  - destruct (ats_score_case_order_invariant
                "Python and SQL" "PYTHON and sql"
                "Python, SQL or Go" "python, sql OR go") as [Hcase _].
    apply Hcase; unfold case_variant; vm_compute; repeat constructor.
  - destruct (ats_score_case_order_invariant
                "python sql" "sql python" "python sql go" "go sql python")
      as (_ & _ & _ & _ & _ & _ & _ & Hperm & _ & _).
    apply Hperm.
    + change (["sql"; "python"] ≡ₚ ["python"; "sql"]). apply perm_swap.
    + change (["go"; "sql"; "python"] ≡ₚ ["python"; "sql"; "go"]).
      symmetry. apply (Permutation_rev ["python"; "sql"; "go"]).
  - destruct (ats_score_case_order_invariant
                "python sql" "sql sql python sql"
                "python sql go" "go go python sql")
      as (_ & _ & _ & _ & _ & _ & Hset & _).
    apply Hset; intros w; vm_compute (normalize_words _);
      rewrite !elem_of_cons, !elem_of_nil; tauto.
  - destruct (ats_score_case_order_invariant
                "python sql" "python sql python sql"
                "python sql go" "python sql go python sql go")
      as (_ & _ & _ & _ & _ & _ & _ & _ & Hdup & _).
    apply Hdup; vm_compute; reflexivity.
Defined.

Lemma filter_jobs_by_score_eligible_witness :
  filter_jobs_by_score demo_jobs "Python and SQL" (Float.of_int 50)
  = Ok (eligible demo_jobs "Python and SQL" (Float.of_int 50))
  ∧ (eligible demo_jobs "Python and SQL" (Float.of_int 50)).*1
    `sublist_of` demo_jobs.
Proof.
  destruct (filter_jobs_by_score_eligible
              demo_jobs "Python and SQL" (Float.of_int 50) eq_refl)
    as (Hfilter & _ & Horder).
  split; [exact Hfilter | exact Horder].
Defined.

Lemma filter_jobs_by_score_monotone_witness :
  ∃ at_zero,
    filter_jobs_by_score demo_jobs "Python and SQL" Float.zero = Ok at_zero
    ∧ eligible demo_jobs "Python and SQL" (Float.of_int 50)
      `sublist_of` at_zero.
Proof.
  destruct (filter_jobs_by_score_monotone
              demo_jobs "Python and SQL" Float.zero (Float.of_int 50)
              (eligible demo_jobs "Python and SQL" (Float.of_int 50)))
    as (at_zero & Hfilter & Hsub & _);
    [reflexivity | vm_compute; reflexivity |].
  exists at_zero. split; [exact Hfilter | exact Hsub].
Defined.

Lemma load_jobs_one_posting_per_record_witness :
  ∃ jobs,
    load_jobs demo_json_loads "jobs.json" demo_world = Ok jobs
    ∧ length jobs = 2.
Proof.
  destruct (load_jobs_one_posting_per_record
              demo_json_loads "jobs.json" demo_world "[two records]"
              demo_items)
    as (jobs & Hload & Hlen & _);
    [reflexivity | reflexivity |].
  exists jobs. split; [exact Hload | exact Hlen].
Defined.

Lemma log_application_appends_entry_witness :
  two_decimals (Float.format_2f (Prim2SF 91.5%float))
  ∧ newlines (content "applications.log"
                (log_application demo_clock "applications.log" job42
                   (Prim2SF 91.5%float) demo_world))
    = newlines (content "applications.log" demo_world) + 1.
Proof.
  destruct (log_application_appends_entry
              demo_clock "applications.log" job42 (Prim2SF 91.5%float)
              demo_world)
    as (_ & _ & Hdecimals & _ & _ & Hline & _).
  split; [apply Hdecimals; vm_compute; reflexivity |].
  apply Hline; [| repeat split];
    unfold no_newline; vm_compute; repeat constructor; discriminate.
Defined.

Lemma run_once_appends_only_witness :
  ∃ w2,
    passes demo_clock demo_json_loads 2 demo_args demo_world = Ok w2
    ∧ ∃ elig : list (Job * spec_float),
        content "applications.log" w2
        = join (batch demo_clock 0 elig ++ batch demo_clock (length elig) elig)
        ∧ length (batch demo_clock 0 elig ++ batch demo_clock (length elig) elig)
          = 2 * length (batch demo_clock 0 elig).
Proof.
  destruct (run_once_appends_only
              demo_clock demo_json_loads demo_args demo_world demo_world1)
    as (r & jobs & elig & _ & _ & _ & _ & _ & _ & Hsecond);
    [vm_compute; reflexivity |].
  destruct Hsecond as (w2 & _ & Hpasses & _ & _ & _ & Hlength & Hempty);
    [discriminate | discriminate |].
  destruct (Hempty eq_refl) as [_ Hcontent].
  exists w2. split; [exact Hpasses |].
  exists elig. split; [exact Hcontent | exact Hlength].
Defined.

(** ** The further theorems at the worked inputs *)

Lemma normalize_words_separator_witness :
  normalize_words "Python,SQL"
  = normalize_words "Python" ++ normalize_words "SQL"
  ∧ normalize_words "Python," = normalize_words "Python".
Proof.
  destruct (normalize_words_separator "," "Python" "SQL" eq_refl)
    as (Hjoin & _ & _).
  destruct (normalize_words_separator "," "Python" "" eq_refl)
    as (_ & Hend & _).
  split; [exact Hjoin | exact Hend].
Defined.

Lemma normalize_words_no_letters_witness :
  normalize_words "2024: 100% (Москва)" = []
  ∧ ats_score "Python and SQL" "2024: 100% (Москва)" = Float.zero.
Proof.
  destruct (normalize_words_no_letters "2024: 100% (Москва)") as [Hnone Hzero].
  - repeat constructor.
  - split; [exact Hnone | apply Hzero].
Defined.

Lemma ats_score_full_or_no_overlap_witness :
  ats_score "Python and SQL or Go" "Python, SQL or Go" = Float.hundred
  ∧ ats_score "Java and Rust" "Python, SQL or Go" = Float.zero
  ∧ (ats_score "Python and SQL" "Python, SQL or Go" = Float.hundred
     ↔ token_set "Python, SQL or Go" ⊆ token_set "Python and SQL").
Proof.
  assert (token_set "Python, SQL or Go" ≠ ∅) as HJ.
  { intros E. apply (f_equal size) in E. vm_compute in E. discriminate E. }
  destruct (ats_score_full_or_no_overlap
              "Python and SQL or Go" "Python, SQL or Go") as (Hfull & _).
  destruct (ats_score_full_or_no_overlap "Java and Rust" "Python, SQL or Go")
    as (_ & _ & Hnone & _).
  destruct (ats_score_full_or_no_overlap "Python and SQL" "Python, SQL or Go")
    as (_ & _ & _ & Hiff).
  split; [| split].
  - apply Hfull; [exact HJ |].
    apply (bool_decide_unpack _). vm_compute. exact I.
  - apply Hnone. apply leibniz_equiv, size_empty_iff. vm_compute. reflexivity.
  - apply Hiff; [exact HJ | vm_compute; reflexivity].
Defined.



Lemma filter_jobs_by_score_extreme_thresholds_witness :
  filter_jobs_by_score demo_jobs "Python and SQL" Float.zero
  = Ok (scored demo_jobs "Python and SQL")
  ∧ filter_jobs_by_score demo_jobs "Python and SQL" (Float.of_int 101)
    = Ok [].
Proof.
  destruct (filter_jobs_by_score_extreme_thresholds
              demo_jobs "Python and SQL" Float.zero eq_refl) as (Hall & _ & _).
  destruct (filter_jobs_by_score_extreme_thresholds
              demo_jobs "Python and SQL" (Float.of_int 101) eq_refl)
    as (_ & Hnone & _).
  split; [apply Hall | apply Hnone]; vm_compute; reflexivity.
Defined.

Lemma run_once_effect_witness :
  clock demo_world1 = 1
  ∧ is_Some (files demo_world1 !! "applications.log")
  ∧ files demo_world1 !! "resume.txt" = files demo_world !! "resume.txt".
Proof.
  destruct (run_once_effect demo_clock demo_json_loads
              demo_args demo_world demo_world1)
    as (r & jobs & elig & Hr & Hl & Hf & _ & _ & Hclock & Hlog & Hother);
    [vm_compute; reflexivity |].
  assert (elig = eligible demo_jobs "Python and SQL" (Float.of_int 50)) as ->.
  { vm_compute in Hr. injection Hr as <-.
    vm_compute in Hl. injection Hl as <-.
    vm_compute in Hf. injection Hf as <-. vm_compute. reflexivity. }
  split; [| split].
  - rewrite Hclock. vm_compute. reflexivity.
  - apply Hlog. left. split; [reflexivity |]. vm_compute. discriminate.
  - apply Hother. discriminate.
Defined.

Lemma apply_to_jobs_line_count_witness :
  newlines
    (content "applications.log"
       (apply_to_jobs fixed_clock
          [(job42, Prim2SF 91.5%float); (clerk, Float.zero)]
          "applications.log" demo_world))
  = newlines (content "applications.log" demo_world) + 2.
Proof.
  apply (apply_to_jobs_line_count fixed_clock
           [(job42, Prim2SF 91.5%float); (clerk, Float.zero)]
           "applications.log" demo_world).
  - intros k. unfold no_newline. vm_compute. repeat constructor; discriminate.
  - repeat constructor; unfold no_newline; vm_compute;
      repeat constructor; discriminate.
Defined.

Lemma main_outcomes_witness :
  main demo_clock demo_json_loads raises_on_negative 3 demo_args demo_world
  = Returned demo_world1
  ∧ main demo_clock demo_json_loads raises_on_negative 3
      demo_negative_args demo_world
    = SleepRaised demo_world1
  ∧ ∃ (elig : list (Job * spec_float)) (w3 : world),
      main demo_clock demo_json_loads raises_on_negative 3
        demo_loop_args demo_world
      = Looping w3
      ∧ content "applications.log" w3
        = content "applications.log" demo_world
          +:+ join (batches demo_clock 3 0 elig)
      ∧ length (batches demo_clock 3 0 elig) = 3 * length elig.
Proof.
  destruct (main_outcomes demo_clock demo_json_loads raises_on_negative
              demo_args demo_world) as [_ Honce].
  destruct (Honce demo_world1) as (Hreturn & _ & _);
    [vm_compute; reflexivity |].
  destruct (main_outcomes demo_clock demo_json_loads raises_on_negative
              demo_negative_args demo_world) as [_ Hneg].
  destruct (Hneg demo_world1) as (_ & Hcrash & _);
    [vm_compute; reflexivity |].
  destruct (main_outcomes demo_clock demo_json_loads raises_on_negative
              demo_loop_args demo_world) as [_ Hloop].
  destruct (Hloop demo_world1) as (_ & _ & Hgo);
    [vm_compute; reflexivity |].
  destruct Hgo as (elig & _ & Hn); try reflexivity; try discriminate.
  destruct (Hn 3) as (w3 & Hmain & Hcontent & Hlength & _).
  split; [by apply Hreturn |].
  split; [apply (Hcrash eq_refl eq_refl 2) |].
  exists elig, w3.
  split; [exact Hmain | split; [exact Hcontent | exact Hlength]].
Defined.


Lemma entry_determines_fields_witness :
  py_str (title {| job_id := "7"; title := PyInt 7; company := PyNone;
                   location := PyStr "Remote"; description := PyStr "";
                   url := PyStr "http://x/7" |})
  = py_str (title {| job_id := "7"; title := PyStr "7";
                     company := PyStr "None"; location := PyStr "Remote";
                     description := PyStr "Go"; url := PyStr "http://x/7" |}).
Proof.
  refine (proj1 (proj2 (proj2
    (entry_determines_fields (fixed_clock 0) (fixed_clock 1)
       {| job_id := "7"; title := PyInt 7; company := PyNone;
          location := PyStr "Remote"; description := PyStr "";
          url := PyStr "http://x/7" |}
       {| job_id := "7"; title := PyStr "7"; company := PyStr "None";
          location := PyStr "Remote"; description := PyStr "Go";
          url := PyStr "http://x/7" |}
       Float.hundred Float.hundred _ _ _ _ _))));
    try (vm_compute; reflexivity);
    repeat split; unfold no_bar; vm_compute; repeat constructor; discriminate.
Defined.
